(** * Symbolic matrices of GiNaC (ginac/matrix.cpp): a shallow embedding

    The development follows [ginac/matrix.cpp].  A [matrix] is the triple
    [row], [col], [m] of the C++ class: two [unsigned] dimensions and the
    row-major [exvector] of entries.  The [unsigned] quantities are natural
    numbers below [2 ^ 32].  The indices the code computes on a well-formed
    matrix stay below [row * col]; where the code subtracts one from a
    dimension in a loop test, or multiplies two counts, the wrap-around of
    the machine is written out ([unsigned_pred], [unsigned_mul]).

    Entries are GiNaC expressions ([ex]).  The expression engine is not part
    of [matrix.cpp]; it is represented here by the values expressions denote:
    elements of a field [F] (numbers, polynomials and rational functions in
    the atoms of the expressions), together with the queries the matrix code
    makes on them ([info] flags, [numer]/[denom], [divide], [compare]).
    Canonicalising calls ([expand], [normal], [collect], [to_rational]
    followed by [subs]) do not change the value an expression denotes.

    C++ exceptions are values of type [exception]; a member function that may
    throw returns a [result].  Loops are folds over index ranges or, when the
    loop leaves early, recursive functions whose fuel is the loop bound. *)

From Stdlib Require Import NArith.
From HB Require Import structures.
From mathcomp Require Import boot order algebra.
From mathcomp Require Import fingroup perm.
From Stdlib Require String.
From Stdlib Require Import Lia.
Import String.StringSyntax.
Delimit Scope string_scope with string.

Set Implicit Arguments.
Unset Strict Implicit.
Unset Printing Implicit Defensive.

Import Order.TTheory GRing.Theory Num.Theory.
Local Open Scope ring_scope.

(** ** Exceptions *)

(** The classes of [<stdexcept>] that [matrix.cpp] throws. *)
Inductive exception_class :=
  | logic_error
  | invalid_argument
  | runtime_error
  | range_error.

Record exception := Exception {
  exn_class : exception_class;
  what : String.string
}.

(** [catch (const std::runtime_error &)] also catches the derived class
    [std::range_error]; [std::invalid_argument] derives from
    [std::logic_error] and is not caught. *)
Definition is_runtime_error (c : exception_class) : bool :=
  match c with
  | runtime_error | range_error => true
  | logic_error | invalid_argument => false
  end.

Definition is_logic_error (c : exception_class) : bool :=
  match c with
  | logic_error | invalid_argument => true
  | runtime_error | range_error => false
  end.

(** The outcome of a call: a value or an exception.  [OutOfFuel] is not an
    outcome of the C++ code; it marks a loop of the model whose fuel ran out,
    and the theorems show that it is never the outcome. *)
Inductive result (T : Type) :=
  | Ok (x : T)
  | Throw (e : exception)
  | OutOfFuel.
Arguments Ok {T} x.
Arguments Throw {T} e.
Arguments OutOfFuel {T}.

Definition bind {A B : Type} (c : result A) (k : A -> result B) : result B :=
  match c with
  | Ok x => k x
  | Throw e => Throw e
  | OutOfFuel => OutOfFuel
  end.

Notation "x <- c ;; k" := (bind c (fun x => k))
  (at level 61, c at next level, right associativity).

(** A [for] loop whose body may throw: the first exception ends the loop. *)
Fixpoint for_each {S : Type} (body : nat -> S -> result S)
    (idx : seq nat) (s : S) : result S :=
  match idx with
  | [::] => Ok s
  | i :: idx' => s' <- body i s ;; for_each body idx' s'
  end.

(** [for (unsigned i=a; i<b; ++i) body] without early exit. *)
Definition for_range {S : Type} (a b : nat) (body : nat -> S -> S) (s : S) : S :=
  foldl (fun st i => body i st) s (iota a (b - a)).

(** The exceptions of [matrix.cpp], by the names of the specification. *)
Local Open Scope string_scope.
Definition NonSquareMatrix (fn : String.string) : exception :=
  Exception logic_error (String.append "matrix::" (String.append fn "(): matrix not square")).

Definition IndexOutOfRange : exception :=
  Exception range_error "matrix::operator(): index out of range".

Definition DimensionMismatch (fn : String.string) : exception :=
  Exception logic_error (String.append "matrix::" (String.append fn "(): incompatible matrices")).

Definition InvalidArgument : exception :=
  Exception invalid_argument "matrix::solve(): 1st argument must be matrix of symbols".

Definition InconsistentSystem : exception :=
  Exception runtime_error "matrix::solve(): inconsistent linear system".

Definition SingularMatrix : exception :=
  Exception runtime_error "matrix::inverse(): singular matrix".

Definition Unsupported : exception :=
  Exception runtime_error "matrix::pow(): don't know how to handle exponent".

Local Close Scope string_scope.

(** [determinant_algo] and [solve_algo] of [flags.h]. *)
Module determinant_algo.
Inductive t := automatic | gauss | divfree | laplace | bareiss.
End determinant_algo.

Module solve_algo.
Inductive t := automatic | gauss | divfree | bareiss.
End solve_algo.

(** ** Machine arithmetic *)

(** The dimensions and the loop counters are [unsigned]: 32 bits, with
    wrap-around.  [unsigned_pred a] is [a - 1] and [unsigned_mul a b] is
    [a * b], as the machine computes them on numbers below [2 ^ 32]; the
    product is formed on binary numbers, which keeps it computable. *)
Notation UINT_MAX := (2 ^ 32 - 1)%N (only parsing).

Definition unsigned_pred (a : nat) : nat := if a is a'.+1 then a' else UINT_MAX.

Definition unsigned_mul (a b : nat) : nat :=
  N.to_nat ((N.of_nat a * N.of_nat b) mod 2 ^ 32)%num.

(** ** Ring elements *)

(** The queries the matrix code makes on expressions, as an interface over
    the field of their values. *)
Class ExprOps (F : fieldType) := {
  (** [ex::info] with the flags used by the matrix code *)
  info_numeric : F -> bool;
  info_symbol : F -> bool;
  info_crational_polynomial : F -> bool;
  info_rational_function : F -> bool;
  (** [ex::compare], the canonical ordering of expressions: negative, zero
      or positive *)
  ex_compare : F -> F -> int;
  (** [numer], [denom] and [divide] of [normal.h]; [divide a b q] stores the
      quotient in [q] and returns whether the division was exact *)
  numer : F -> F;
  denom : F -> F;
  divide : F -> F -> bool * F;
  (** [abs] and [operator>] of [numeric], meaningful on plain numbers *)
  numeric_abs : F -> F;
  numeric_gt : F -> F -> bool;
  (** [symbol()] constructs a symbol never seen before; the serial number
      of the symbol is made explicit *)
  symbol : nat -> F
}.

Section Matrix.

Context {F : fieldType} {E : ExprOps F}.
Local Notation ex := F.

(** Modelled from the spec: [ex::expand], the polynomial canonical form of
    an expression; the value is the same. *)
Definition expand (x : ex) : ex := x.

(** Modelled from the spec: [ex::normal], the lowest-terms canonical form
    of an expression; the value is the same. *)
Definition normal (x : ex) : ex := x.

(** Modelled from the spec: [ex::collect], the expression sorted in powers
    of a symbol; the value is the same. *)
Definition collect (x : ex) (lambda : ex) : ex := x.

(** Modelled from the spec: [ex::to_rational] replaces each non-rational
    sub-expression by a symbol recorded in the replacement list and
    [ex::subs] with that list puts them back.  Values are taken in the field
    generated by the atoms, where both are the identity. *)
Definition to_rational (x : ex) : ex := x.
Definition subs_srl (x : ex) : ex := x.

(** Modelled from the spec: [ex::is_zero], the exact zero test. *)
Definition is_zero (x : ex) : bool := x == 0.

(** ** The matrix store *)

Record matrix := Matrix {
  row : nat;
  col : nat;
  m : seq ex
}.

(** [matrix::matrix(unsigned r, unsigned c)]: the zero matrix. *)
Definition matrix_zero (r c : nat) : matrix := Matrix r c (nseq (r * c) 0).

Definition rows (M : matrix) : nat := row M.
Definition cols (M : matrix) : nat := col M.

(** [m[i]] for reading and [m[i] = v].  In the source an index past the end
    of the vector is an access out of bounds, with no defined result: the
    model is meant for the indices below the length, which are all the
    indices reached on a well-formed matrix. *)
Definition at_ (s : seq ex) (i : nat) : ex := nth 0 s i.
Definition put (s : seq ex) (i : nat) (v : ex) : seq ex := set_nth 0 s i v.

(** [matrix::operator()(ro, co) const]: the checked read. *)
Definition get (M : matrix) (ro co : nat) : result ex :=
  if (row M <= ro)%N || (col M <= co)%N then Throw IndexOutOfRange
  else Ok (at_ (m M) (ro * col M + co)).

(** [matrix::operator()(ro, co)] used as an lvalue: the checked write. *)
Definition set (M : matrix) (ro co : nat) (v : ex) : result matrix :=
  if (row M <= ro)%N || (col M <= co)%N then Throw IndexOutOfRange
  else Ok (Matrix (row M) (col M) (put (m M) (ro * col M + co) v)).

(** The class invariant: the backing vector has [row * col] entries. *)
Definition wf (M : matrix) : bool := size (m M) == (row M * col M)%N.

(** ** [matrix::compare_same_type] *)

(** The two nested loops with their early [return cmpval]: [None] means
    that the loops ran to their end. *)
Fixpoint compare_cols (M o : matrix) (r : nat) (cs : seq nat) : result (option int) :=
  match cs with
  | [::] => Ok None
  | c :: cs' =>
      x <- get M r c ;;
      y <- get o r c ;;
      let cmpval := ex_compare x y in
      if cmpval != 0 then Ok (Some cmpval) else compare_cols M o r cs'
  end.

Fixpoint compare_rows (M o : matrix) (rs : seq nat) : result (option int) :=
  match rs with
  | [::] => Ok None
  | r :: rs' =>
      v <- compare_cols M o r (iota 0 (col M)) ;;
      match v with
      | Some cmpval => Ok (Some cmpval)
      | None => compare_rows M o rs'
      end
  end.

Definition compare_same_type (M o : matrix) : result int :=
  if row M != rows o then Ok (if (row M < rows o)%N then -1 else 1)
  else if col M != cols o then Ok (if (col M < cols o)%N then -1 else 1)
  else
    v <- compare_rows M o (iota 0 (row M)) ;;
    match v with
    | Some cmpval => Ok cmpval
    | None => Ok 0
    end.

(** ** [matrix::trace] *)

Definition trace (M : matrix) : result ex :=
  if row M != col M then Throw (NonSquareMatrix "trace"%string)
  else
    let tr := for_range 0 (col M) (fun r tr => tr + at_ (m M) (r * col M + r)) 0 in
    if info_rational_function tr && ~~ info_crational_polynomial tr
    then Ok (normal tr)
    else Ok (expand tr).

(** ** [matrix::pivot] *)

(** [while ((k<row) && (this->m[k*col+co].expand().is_zero())) ++k;]
    The loop runs at most [row - ro] times. *)
Fixpoint pivot_first_nonzero (M : matrix) (co : nat) (fuel k : nat) : nat :=
  match fuel with
  | 0 => k
  | fuel'.+1 =>
      if (k < row M)%N && is_zero (expand (at_ (m M) (k * col M + co)))
      then pivot_first_nonzero M co fuel' k.+1
      else k
  end.

(** [while (kmax<row) { ... ++kmax; }] of the numeric branch, on the state
    [(kmax, mmax, k)].  The loop runs at most [row - (ro+1)] times. *)
Fixpoint pivot_largest (M : matrix) (co : nat) (fuel kmax : nat) (mmax : ex)
    (k : nat) : nat * ex * nat :=
  match fuel with
  | 0 => (kmax, mmax, k)
  | fuel'.+1 =>
      if (kmax < row M)%N then
        let tmp := at_ (m M) (kmax * col M + co) in
        if numeric_gt (numeric_abs tmp) mmax
        then pivot_largest M co fuel' kmax.+1 tmp kmax
        else pivot_largest M co fuel' kmax.+1 mmax k
      else (kmax, mmax, k)
  end.

(** [this->m[k*col+c].swap(this->m[ro*col+c])] for every column [c]. *)
Definition swap_rows (M : matrix) (k ro : nat) : matrix :=
  Matrix (row M) (col M)
    (for_range 0 (col M)
       (fun c s =>
          let a := at_ s (k * col M + c) in
          let b := at_ s (ro * col M + c) in
          put (put s (k * col M + c) b) (ro * col M + c) a)
       (m M)).

(** [int matrix::pivot(unsigned ro, unsigned co, bool symbolic)]: the value
    returned and the receiver after the call.  In the numeric branch
    [m[kmax*col+co]] is read before [kmax<row] is tested; past the end of
    the vector the read yields the default of [at_]. *)
Definition pivot (M : matrix) (ro co : nat) (symbolic : bool) : int * matrix :=
  let k := ro in
  let k :=
    if symbolic then pivot_first_nonzero M co (row M - ro) k
    else
      let kmax := k + 1 in
      let mmax := numeric_abs (at_ (m M) (kmax * col M + co)) in
      let: (kmax, mmax, k) := pivot_largest M co (row M - kmax) kmax mmax k in
      if ~~ is_zero mmax then kmax else k in
  if k == row M then (-1, M)
  else if k == ro then (0, M)
  else (Posz k, swap_rows M k ro).

(** ** The elimination family *)

(** [for (unsigned c=0; c<=r1; ++c) this->m[r2*n+c] = _ex0();] *)
Definition zero_left (n r1 r2 : nat) (s : seq ex) : seq ex :=
  for_range 0 (r1 + 1) (fun c s => put s (r2 * n + c) 0) s.

(** [for (unsigned c=r0+1; c<n; ++c) this->m[r0*n+c] = _ex0();] *)
Definition zero_right (n r0 : nat) (s : seq ex) : seq ex :=
  for_range (r0 + 1) n (fun c s => put s (r0 * n + c) 0) s.

(** The body of the [r2] loop of [gauss_elimination]. *)
Definition gauss_row (n r0 r1 r2 : nat) (s : seq ex) : seq ex :=
  let s1 :=
    if ~~ is_zero (at_ s (r2 * n + r1)) then
      let piv := at_ s (r2 * n + r1) / at_ s (r0 * n + r1) in
      for_range (r1 + 1) n
        (fun c s =>
           let s' := put s (r2 * n + c) (at_ s (r2 * n + c) - piv * at_ s (r0 * n + c)) in
           if ~~ info_numeric (at_ s' (r2 * n + c))
           then put s' (r2 * n + c) (normal (at_ s' (r2 * n + c)))
           else s')
        s
    else s in
  zero_left n r1 r2 s1.

(** The loop [for (unsigned r1=0; (r1<n-1)&&(r0<m-1); ++r1)] of
    [gauss_elimination] on the state [(r0, sign, *this)]; [r1] grows by one
    in each round, so that the fuel, [n-1] rounds as the machine computes
    it, is never used up. *)
Fixpoint gauss_loop (det : bool) (nrows n : nat) (fuel r1 r0 : nat) (sign : int)
    (M : matrix) : int * matrix :=
  match fuel with
  | 0 => (sign, M)
  | fuel'.+1 =>
      if (r1 < unsigned_pred n)%N && (r0 < unsigned_pred nrows)%N then
        let: (indx, M1) := pivot M r0 r1 true in
        if (indx == -1) && det then (0, M1)
        else
          let sign1 := if indx == -1 then 0 else sign in
          if 0 <= indx then
            let sign2 := if 0 < indx then - sign1 else sign1 in
            let s2 := for_range (r0 + 1) nrows (gauss_row n r0 r1) (m M1) in
            let s3 := if det then zero_right n r0 s2 else s2 in
            gauss_loop det nrows n fuel' r1.+1 r0.+1 sign2
              (Matrix (row M1) (col M1) s3)
          else gauss_loop det nrows n fuel' r1.+1 r0 sign1 M1
      else (sign, M)
  end.

(** [int matrix::gauss_elimination(const bool det)]: the sign returned and
    the receiver after the call. *)
Definition gauss_elimination (det : bool) (M : matrix) : int * matrix :=
  let nrows := rows M in
  let n := cols M in
  gauss_loop det nrows n (unsigned_pred n) 0 0 1 M.

(** The body of the [r2] loop of [division_free_elimination]. *)
Definition division_free_row (n r0 r1 r2 : nat) (s : seq ex) : seq ex :=
  let s1 :=
    for_range (r1 + 1) n
      (fun c s =>
         put s (r2 * n + c)
           (expand (at_ s (r0 * n + r1) * at_ s (r2 * n + c)
                    - at_ s (r2 * n + r1) * at_ s (r0 * n + c))))
      s in
  zero_left n r1 r2 s1.

Fixpoint division_free_loop (det : bool) (nrows n : nat) (fuel r1 r0 : nat)
    (sign : int) (M : matrix) : int * matrix :=
  match fuel with
  | 0 => (sign, M)
  | fuel'.+1 =>
      if (r1 < unsigned_pred n)%N && (r0 < unsigned_pred nrows)%N then
        let: (indx, M1) := pivot M r0 r1 true in
        if (indx == -1) && det then (0, M1)
        else
          let sign1 := if indx == -1 then 0 else sign in
          if 0 <= indx then
            let sign2 := if 0 < indx then - sign1 else sign1 in
            let s2 := for_range (r0 + 1) nrows (division_free_row n r0 r1) (m M1) in
            let s3 := if det then zero_right n r0 s2 else s2 in
            division_free_loop det nrows n fuel' r1.+1 r0.+1 sign2
              (Matrix (row M1) (col M1) s3)
          else division_free_loop det nrows n fuel' r1.+1 r0 sign1 M1
      else (sign, M)
  end.

(** [int matrix::division_free_elimination(const bool det)]. *)
Definition division_free_elimination (det : bool) (M : matrix) : int * matrix :=
  let nrows := rows M in
  let n := cols M in
  division_free_loop det nrows n (unsigned_pred n) 0 0 1 M.

(** The body of the [r2] loop of [fraction_free_elimination], on the vectors
    of the numerators [tn] and of the denominators [td].  The flag returned
    by [divide] only feeds a [GINAC_ASSERT], which compiles to nothing. *)
Definition fraction_free_row (n r0 r1 r2 : nat) (divisor_n divisor_d : ex)
    (st : seq ex * seq ex) : seq ex * seq ex :=
  let st1 :=
    for_range (r1 + 1) n
      (fun c (st : seq ex * seq ex) =>
         let: (tn, td) := st in
         let dividend_n :=
           expand (at_ tn (r0 * n + r1) * at_ tn (r2 * n + c)
                   * at_ td (r2 * n + r1) * at_ td (r0 * n + c)
                   - at_ tn (r2 * n + r1) * at_ tn (r0 * n + c)
                     * at_ td (r0 * n + r1) * at_ td (r2 * n + c)) in
         let dividend_d :=
           expand (at_ td (r2 * n + r1) * at_ td (r0 * n + c)
                   * at_ td (r0 * n + r1) * at_ td (r2 * n + c)) in
         let tn := put tn (r2 * n + c) (divide dividend_n divisor_n).2 in
         let td := put td (r2 * n + c) (divide dividend_d divisor_d).2 in
         (tn, td))
      st in
  let: (tn, td) := st1 in
  (zero_left n r1 r2 tn, td).

(** [tmp_d.m[n*indx+c].swap(tmp_d.m[n*r0+c])] for [c] from [r1]. *)
Definition swap_denominators (n r1 indx r0 : nat) (td : seq ex) : seq ex :=
  for_range r1 n
    (fun c s =>
       let a := at_ s (n * indx + c) in
       let b := at_ s (n * r0 + c) in
       put (put s (n * indx + c) b) (n * r0 + c) a)
    td.

(** The state of the main loop of [fraction_free_elimination]. *)
Record ff_state := FFState {
  ff_r0 : nat;
  ff_sign : int;
  ff_divisor_n : ex;
  ff_divisor_d : ex;
  ff_tmp_n : matrix;
  ff_tmp_d : seq ex
}.

(** The main loop; [None] is the early [return 0] of determinant mode. *)
Fixpoint fraction_free_loop (det : bool) (nrows n : nat) (fuel r1 : nat)
    (st : ff_state) : option ff_state :=
  match fuel with
  | 0 => Some st
  | fuel'.+1 =>
      let r0 := ff_r0 st in
      if (r1 < unsigned_pred n)%N && (r0 < unsigned_pred nrows)%N then
        let: (indx, tmp_n) := pivot (ff_tmp_n st) r0 r1 true in
        if (indx == -1) && det then None
        else
          let sign := if indx == -1 then 0 else ff_sign st in
          if 0 <= indx then
            let sign := if 0 < indx then - sign else sign in
            let td :=
              if 0 < indx then swap_denominators n r1 (absz indx) r0 (ff_tmp_d st)
              else ff_tmp_d st in
            let: (tn, td) :=
              for_range (r0 + 1) nrows
                (fun r2 => fraction_free_row n r0 r1 r2
                             (ff_divisor_n st) (ff_divisor_d st))
                (m tmp_n, td) in
            let next := (r1 < unsigned_pred n)%N && (r0 < unsigned_pred nrows)%N in
            let divisor_n :=
              if next then expand (at_ tn (r0 * n + r1)) else ff_divisor_n st in
            let divisor_d :=
              if next then expand (at_ td (r0 * n + r1)) else ff_divisor_d st in
            let: (tn, td) :=
              if next && det then
                for_range 0 n
                  (fun c (st : seq ex * seq ex) =>
                     (put st.1 (r0 * n + c) 0, put st.2 (r0 * n + c) 1))
                  (tn, td)
              else (tn, td) in
            fraction_free_loop det nrows n fuel' r1.+1
              (FFState r0.+1 sign divisor_n divisor_d
                 (Matrix (row tmp_n) (col tmp_n) tn) td)
          else
            fraction_free_loop det nrows n fuel' r1.+1
              (FFState r0 sign (ff_divisor_n st) (ff_divisor_d st) tmp_n (ff_tmp_d st))
      else Some st
  end.

(** [int matrix::fraction_free_elimination(const bool det)]: the sign
    returned and the receiver after the call. *)
Definition fraction_free_elimination (det : bool) (M : matrix) : int * matrix :=
  let nrows := rows M in
  let n := cols M in
  if nrows == 1%N then (1, M)
  else
    let tmp_n := [seq numer (to_rational (normal x)) | x <- m M] in
    let tmp_d := [seq denom (to_rational (normal x)) | x <- m M] in
    match fraction_free_loop det nrows n (unsigned_pred n) 0
            (FFState 0 1 1 1 (Matrix (row M) (col M) tmp_n) tmp_d) with
    | None => (0, M)
    | Some st =>
        (ff_sign st,
         Matrix (row M) (col M)
           [seq subs_srl (x.1 / x.2) | x <- zip (m (ff_tmp_n st)) (ff_tmp_d st)])
    end.

(** ** [matrix::determinant_minor] *)

(** [std::map<std::vector<unsigned>, ex>], kept as an association list:
    only look-ups by key are made on it. *)
Definition Rmap := seq (seq nat * ex).

Definition Rmap_mem (A : Rmap) (key : seq nat) : bool :=
  has (fun kv => kv.1 == key) A.

(** [A.insert(Rmap_value(key, v))]: an existing key keeps its value. *)
Definition Rmap_insert (A : Rmap) (key : seq nat) (v : ex) : Rmap :=
  if Rmap_mem A key then A else (key, v) :: A.

(** [A[key]]: the value stored, after a default-constructed [ex], which is
    zero, was stored for a key that was absent. *)
Definition Rmap_index (A : Rmap) (key : seq nat) : ex * Rmap :=
  let A' := Rmap_insert A key 0 in
  ((nth (key, 0) A' (find (fun kv => kv.1 == key) A')).2, A').

(** The [r] loop inside the [do] body: the alternating sum over the rows of
    [Pkey], on the state [(det, A)]. *)
Definition minor_sum (n c : nat) (s : seq ex) (Pkey : seq nat)
    (st : ex * Rmap) : ex * Rmap :=
  for_range 0 (n - c)
    (fun r (st : ex * Rmap) =>
       let: (det, A) := st in
       if is_zero (at_ s (nth 0%N Pkey r * n + c)) then (det, A)
       else
         let Mkey :=
           for_range 0 (n - c)
             (fun i Mkey => if i != r then rcons Mkey (nth 0%N Pkey i) else Mkey)
             [::] in
         let: (a, A) := Rmap_index A Mkey in
         if odd r then (det - at_ s (nth 0%N Pkey r * n + c) * a, A)
         else (det + at_ s (nth 0%N Pkey r * n + c) * a, A))
    st.

(** [for (fc=n-c; fc>0; --fc) { ++Pkey[fc-1]; if (Pkey[fc-1]<fc+c) break; }] *)
Fixpoint flipper (c fc : nat) (Pkey : seq nat) : nat * seq nat :=
  match fc with
  | 0 => (0%N, Pkey)
  | fc'.+1 =>
      let Pkey := set_nth 0%N Pkey fc' (nth 0%N Pkey fc').+1 in
      if (nth 0%N Pkey fc' < fc'.+1 + c)%N then (fc'.+1, Pkey)
      else flipper c fc' Pkey
  end.

(** The incrementing of the counter at the end of the [do] body. *)
Definition next_Pkey (n c : nat) (Pkey : seq nat) : nat * seq nat :=
  let: (fc, Pkey) := flipper c (n - c) Pkey in
  if (fc < n - c)%N && (0 < fc)%N then
    (fc, for_range fc (n - c)
           (fun j Pkey => set_nth 0%N Pkey j (nth 0%N Pkey (j - 1) + 1)%N) Pkey)
  else (fc, Pkey).

(** The [do { ... } while(fc);] loop for column [c], on the state
    [(Pkey, A, B, det)]; [None] when the fuel does not reach the end. *)
Fixpoint minor_column (n c : nat) (s : seq ex) (fuel : nat) (Pkey : seq nat)
    (A B : Rmap) : option (Rmap * Rmap * ex) :=
  match fuel with
  | 0 => None
  | fuel'.+1 =>
      let det := 0 in
      let: (det, A) := minor_sum n c s Pkey (det, A) in
      let det := expand det in
      let B := if ~~ is_zero det then Rmap_insert B Pkey det else B in
      let: (fc, Pkey) := next_Pkey n c Pkey in
      if fc != 0%N then minor_column n c s fuel' Pkey A B
      else Some (A, B, det)
  end.

(** [ex matrix::determinant_minor(void) const].  The [do] loop of column
    [c] has one round for each of the ['C(n, n-c)] keys; the model gives it
    that much fuel. *)
Definition determinant_minor (M : matrix) : option ex :=
  let n := cols M in
  let s := m M in
  if n == 1%N then Some (expand (at_ s 0))
  else if n == 2 then Some (expand (at_ s 0 * at_ s 3 - at_ s 2 * at_ s 1))
  else if n == 3 then
    Some (expand (at_ s 0 * at_ s 4 * at_ s 8 - at_ s 0 * at_ s 5 * at_ s 7
                  - at_ s 1 * at_ s 3 * at_ s 8 + at_ s 2 * at_ s 3 * at_ s 7
                  + at_ s 1 * at_ s 5 * at_ s 6 - at_ s 2 * at_ s 4 * at_ s 6))
  else
    let A :=
      for_range 0 n
        (fun r A => Rmap_insert A [:: r] (at_ s (n * (r + 1) - 1))) [::] in
    let B : Rmap := [::] in
    let det : ex := 0 in
    omap (fun st : Rmap * Rmap * ex => st.2)
      (foldl
         (fun (st : option (Rmap * Rmap * ex)) c =>
            if st is Some (A, B, det) then
              let Pkey := for_range 0 (n - c) (fun i Pkey => rcons Pkey i) [::] in
              if minor_column n c s 'C(n, n - c) Pkey A B is Some (A, B, det) then
                Some (B, [::], det)
              else None
            else None)
         (Some (A, B, det))
         (rev (iota 0 (n - 1)))).

(** ** Objects *)

(** The matrices alive during a call, by address.  A member function that
    modifies its receiver is a function from the receiver before the call to
    the value returned and the receiver after it; [invoke] applies it to
    the object at an address. *)
Definition heap := seq matrix.

(** [matrix::matrix()]: the 1 x 1 zero matrix. *)
Definition matrix_default : matrix := Matrix 1 1 [:: 0].

Definition load (h : heap) (a : nat) : matrix := nth matrix_default h a.
Definition store (h : heap) (a : nat) (M : matrix) : heap := set_nth matrix_default h a M.

(** A local object such as [matrix tmp], constructed from the receiver: a new
    address holding a copy
    ([matrix::copy] copies [row], [col] and the vector [m]). *)
Definition alloc (h : heap) (M : matrix) : nat * heap := (size h, rcons h M).

(** The local object goes away at the end of its scope. *)
Definition release (h : heap) : heap := take (size h).-1 h.

Definition invoke {A : Type} (f : matrix -> A * matrix) (a : nat) (h : heap) : A * heap :=
  let: (x, M') := f (load h a) in (x, store h a M').

(** ** [matrix::determinant] *)

(** Modelled from the spec: [permutation_sign] of [utils.h], the sign of a
    permutation by its inversion count. *)
Fixpoint inversions (s : seq nat) : nat :=
  match s with
  | [::] => 0%N
  | x :: s' => (count (fun y => (y < x)%N) s' + inversions s')%N
  end.

Definition permutation_sign (s : seq nat) : int :=
  if odd (inversions s) then -1 else 1.

(** [operator<] of [std::pair<unsigned,unsigned>], as used by [std::sort]. *)
Definition uintpair_le (p q : nat * nat) : bool :=
  (p.1 < q.1)%N || ((p.1 == q.1) && (p.2 <= q.2)%N).

(** The statistics gathered by the first loop of [determinant]:
    [(numeric_flag, normal_flag, sparse_count)]. *)
Definition determinant_stats (M : matrix) : bool * bool * nat :=
  foldl
    (fun (st : bool * bool * nat) r =>
       let: (numeric_flag, normal_flag, sparse_count) := st in
       let rtest := to_rational r in
       let sparse_count := if ~~ is_zero rtest then sparse_count.+1 else sparse_count in
       let numeric_flag := if ~~ info_numeric rtest then false else numeric_flag in
       let normal_flag :=
         if ~~ info_crational_polynomial rtest && info_rational_function rtest
         then true else normal_flag in
       (numeric_flag, normal_flag, sparse_count))
    (true, false, 0%N) (m M).

(** The heuristics [if (algo == determinant_algo::automatic) { ... }]. *)
Definition determinant_choice (M : matrix) (algo : determinant_algo.t) : determinant_algo.t :=
  let: (numeric_flag, _, sparse_count) := determinant_stats M in
  match algo with
  | determinant_algo.automatic =>
      let algo := determinant_algo.laplace in
      let algo :=
        if (3 < row M)%N
           && (unsigned_mul 5 sparse_count <= unsigned_mul (row M) (col M))%N
        then determinant_algo.bareiss else algo in
      let algo := if numeric_flag then determinant_algo.gauss else algo in
      algo
  | _ => algo
  end.

(** The column presorting of the Laplace branch: the matrix whose column
    [c] is column [pre_sort[c]] of the receiver, and the sign of [pre_sort]. *)
Definition laplace_presort (M : matrix) : int * matrix :=
  let c_zeros :=
    for_range 0 (col M)
      (fun c c_zeros =>
         let acc :=
           for_range 0 (row M)
             (fun r acc => if is_zero (at_ (m M) (r * col M + c)) then acc.+1 else acc)
             0%N in
         rcons c_zeros (acc, c))
      [::] in
  let c_zeros := sort uintpair_le c_zeros in
  let pre_sort := [seq i.2 | i <- c_zeros] in
  let sign := permutation_sign pre_sort in
  let result :=
    foldl
      (fun (st : nat * seq ex) i =>
         let: (c, result) := st in
         (c.+1,
          for_range 0 (row M)
            (fun r result => put result (r * col M + c) (at_ (m M) (r * col M + i)))
            result))
      (0%N, nseq (row M * col M) 0) pre_sort in
  (sign, Matrix (row M) (col M) result.2).

(** [ex matrix::determinant(unsigned algo) const], called on the object at
    address [this]: the outcome and the heap after the call. *)
Definition determinant (h : heap) (this : nat) (algo : determinant_algo.t)
    : result ex * heap :=
  let M := load h this in
  if row M != col M then (Throw (NonSquareMatrix "determinant"%string), h)
  else
    let: (numeric_flag, normal_flag, sparse_count) := determinant_stats M in
    let algo := determinant_choice M algo in
    if row M == 1%N then
      (Ok (if normal_flag then normal (at_ (m M) 0) else expand (at_ (m M) 0)), h)
    else
      match algo with
      | determinant_algo.gauss =>
          let det : ex := 1 in
          let: (tmp, h) := alloc h M in
          let: (sign, h) := invoke (gauss_elimination true) tmp h in
          let det :=
            for_range 0 (row M)
              (fun d det => det * at_ (m (load h tmp)) (d * col M + d)) det in
          (Ok (if normal_flag then normal (sign%:~R * det)
               else expand (normal (sign%:~R * det))),
           release h)
      | determinant_algo.bareiss =>
          let: (tmp, h) := alloc h M in
          let: (sign, h) := invoke (fraction_free_elimination true) tmp h in
          let last := at_ (m (load h tmp)) (row M * col M - 1) in
          (Ok (if normal_flag then normal (sign%:~R * last)
               else expand (sign%:~R * last)),
           release h)
      | determinant_algo.divfree =>
          let: (tmp, h) := alloc h M in
          let: (sign, h) := invoke (division_free_elimination true) tmp h in
          if sign == 0 then (Ok 0, release h)
          else
            let det := at_ (m (load h tmp)) (row M * col M - 1) in
            let det :=
              for_range 0 (row M - 2)
                (fun d det =>
                   for_range 0 (row M - d - 2)
                     (fun j det => normal (det / at_ (m (load h tmp)) (d * col M + d)))
                     det)
                det in
            (Ok (sign%:~R * det), release h)
      | _ =>
          let: (sign, sorted) := laplace_presort M in
          match determinant_minor sorted with
          | Some d =>
              (Ok (if normal_flag then normal (sign%:~R * d) else sign%:~R * d), h)
          | None => (OutOfFuel, h)
          end
      end.

(** ** [matrix::mul], [matrix::pow] *)

(** [matrix matrix::mul(const matrix & other) const]. *)
Definition mul (M other : matrix) : result matrix :=
  if cols M != rows other then Throw (DimensionMismatch "mul"%string)
  else
    let prod := nseq (rows M * cols other) 0 in
    let prod :=
      for_range 0 (rows M)
        (fun r1 prod =>
           for_range 0 (cols M)
             (fun c prod =>
                if is_zero (at_ (m M) (r1 * col M + c)) then prod
                else
                  for_range 0 (cols other)
                    (fun r2 prod =>
                       put prod (r1 * col other + r2)
                         (at_ prod (r1 * col other + r2)
                          + expand (at_ (m M) (r1 * col M + c)
                                    * at_ (m other) (c * col other + r2))))
                    prod)
             prod)
        prod in
    Ok (Matrix (row M) (col other) prod).

(** The identity matrix as [pow] and [inverse] build it: a zero matrix whose
    diagonal is set through the checked [operator()]. *)
Definition identity_matrix (r c : nat) : result matrix :=
  for_each (fun i M => set M i i 1) (iota 0 r) (matrix_zero r c).

(** The exponent of [pow] as its tests see it: a [numeric] that is an
    integer, with its value, or anything else. *)
Inductive exponent :=
  | integer_exponent (k : int)
  | other_exponent.

(** [while (b.compare(k)<=0) { ... }] of [pow], on the state
    [(b, k, result, prod)]. *)
Fixpoint pow_loop (fuel : nat) (b k : nat) (res prod : matrix) : result matrix :=
  match fuel with
  | 0 => if (b <= k)%N then OutOfFuel else Ok res
  | fuel'.+1 =>
      if (b <= k)%N then
        let b := (b * 2)%N in
        let r := (k %% b)%N in
        st <- (if r != 0%N then
                 res' <- mul res prod ;; Ok ((k - r)%N, res')
               else Ok (k, res)) ;;
        let: (k, res) := st in
        prod <- (if (b <= k)%N then mul prod prod else Ok prod) ;;
        pow_loop fuel' b k res prod
      else Ok res
  end.

(** ** [matrix::solve] *)

(** The syntax check on [vars]: every entry must be a symbol. *)
Definition check_symbols (vars : matrix) (n p : nat) : result unit :=
  for_each
    (fun ro _ =>
       for_each
         (fun co _ =>
            v <- get vars ro co ;;
            if ~~ info_symbol v then Throw InvalidArgument else Ok tt)
         (iota 0 p) tt)
    (iota 0 n) tt.

(** The augmented matrix of the receiver with [rhs] attached to the right. *)
Definition augment (M rhs : matrix) (nrows n p : nat) : matrix :=
  Matrix nrows (n + p)
    (for_range 0 nrows
       (fun r aug =>
          let aug :=
            for_range 0 n
              (fun c aug => put aug (r * (n + p) + c) (at_ (m M) (r * n + c))) aug in
          for_range 0 p
            (fun c aug => put aug (r * (n + p) + c + n) (at_ (m rhs) (r * p + c))) aug)
       (m (matrix_zero nrows (n + p)))).

(** [while ((fnz<=n) && (aug.m[r*(n+p)+(fnz-1)].is_zero())) ++fnz;]
    The loop runs at most [n] times. *)
Fixpoint first_nonzero (aug : matrix) (n p r : nat) (fuel fnz : nat) : nat :=
  match fuel with
  | 0 => fnz
  | fuel'.+1 =>
      if (fnz <= n)%N && is_zero (at_ (m aug) (r * (n + p) + (fnz - 1)))
      then first_nonzero aug n p r fuel' fnz.+1
      else fnz
  end.

(** The body of the loop over the rows [r] in the assembly of the solution,
    on the state [(last_assigned_sol, sol)]. *)
Definition solve_row (aug vars : matrix) (n p co r : nat) (st : nat * matrix)
    : result (nat * matrix) :=
  let: (last_assigned_sol, sol) := st in
  let fnz := first_nonzero aug n p r n 1 in
  if (n < fnz)%N then
    if ~~ is_zero (at_ (m aug) (r * (n + p) + n + co)) then Throw InconsistentSystem
    else Ok (last_assigned_sol, sol)
  else
    sol <- for_each (fun c sol => set sol c co (at_ (m vars) (c * p + co)))
             (iota fnz (last_assigned_sol - 1 - fnz)) sol ;;
    let e := at_ (m aug) (r * (n + p) + n + co) in
    let e :=
      for_range fnz n
        (fun c e => e - at_ (m aug) (r * (n + p) + c) * at_ (m sol) (c * p + co)) e in
    sol <- set sol (fnz - 1) co (normal (e / at_ (m aug) (r * (n + p) + (fnz - 1)))) ;;
    Ok (fnz, sol).

(** The assembly of the solution matrix from the eliminated augmented
    matrix: the loop over the right-hand sides [co]. *)
Definition assemble_solution (aug vars : matrix) (nrows n p : nat) : result matrix :=
  for_each
    (fun co sol =>
       let last_assigned_sol := (n + 1)%N in
       st <- for_each (solve_row aug vars n p co) (rev (iota 0 nrows))
               (last_assigned_sol, sol) ;;
       let: (last_assigned_sol, sol) := st in
       for_each (fun ro sol => v <- get vars ro co ;; set sol ro co v)
         (iota 0 (last_assigned_sol - 1)) sol)
    (iota 0 p) (matrix_zero n p).

(** The augmented matrix after the elimination that [solve] selects. *)
Definition solve_eliminate (aug : matrix) (nrows : nat) (algo : solve_algo.t) : matrix :=
  let numeric_flag :=
    foldl (fun numeric_flag r => if ~~ info_numeric r then false else numeric_flag)
      true (m aug) in
  let algo :=
    match algo with
    | solve_algo.automatic =>
        let algo := solve_algo.bareiss in
        let algo := if (nrows < 3)%N then solve_algo.divfree else algo in
        if numeric_flag then solve_algo.gauss else algo
    | _ => algo
    end in
  match algo with
  | solve_algo.gauss => (gauss_elimination false aug).2
  | solve_algo.divfree => (division_free_elimination false aug).2
  | _ => (fraction_free_elimination false aug).2
  end.

(** [matrix matrix::solve(const matrix & vars, const matrix & rhs,
    unsigned algo) const]. *)
Definition solve (M vars rhs : matrix) (algo : solve_algo.t) : result matrix :=
  let nrows := rows M in
  let n := cols M in
  let p := cols rhs in
  if (rows rhs != nrows) || (rows vars != n) || (col vars != p)
  then Throw (DimensionMismatch "solve"%string)
  else
    _ <- check_symbols vars n p ;;
    let aug := augment M rhs nrows n p in
    let aug := solve_eliminate aug nrows algo in
    assemble_solution aug vars nrows n p.

(** ** [matrix::inverse] *)

(** The dummy matrix of variables that [inverse] hands to [solve]; [serial]
    numbers the first symbol that [symbol()] constructs. *)
Definition fresh_symbols (serial r c : nat) : result matrix :=
  for_each
    (fun ro vars =>
       for_each (fun co vars => set vars ro co (symbol (serial + ro * c + co)))
         (iota 0 c) vars)
    (iota 0 r) (matrix_zero r c).

(** [matrix matrix::inverse(void) const]. *)
Definition inverse (serial : nat) (M : matrix) : result matrix :=
  if row M != col M then Throw (NonSquareMatrix "inverse"%string)
  else
    identity <- identity_matrix (row M) (col M) ;;
    vars <- fresh_symbols serial (row M) (col M) ;;
    match solve M vars identity solve_algo.automatic with
    | Ok sol => Ok sol
    | Throw e =>
        if is_runtime_error (exn_class e) then
          if String.eqb (what e) "matrix::solve(): inconsistent linear system"
          then Throw SingularMatrix
          else Throw e
        else Throw e
    | OutOfFuel => OutOfFuel
    end.

(** [matrix matrix::pow(const ex & expn) const]. *)
Definition pow (serial : nat) (M : matrix) (expn : exponent) : result matrix :=
  if col M != row M then Throw (NonSquareMatrix "pow"%string)
  else
    match expn with
    | integer_exponent z =>
        st <- (if z < 0 then prod <- inverse serial M ;; Ok (absz (- z), prod)
               else Ok (absz z, M)) ;;
        let: (k, prod) := st in
        res <- identity_matrix (row M) (col M) ;;
        pow_loop k.+1 1 k res prod
    | other_exponent => Throw Unsupported
    end.

(** ** [matrix::charpoly] *)

(** The body of Leverrier's loop, on the state [(B, c, poly)]. *)
Definition leverrier_step (M : matrix) (lambda : ex) (i : nat)
    (st : matrix * ex * ex) : result (matrix * ex * ex) :=
  let: (B, c, poly) := st in
  let B :=
    Matrix (row B) (col B)
      (for_range 0 (row M)
         (fun j s => put s (j * col M + j) (at_ s (j * col M + j) - c)) (m B)) in
  B <- mul M B ;;
  t <- trace B ;;
  let c := t / (i + 1)%:R in
  Ok (B, c, poly - c * lambda ^+ (row M - i - 1)).

(** [ex matrix::charpoly(const symbol & lambda) const], called on the object
    at address [this]. *)
Definition charpoly (h : heap) (this : nat) (lambda : ex) : result ex * heap :=
  let M := load h this in
  if row M != col M then (Throw (NonSquareMatrix "charpoly"%string), h)
  else
    let numeric_flag :=
      foldl (fun numeric_flag r => if ~~ info_numeric r then false else numeric_flag)
        true (m M) in
    if numeric_flag then
      (c <- trace M ;;
       let poly := lambda ^+ row M - c * lambda ^+ (row M - 1) in
       st <- for_each (leverrier_step M lambda) (iota 1 (row M - 1)) (M, c, poly) ;;
       let: (_, _, poly) := st in
       if odd (row M) then Ok (- poly) else Ok poly,
       h)
    else
      let: (tmp, h) := alloc h M in
      let M' :=
        Matrix (row M) (col M)
          (for_range 0 (col M)
             (fun r s => put s (r * col M + r) (at_ s (r * col M + r) - lambda)) (m M)) in
      let h := store h tmp M' in
      let: (d, h) := determinant h tmp determinant_algo.automatic in
      (x <- d ;; Ok (collect x lambda), release h).


(** ** Row-major comparison, as the specification words it *)

(** The comparison of two entry sequences element by element: the first
    [ex_compare] that is not zero, when there is one. *)
Fixpoint first_difference (s t : seq ex) : option int :=
  match s, t with
  | x :: s', y :: t' =>
      if ex_compare x y != 0 then Some (ex_compare x y) else first_difference s' t'
  | _, _ => None
  end.

Definition row_major_compare (s t : seq ex) : int :=
  if first_difference s t is Some v then v else 0.

(** ** Predicates on the assembly of a solution *)

(** A row of the eliminated augmented matrix whose coefficient part is zero,
    and such a row with a right-hand side that is not. *)
Definition zero_row (aug : matrix) (n p r : nat) : bool :=
  all (fun c => is_zero (at_ (m aug) (r * (n + p) + c))) (iota 0 n).

Definition inconsistent_row (aug : matrix) (n p co r : nat) : bool :=
  zero_row aug n p r && ~~ is_zero (at_ (m aug) (r * (n + p) + n + co)).

(** The state of the loop over the rows: a solution matrix of the right
    shape and a column mark between 1 and [n + 1]. *)
Definition solve_state (n p : nat) (st : nat * matrix) : Prop :=
  [/\ row st.2 = n, col st.2 = p & (0 < st.1 <= n + 1)%N].

(** A row of [vars] with an entry that is not a symbol. *)
Definition not_symbol_in_row (vars : matrix) (p ro : nat) : bool :=
  has (fun co => ~~ info_symbol (at_ (m vars) (ro * p + co))) (iota 0 p).

(** ** The matrix a backing vector denotes *)

(** The [r] x [c] matrix whose entry [(i, j)] is [s[i*c+j]], in the matrices
    of MathComp; the determinant and the product of the properties below
    are the ones of that library. *)
Definition mx_of (r c : nat) (s : seq ex) : 'M[F]_(r, c) :=
  \matrix_(i < r, j < c) at_ s (i * c + j).

(** ** The elimination step on the matrix a vector denotes *)

(** Rows and columns below [k] are cleared: off the diagonal they are zero. *)
Definition cleared (n k : nat) (A : 'M[F]_n) : Prop :=
  forall i j : 'I_n, (i < k)%N || (j < k)%N -> i != j -> A i j = 0.

(** One step of elimination with pivot [A k k]: row and column [k] keep the
    pivot only, and the rows below lose their multiple of row [k]. *)
Definition eliminated (n : nat) (k : 'I_n) (A : 'M[F]_n) : 'M[F]_n :=
  \matrix_(i, j)
    if (i == k) || (j == k) then (if i == j then A k k else 0)
    else if (k < i)%N then A i j - A i k * A k j / A k k
    else A i j.

(** ** [matrix::add], [matrix::sub], the scalar products, [matrix::transpose] *)

(** [matrix matrix::add(const matrix & other) const]: the iterator walks the
    copy [sum] of the receiver's vector, adding the entry of [other] at the
    same position. *)
Definition add (M other : matrix) : result matrix :=
  if (col M != col other) || (row M != row other)
  then Throw (DimensionMismatch "add"%string)
  else
    let sum :=
      for_range 0 (size (m M))
        (fun i sum => put sum i (at_ sum i + at_ (m other) i)) (m M) in
    Ok (Matrix (row M) (col M) sum).

(** [matrix matrix::sub(const matrix & other) const]. *)
Definition sub (M other : matrix) : result matrix :=
  if (col M != col other) || (row M != row other)
  then Throw (DimensionMismatch "sub"%string)
  else
    let dif :=
      for_range 0 (size (m M))
        (fun i dif => put dif i (at_ dif i - at_ (m other) i)) (m M) in
    Ok (Matrix (row M) (col M) dif).

(** [matrix matrix::mul(const numeric & other) const]. *)
Definition mul_numeric (M : matrix) (other : ex) : matrix :=
  let prod := nseq (row M * col M) 0 in
  let prod :=
    for_range 0 (row M)
      (fun r prod =>
         for_range 0 (col M)
           (fun c prod => put prod (r * col M + c) (at_ (m M) (r * col M + c) * other))
           prod)
      prod in
  Matrix (row M) (col M) prod.

Definition NonCommutativeScalar : exception :=
  Exception runtime_error "matrix::mul_scalar(): non-commutative scalar"%string.

(** [matrix matrix::mul_scalar(const ex & other) const]; [commutative] is
    the answer of [other.return_type() == return_types::commutative]. *)
Definition mul_scalar (M : matrix) (other : ex) (commutative : bool) : result matrix :=
  if ~~ commutative then Throw NonCommutativeScalar
  else
    let prod := nseq (row M * col M) 0 in
    let prod :=
      for_range 0 (row M)
        (fun r prod =>
           for_range 0 (col M)
             (fun c prod => put prod (r * col M + c) (at_ (m M) (r * col M + c) * other))
             prod)
        prod in
    Ok (Matrix (row M) (col M) prod).

(** [matrix matrix::transpose(void) const]. *)
Definition transpose (M : matrix) : matrix :=
  let trans := nseq (cols M * rows M) 0 in
  let trans :=
    for_range 0 (cols M)
      (fun r trans =>
         for_range 0 (rows M)
           (fun c trans => put trans (r * rows M + c) (at_ (m M) (c * cols M + r)))
           trans)
      trans in
  Matrix (cols M) (rows M) trans.

(** ** Construction from lists *)

(** [matrix::matrix(unsigned r, unsigned c, const lst & l)]: the state of the
    loop is the flag set by [break] and the vector.  For [c = 0] the source
    computes [i % 0]; the model is meant for [0 < c]. *)
Definition matrix_from_lst (r c : nat) (l : seq ex) : matrix :=
  let m0 := nseq (r * c) 0 in
  let st :=
    for_range 0 (size l)
      (fun i (st : bool * seq ex) =>
         let: (stop, s) := st in
         if stop then st
         else
           let x := (i %% c)%N in
           let y := (i %/ c)%N in
           if (r <= y)%N then (true, s)
           else (false, put s (y * c + x) (nth 0 l i)))
      (false, m0) in
  Matrix r c st.2.

(** [ex lst_to_matrix(const lst & l)]: the rows of [l] may differ in length;
    the entries are written through the checked [operator()]. *)
Definition lst_to_matrix (l : seq (seq ex)) : result matrix :=
  let nrows := size l in
  let ncols :=
    for_range 0 nrows
      (fun i ncols => if (ncols < size (nth [::] l i))%N then size (nth [::] l i) else ncols)
      0%N in
  for_each
    (fun i M =>
       for_each
         (fun j M =>
            if (j < size (nth [::] l i))%N then set M i j (nth 0 (nth [::] l i) j)
            else set M i j 0)
         (iota 0 ncols) M)
    (iota 0 nrows) (matrix_zero nrows ncols).

(** [ex diag_matrix(const lst & l)]. *)
Definition diag_matrix (l : seq ex) : result matrix :=
  let dim := size l in
  for_each (fun i M => set M i i (nth 0 l i)) (iota 0 dim) (matrix_zero dim dim).

(** ** The fraction-free rounds on the matrix the two vectors denote *)



(** ** The minor expansion on the matrix the vector denotes *)

(** The square matrix whose column [j] is column [p[j]] of the vector [s]. *)
Definition select_cols (n : nat) (s : seq ex) (p : seq nat) : 'M[F]_n :=
  \matrix_(i < n, j < n) at_ s (i * n + nth 0%N p j).

(** The minor of the rows [P] over the columns from [c] on: the determinant of
    the [k] x [k] matrix of the entries [(P[i], c + j)]. *)
Definition minor (n k : nat) (s : seq ex) (P : seq nat) (c : nat) : ex :=
  \det (\matrix_(i < k, j < k) at_ s (nth 0%N P i * n + (c + j))).

(** The keys of the minors: strictly increasing row numbers, from [lo] on
    and below [n]. *)
Fixpoint key_ok (lo n : nat) (K : seq nat) : bool :=
  if K is x :: t then [&& (lo <= x)%N, (x < n)%N & key_ok x.+1 n t] else true.

(** The key that follows [K] among the keys below [n] of its length, in
    lexicographic order. *)
Fixpoint next_key (n : nat) (K : seq nat) : option (seq nat) :=
  if K is x :: t then
    if next_key n t is Some t' then Some (x :: t')
    else if (x.+1 + size t < n)%N then Some (iota x.+1 (size t).+1) else None
  else None.

(** One step of the enumeration of the keys. *)
Definition key_step (n : nat) : rel (seq nat) :=
  fun a b => next_key n a == Some b.

(** The value [A[key]] reads. *)
Definition Rmap_get (A : Rmap) (key : seq nat) : ex := (Rmap_index A key).1.

(** The store [A] answers every key of the rows with the minor of the
    columns from [c] on; the store [B] holds nothing but such minors. *)
Definition minors_ok (n c : nat) (s : seq ex) (A : Rmap) : Prop :=
  forall K, key_ok 0 n K -> size K = (n - c)%N ->
    Rmap_get A K = minor n (n - c) s K c.

Definition stored_ok (n c : nat) (s : seq ex) (B : Rmap) : Prop :=
  forall K, Rmap_mem B K -> Rmap_get B K = minor n (n - c) s K c.

End Matrix.

Arguments matrix F : clear implicits.
Arguments heap F : clear implicits.
Arguments Rmap F : clear implicits.

(** ** Decidable equality of outcomes *)

(** Outcomes of calls on matrices of numbers are compared by computation:
    exceptions, results and matrices carry the boolean equality of their
    components. *)
Lemma string_eqP : Equality.axiom String.eqb.
Proof. by move=> x y; apply: (iffP idP) => /String.eqb_eq. Qed.

HB.instance Definition _ := hasDecEq.Build String.string string_eqP.

Definition exception_class_code (c : exception_class) : nat :=
  match c with
  | logic_error => 0
  | invalid_argument => 1
  | runtime_error => 2
  | range_error => 3
  end.

Definition exception_class_decode (n : nat) : exception_class :=
  match n with
  | 0 => logic_error
  | 1 => invalid_argument
  | 2 => runtime_error
  | _ => range_error
  end.

Lemma exception_class_codeK : cancel exception_class_code exception_class_decode.
Proof. by case. Qed.

HB.instance Definition _ :=
  Equality.copy exception_class (can_type exception_class_codeK).

Definition exception_pair (e : exception) := (exn_class e, what e).

Lemma exception_pairK : cancel exception_pair (fun p => Exception p.1 p.2).
Proof. by case. Qed.

HB.instance Definition _ := Equality.copy exception (can_type exception_pairK).

Definition result_sum (T : Type) (r : result T) : T + exception + unit :=
  match r with
  | Ok x => inl (inl x)
  | Throw e => inl (inr e)
  | OutOfFuel => inr tt
  end.

Definition sum_result (T : Type) (s : T + exception + unit) : result T :=
  match s with
  | inl (inl x) => Ok x
  | inl (inr e) => Throw e
  | inr _ => OutOfFuel
  end.

Lemma result_sumK (T : Type) : cancel (@result_sum T) (@sum_result T).
Proof. by case. Qed.

HB.instance Definition _ (T : eqType) :=
  Equality.copy (result T) (can_type (@result_sumK T)).

Definition matrix_triple (F : fieldType) (M : matrix F) := (row M, col M, m M).

Lemma matrix_tripleK (F : fieldType) :
  cancel (@matrix_triple F) (fun t => Matrix t.1.1 t.1.2 t.2).
Proof. by case. Qed.

HB.instance Definition _ (F : fieldType) :=
  Equality.copy (matrix F) (can_type (@matrix_tripleK F)).

(** ** Plain numbers *)

(** The expressions that are rational numbers form an instance: every query
    has its meaning on numbers, a number is its own numerator over its own
    denominator, and division of numbers is exact. *)
Definition rat_compare (x y : rat) : int :=
  if x < y then -1 else if x == y then 0 else 1.

#[export] Instance rat_ops : ExprOps rat := {|
  info_numeric := fun _ => true;
  info_symbol := fun _ => true;
  info_crational_polynomial := fun _ => true;
  info_rational_function := fun _ => true;
  ex_compare := rat_compare;
  numer := fun x => (numq x)%:~R;
  denom := fun x => (denq x)%:~R;
  divide := fun a b => (true, a / b);
  numeric_abs := fun x => `|x|;
  numeric_gt := fun x y => y < x;
  symbol := fun k => k%:R
|}.

(** * Properties *)

(** Arithmetic on [nat] stated with the boolean order of ssrnat, handed to
    [lia] after translation to the order of the standard library. *)
Ltac ssr_lia :=
  match goal with
  | |- is_true (leq _ _) => apply/ssrnat.leP
  | |- leq _ _ = true => apply/ssrnat.leP
  | |- leq _ _ = false => apply/negbTE; rewrite -ltnNge; apply/ssrnat.leP
  | |- is_true (@eq_op _ _ _) => apply/eqP
  | |- is_true (negb (@eq_op _ _ _)) => apply/eqP
  | |- _ => idtac
  end;
  repeat match goal with
         | H : is_true (leq _ _) |- _ => move/ssrnat.leP: H
         | H : is_true (@eq_op _ _ _) |- _ => move/eqP: H
         | H : is_true (negb (@eq_op _ _ _)) |- _ => move/eqP: H
         | H : leq _ _ = false |- _ => move/ssrnat.leP: H
         | H : @eq_op _ _ _ = false |- _ => move/eqP: H
         | H : @eq nat _ _ |- _ => move: H
         end;
  rewrite -?plusE -?minusE -?multE /=; intros; lia.

Section Theory.

Context {F : fieldType} {E : ExprOps F}.
Local Notation ex := F.
Local Notation matrix := (matrix F).
Local Notation heap := (heap F).

(** ** The heap discipline *)

Lemma set_nth_rcons_last (T : Type) (d : T) (s : seq T) (x y : T) :
  set_nth d (rcons s x) (size s) y = rcons s y.
Proof.
rewrite set_nthE size_rcons ltnSn -cats1 take_size_cat //.
by rewrite drop_oversize ?cats1 // ?size_cat /= ?addn1 ?size_rcons.
Qed.

Lemma release_store_alloc (h : heap) (M T : matrix) :
  release (store (alloc h M).2 (alloc h M).1 T) = h.
Proof.
rewrite /release /store /alloc /= set_nth_rcons_last size_rcons /=.
by rewrite -cats1 take_size_cat.
Qed.

Lemma load_store_alloc (h : heap) (M T : matrix) :
  load (store (alloc h M).2 (alloc h M).1 T) (alloc h M).1 = T.
Proof. by rewrite /load /store /alloc /= nth_set_nth /= eqxx. Qed.

Lemma load_alloc (h : heap) (M : matrix) : load (alloc h M).2 (alloc h M).1 = M.
Proof. by rewrite /load /alloc /= nth_rcons ltnn eqxx. Qed.

Lemma invoke_alloc (A : Type) (f : matrix -> A * matrix) (h : heap) (M : matrix) :
  invoke f (alloc h M).1 (alloc h M).2
  = ((f M).1, store (alloc h M).2 (alloc h M).1 (f M).2).
Proof. by rewrite /invoke load_alloc; case: (f M). Qed.

(** C8: [determinant], in each of its branches, gives back the heap it was
    called on: the eliminations run on the local copy [tmp], which is gone
    when the call returns, so that the receiver has the dimensions and the
    entries it had before. *)
Theorem determinant_leaves_receiver (h : heap) (this : nat) (algo : determinant_algo.t) :
  (determinant h this algo).2 = h
  /\ row (load (determinant h this algo).2 this) = row (load h this)
  /\ col (load (determinant h this algo).2 this) = col (load h this)
  /\ m (load (determinant h this algo).2 this) = m (load h this).
Proof.
have H : (determinant h this algo).2 = h; last by rewrite H.
rewrite /determinant.
case: (row (load h this) != col (load h this)) => //.
case: (determinant_stats (load h this)) => [[numeric_flag normal_flag] sparse_count].
case: (row (load h this) == 1%N) => //.
set M := load h this.
case: (determinant_choice M algo).
- by case: (laplace_presort M) => sign sorted; case: (determinant_minor sorted).
- have -> : alloc h M = ((alloc h M).1, (alloc h M).2) by [].
  rewrite invoke_alloc; case: (gauss_elimination true M) => sign T /=.
  exact: release_store_alloc.
- have -> : alloc h M = ((alloc h M).1, (alloc h M).2) by [].
  rewrite invoke_alloc; case: (division_free_elimination true M) => sign T /=.
  by case: (sign == 0); rewrite /= release_store_alloc.
- by case: (laplace_presort M) => sign sorted; case: (determinant_minor sorted).
- have -> : alloc h M = ((alloc h M).1, (alloc h M).2) by [].
  rewrite invoke_alloc; case: (fraction_free_elimination true M) => sign T /=.
  exact: release_store_alloc.
Qed.

(** ** Loops that may throw *)

Lemma for_each_inv (S : Type) (I : S -> Prop) (body : nat -> S -> result S)
    (idx : seq nat) (s : S) :
  I s ->
  (forall i t, i \in idx -> I t -> exists2 t', body i t = Ok t' & I t') ->
  exists2 t, for_each body idx s = Ok t & I t.
Proof.
elim: idx s => [|i idx IH] s Is Hbody /=; first by exists s.
have [t -> It] /= := Hbody i s (mem_head _ _) Is.
by apply: IH => // j u Hj; apply: Hbody; rewrite in_cons Hj orbT.
Qed.

Lemma for_each_throw (S : Type) (body : nat -> S -> result S) (idx : seq nat)
    (s : S) (e : exception) :
  for_each body idx s = Throw e ->
  exists i t, i \in idx /\ body i t = Throw e.
Proof.
elim: idx s => [|i idx IH] s //=.
case Hb: (body i s) => [t|e'|] //=.
- move/IH => [j [u [Hj Hu]]]; exists j, u; split=> //.
  by rewrite in_cons Hj orbT.
- by case=> <-; exists i, s; rewrite mem_head.
Qed.

Lemma for_each_fuel (S : Type) (body : nat -> S -> result S) (idx : seq nat) (s : S) :
  for_each body idx s = OutOfFuel ->
  exists i t, i \in idx /\ body i t = OutOfFuel.
Proof.
elim: idx s => [|i idx IH] s //=.
case Hb: (body i s) => [t|e'|] //=.
- move/IH => [j [u [Hj Hu]]]; exists j, u; split=> //.
  by rewrite in_cons Hj orbT.
- by move=> _; exists i, s; rewrite mem_head.
Qed.

Lemma set_Ok (M : matrix) (ro co : nat) (v : ex) :
  (ro < row M)%N -> (co < col M)%N ->
  set M ro co v = Ok (Matrix (row M) (col M) (put (m M) (ro * col M + co) v)).
Proof. by move=> Hr Hc; rewrite /set leqNgt Hr leqNgt Hc. Qed.

Lemma get_Ok (M : matrix) (ro co : nat) :
  (ro < row M)%N -> (co < col M)%N -> get M ro co = Ok (at_ (m M) (ro * col M + co)).
Proof. by move=> Hr Hc; rewrite /get leqNgt Hr leqNgt Hc. Qed.

Lemma set_throw (M : matrix) (ro co : nat) (v : ex) (e : exception) :
  set M ro co v = Throw e -> e = IndexOutOfRange.
Proof. by rewrite /set; case: ifP => // _ [<-]. Qed.

Lemma get_throw (M : matrix) (ro co : nat) (e : exception) :
  get M ro co = Throw e -> e = IndexOutOfRange.
Proof. by rewrite /get; case: ifP => // _ [<-]. Qed.

Lemma identity_matrix_Ok (n : nat) :
  exists2 I : matrix, identity_matrix n n = Ok I & row I = n /\ col I = n.
Proof.
rewrite /identity_matrix.
apply: (@for_each_inv _ (fun M : matrix => row M = n /\ col M = n)) => //.
move=> i M; rewrite mem_iota add0n /= => Hi [Hr Hc].
by rewrite set_Ok ?Hr ?Hc //; eexists.
Qed.

Lemma fresh_symbols_Ok (serial r c : nat) :
  exists2 V : matrix, fresh_symbols serial r c = Ok V & row V = r /\ col V = c.
Proof.
rewrite /fresh_symbols.
apply: (@for_each_inv _ (fun M : matrix => row M = r /\ col M = c)) => //.
move=> ro M; rewrite mem_iota add0n /= => Hro HM.
apply: for_each_inv => // co M'; rewrite mem_iota add0n /= => Hco [Hr Hc].
by rewrite set_Ok ?Hr ?Hc //; eexists.
Qed.


Lemma check_symbols_throw (vars : matrix) (n p : nat) (e : exception) :
  check_symbols vars n p = Throw e -> e = InvalidArgument \/ e = IndexOutOfRange.
Proof.
rewrite /check_symbols => H.
have [ro [t [_ Hb]]] := for_each_throw H.
have [co [t' [_]]] := for_each_throw Hb.
case Hg: (get vars ro co) => [v|e'|] //=.
- by case: ifP => // _ [<-]; left.
- by case=> <-; right; apply: get_throw Hg.
Qed.

Lemma solve_row_throw (aug vars : matrix) (n p co r : nat) (st : nat * matrix)
    (e : exception) :
  solve_row aug vars n p co r st = Throw e ->
  e = InconsistentSystem \/ e = IndexOutOfRange.
Proof.
case: st => last_assigned_sol sol; rewrite /solve_row.
case: ifP => _; first by case: ifP => // _ [<-]; left.
case Hf: (for_each _ _ _) => [sol1|e'|] //=.
- case Hs: (set _ _ _ _) => [sol2|e''|] //= [<-].
  by right; apply: set_throw Hs.
- case=> <-; right.
  have [c [t [_ Hs]]] := for_each_throw Hf.
  exact: set_throw Hs.
Qed.

Lemma assemble_solution_throw (aug vars : matrix) (nrows n p : nat) (e : exception) :
  assemble_solution aug vars nrows n p = Throw e ->
  e = InconsistentSystem \/ e = IndexOutOfRange.
Proof.
rewrite /assemble_solution => H.
have [co [sol [_]]] := for_each_throw H.
case Hf: (for_each _ _ _) => [[last_assigned_sol sol1]|e'|] //=.
- move=> H2; have [ro [t [_]]] := for_each_throw H2.
  case Hg: (get vars ro co) => [v|e''|] //=.
  + by move/set_throw; right.
  + by case=> <-; right; apply: get_throw Hg.
- case=> <-.
  have [r [t [_ Hs]]] := for_each_throw Hf.
  exact: solve_row_throw Hs.
Qed.

Lemma solve_throw (M vars rhs : matrix) (algo : solve_algo.t) (e : exception) :
  solve M vars rhs algo = Throw e ->
  [\/ e = DimensionMismatch "solve"%string, e = InvalidArgument,
      e = IndexOutOfRange | e = InconsistentSystem].
Proof.
rewrite /solve; case: ifP => _; first by case=> <-; constructor 1.
case Hc: (check_symbols _ _ _) => [u|e'|] //=.
- by move/assemble_solution_throw => [->|->]; [constructor 4 | constructor 3].
- case=> <-.
  by move/check_symbols_throw: Hc => [->|->]; [constructor 2 | constructor 3].
Qed.

(** C4: on a square matrix [inverse] reaches its call of [solve]; when that
    call throws the inconsistent-system exception, [inverse] throws the
    singular-matrix exception in its place; whatever else the call throws,
    and the not-square exception of [inverse] itself, reaches the caller as
    it was thrown; a solution is returned as it is. *)
Theorem inverse_translates_inconsistent (serial : nat) (M : matrix) :
  (row M <> col M -> inverse serial M = Throw (NonSquareMatrix "inverse"%string))
  /\ (row M = col M ->
      exists identity vars,
        [/\ identity_matrix (row M) (col M) = Ok identity,
            fresh_symbols serial (row M) (col M) = Ok vars,
            solve M vars identity solve_algo.automatic = Throw InconsistentSystem ->
              inverse serial M = Throw SingularMatrix,
            forall e, e <> InconsistentSystem ->
              solve M vars identity solve_algo.automatic = Throw e ->
              inverse serial M = Throw e
          & forall sol, solve M vars identity solve_algo.automatic = Ok sol ->
              inverse serial M = Ok sol]).
Proof.
split=> [/eqP Hne | Hsq]; first by rewrite /inverse Hne.
rewrite /inverse -Hsq eqxx /=.
have [identity Hi _] := identity_matrix_Ok (row M).
have [vars Hv _] := fresh_symbols_Ok serial (row M) (row M).
exists identity, vars; rewrite Hi Hv /=; split=> //.
- by move=> ->.
- move=> e Hne He; rewrite He.
  by case/solve_throw: He Hne => -> //.
- by move=> sol ->.
Qed.

(** ** Errors on matrices that are not square *)

(** C9: [trace] on a matrix that is not square throws the matrix-not-square
    exception and so returns no value; the exception is a [std::logic_error],
    as are those that [determinant], [charpoly], [pow] and [inverse] throw
    on the same matrix. *)
Theorem trace_not_square (M : matrix) :
  row M <> col M ->
  [/\ trace M = Throw (NonSquareMatrix "trace"%string),
      forall v, trace M <> Ok v,
      forall (h : heap) (this : nat) algo lambda serial expn,
        load h this = M ->
        [/\ (determinant h this algo).1 = Throw (NonSquareMatrix "determinant"%string),
            (charpoly h this lambda).1 = Throw (NonSquareMatrix "charpoly"%string),
            pow serial M expn = Throw (NonSquareMatrix "pow"%string)
          & inverse serial M = Throw (NonSquareMatrix "inverse"%string)]
    & forall fn, exn_class (NonSquareMatrix fn) = logic_error].
Proof.
move=> /eqP Hne; have Ht : trace M = Throw (NonSquareMatrix "trace"%string).
  by rewrite /trace Hne.
split=> // [v|h this algo lambda serial expn HM]; first by rewrite Ht.
split; rewrite /determinant /charpoly /pow /inverse ?HM ?Hne //.
by rewrite eq_sym Hne.
Qed.

(** ** The choice of the determinant algorithm *)


Lemma unsigned_predE (n : nat) : (0 < n)%N -> unsigned_pred n = (n - 1)%N.
Proof. by case: n => // n _; rewrite subn1. Qed.



(** ** The canonical comparison *)

Lemma first_difference_cat (s1 s2 t1 t2 : seq ex) :
  size s1 = size t1 ->
  first_difference (s1 ++ s2) (t1 ++ t2)
  = if first_difference s1 t1 is Some v then Some v else first_difference s2 t2.
Proof.
elim: s1 t1 => [|x s1 IH] [|y t1] //= [Hs].
by case: ifP => // _; apply: IH.
Qed.

Lemma first_difference_neq0 (s t : seq ex) (v : int) :
  first_difference s t = Some v -> v != 0.
Proof.
elim: s t => [|x s IH] [|y t] //=.
by case: ifP => [H [<-]|_]; [rewrite H | apply: IH].
Qed.

Lemma compare_colsE (M o : matrix) (r c0 k : nat) :
  col o = col M -> (r < row M)%N -> (r < row o)%N -> (c0 + k <= col M)%N ->
  compare_cols M o r (iota c0 k)
  = Ok (first_difference [seq at_ (m M) (r * col M + c) | c <- iota c0 k]
          [seq at_ (m o) (r * col M + c) | c <- iota c0 k]).
Proof.
move=> Hc HrM Hro; elim: k c0 => [|k IH] c0 Hk //=.
have Hc0 : (c0 < col M)%N by ssr_lia.
rewrite !get_Ok ?Hc //=; case: ifP => // _.
by apply: IH; ssr_lia.
Qed.

Lemma iota_rows (r0 k c : nat) :
  iota (r0 * c) (k.+1 * c) = [seq r0 * c + j | j <- iota 0 c] ++ iota (r0.+1 * c) (k * c).
Proof. by rewrite mulSn iotaD -iotaDl addn0 mulSn [(c + _)%N]addnC. Qed.

Lemma compare_rowsE (M o : matrix) (r0 k : nat) :
  col o = col M -> (r0 + k <= row M)%N -> (r0 + k <= row o)%N ->
  compare_rows M o (iota r0 k)
  = Ok (first_difference [seq at_ (m M) i | i <- iota (r0 * col M) (k * col M)]
          [seq at_ (m o) i | i <- iota (r0 * col M) (k * col M)]).
Proof.
move=> Hc; elim: k r0 => [|k IH] r0 HM Ho //=.
rewrite compare_colsE //=; try ssr_lia.
rewrite iota_rows !map_cat first_difference_cat ?size_map // -!map_comp.
case: (first_difference _ _) => //.
by apply: IH; ssr_lia.
Qed.

Lemma wf_entries (M : matrix) :
  wf M -> [seq at_ (m M) i | i <- iota 0 (row M * col M)] = m M.
Proof. by move=> /eqP <-; apply: (@mkseq_nth _ 0). Qed.

(** The function agrees with the row-major comparison on equal shapes. *)
Lemma compare_same_typeE (M o : matrix) :
  wf M -> wf o ->
  compare_same_type M o
  = Ok (if row M != row o then (if (row M < row o)%N then -1 else 1)
        else if col M != col o then (if (col M < col o)%N then -1 else 1)
        else row_major_compare (m M) (m o)).
Proof.
move=> HM Ho; rewrite /compare_same_type /rows /cols.
case: eqP => //= Hr; case: eqP => //= Hc.
rewrite (@compare_rowsE M o 0 (row M)) ?add0n -?Hr //= mul0n.
have := wf_entries Ho; rewrite -Hr -Hc => ->; rewrite wf_entries //.
by rewrite /row_major_compare; case: (first_difference _ _).
Qed.

Section Compare.

Hypothesis ex_compare_eq0 : forall x y : ex, (ex_compare x y == 0) = (x == y).

Lemma first_difference_None (s t : seq ex) :
  size s = size t -> (first_difference s t = None) <-> s = t.
Proof.
elim: s t => [|x s IH] [|y t] //= [Hs].
rewrite ex_compare_eq0; case: eqP => [->|Hne] /=.
- by rewrite IH //; split=> [->|[]].
- by split=> // -[].
Qed.

(** C10: [compare_same_type] returns a value for wellformed matrices of any
    two shapes.  It decides by the row counts when they differ, else by the
    column counts when they differ, else by the first pair of entries, in
    row-major order, that [ex::compare] tells apart.  The value is zero
    exactly when the two matrices have the same dimensions and entries. *)
Theorem compare_same_type_total (M o : matrix) :
  wf M -> wf o ->
  exists v : int,
    [/\ compare_same_type M o = Ok v,
        row M <> row o -> v = if (row M < row o)%N then -1 else 1,
        row M = row o -> col M <> col o -> v = if (col M < col o)%N then -1 else 1,
        row M = row o -> col M = col o -> v = row_major_compare (m M) (m o)
      & v = 0 <-> M = o].
Proof.
move=> HM Ho; rewrite compare_same_typeE //; eexists; split; first by [].
- by move/eqP => ->.
- by move=> -> /eqP ->; rewrite eqxx.
- by move=> -> ->; rewrite !eqxx.
- case: eqP => [Hr|Hr] /=.
    case: eqP => [Hc|Hc] /=.
      have Hs : size (m M) = size (m o) by rewrite (eqP HM) (eqP Ho) Hr Hc.
      rewrite /row_major_compare; case Hf: (first_difference _ _) => [v|].
        split=> [Hv|HMo]; first by move/first_difference_neq0: Hf; rewrite Hv.
        have [_ Hn] := first_difference_None (erefl (size (m o))).
        by move: Hf; rewrite HMo Hn.
      split=> // _; have [Hn _] := first_difference_None Hs.
      by case: M o Hr Hc Hf Hn {HM Ho Hs} => r c s [r' c' s'] /= -> -> Hf /(_ Hf) ->.
    by split=> [|HMo]; [case: ifP | case: Hc; rewrite HMo].
  by split=> [|HMo]; [case: ifP | case: Hr; rewrite HMo].
Qed.

End Compare.

(** ** A system with a free parameter *)

Lemma is_zero1 : is_zero (1 : ex) = false.
Proof. by rewrite /is_zero oner_eq0. Qed.

Lemma for_range_ext (S : Type) (a b : nat) (f g : nat -> S -> S) (s : S) :
  (forall i t, f i t = g i t) -> for_range a b f s = for_range a b g s.
Proof.
rewrite /for_range => Hfg; elim: (iota a (b - a)) s => [|i idx IH] s //=.
by rewrite Hfg IH.
Qed.

(** Normalising an entry in place does not change it. *)
Lemma gauss_rowE (n r0 r1 r2 : nat) (s : seq ex) :
  gauss_row n r0 r1 r2 s
  = zero_left n r1 r2
      (if ~~ is_zero (at_ s (r2 * n + r1)) then
         for_range (r1 + 1) n
           (fun c t =>
              put t (r2 * n + c)
                (at_ t (r2 * n + c)
                 - at_ s (r2 * n + r1) / at_ s (r0 * n + r1) * at_ t (r0 * n + c)))
           s
       else s).
Proof.
rewrite /gauss_row; case: ifP => // _; congr zero_left.
apply: for_range_ext => c t; rewrite /normal /at_ /put nth_set_nth /= eqxx.
by case: ifP => // _; rewrite set_set_nth eqxx.
Qed.

Lemma gauss_example :
  (gauss_elimination false (Matrix 2 3 [:: 1; 1; 2%:R; 1; 1; 2%:R])).2
  = Matrix 2 3 [:: 1; 1; 2%:R; 0; 0; 0 : ex].
Proof.
rewrite /gauss_elimination /= /pivot /= /expand /at_ /= is_zero1 /=.
rewrite /for_range /= gauss_rowE /for_range /zero_left /at_ /put /for_range /= is_zero1 /=.
by rewrite divr1 !mul1r !subrr.
Qed.

Lemma division_free_example :
  (division_free_elimination false (Matrix 2 3 [:: 1; 1; 2%:R; 1; 1; 2%:R])).2
  = Matrix 2 3 [:: 1; 1; 2%:R; 0; 0; 0 : ex].
Proof.
rewrite /division_free_elimination /= /pivot /= /expand /at_ /= is_zero1 /=.
rewrite /for_range /= /division_free_row /for_range /zero_left /at_ /put /for_range /=.
by rewrite /expand !mul1r !subrr.
Qed.

(** C7: the system [x + y = 2], [x + y = 2] in the unknowns [x], [y] is
    solved, whatever elimination the automatic choice selects: the first
    unknown is [2 - y] and the second is the symbol [y] handed in for it. *)
Theorem solve_underdetermined (x y : ex) :
  info_symbol x -> info_symbol y ->
  solve (Matrix 2 2 [:: 1; 1; 1; 1]) (Matrix 2 1 [:: x; y])
    (Matrix 2 1 [:: 2%:R; 2%:R]) solve_algo.automatic
  = Ok (Matrix 2 1 [:: 2%:R - y; y]).
Proof.
move=> Hx Hy; rewrite /solve /= /check_symbols /= /get /= Hx Hy /=.
have -> : augment (Matrix 2 2 [:: 1; 1; 1; 1]) (Matrix 2 1 [:: 2%:R; 2%:R]) 2 2 1
          = Matrix 2 3 [:: 1; 1; 2%:R; 1; 1; 2%:R : ex] by [].
have -> : solve_eliminate (Matrix 2 3 [:: 1; 1; 2%:R; 1; 1; 2%:R]) 2 solve_algo.automatic
          = Matrix 2 3 [:: 1; 1; 2%:R; 0; 0; 0 : ex].
  rewrite /solve_eliminate /=.
  by case: ifP => _; rewrite ?gauss_example ?division_free_example.
rewrite /assemble_solution /= /solve_row /= /at_ /= /is_zero /= !eqxx /= oner_eq0 /=.
rewrite /set /= /for_range /= /at_ /put /= /normal.
by rewrite divr1 mul1r.
Qed.

(** ** Inconsistent systems *)

Lemma for_each_throw_iff (S : Type) (I : S -> Prop) (P : pred nat) (e0 : exception)
    (body : nat -> S -> result S) (idx : seq nat) (s : S) :
  I s ->
  (forall i t, i \in idx -> I t ->
     if P i then body i t = Throw e0 else exists2 t', body i t = Ok t' & I t') ->
  if has P idx then for_each body idx s = Throw e0
  else exists2 t, for_each body idx s = Ok t & I t.
Proof.
elim: idx s => [|i idx IH] s Is Hbody /=; first by exists s.
have := Hbody i s (mem_head _ _) Is; case: (P i) => /= [-> //|[t -> It]] /=.
by apply: IH => // j u Hj; apply: Hbody; rewrite in_cons Hj orbT.
Qed.

Lemma first_nonzero_spec (aug : matrix) (n p r fuel fnz : nat) :
  (0 < fnz)%N -> (fuel + fnz = n + 1)%N ->
  let f := first_nonzero aug n p r fuel fnz in
  [/\ (fnz <= f)%N, (f <= n + 1)%N
    & (n < f)%N = all (fun c => is_zero (at_ (m aug) (r * (n + p) + c)))
                    (iota (fnz - 1) fuel)].
Proof.
elim: fuel fnz => [|fuel IH] fnz Hpos Hf /=.
  by split=> //; ssr_lia.
have -> : (fnz <= n)%N by ssr_lia.
have -> : (fnz - 1).+1 = (fnz.+1 - 1)%N by ssr_lia.
case: (is_zero _) => /=; last first.
  by split=> //; ssr_lia.
have [||H1 H2 H3] := IH fnz.+1; [by []|by ssr_lia|].
by split=> //; ssr_lia.
Qed.

Lemma first_nonzero_zero_row (aug : matrix) (n p r : nat) :
  (n < first_nonzero aug n p r n 1)%N = zero_row aug n p r.
Proof. by have [||_ _ ->] := @first_nonzero_spec aug n p r n 1; rewrite ?addn1. Qed.

Lemma first_nonzero_bounds (aug : matrix) (n p r : nat) :
  (0 < first_nonzero aug n p r n 1 <= n + 1)%N.
Proof. by have [||-> -> _] := @first_nonzero_spec aug n p r n 1; rewrite ?addn1. Qed.

Lemma solve_row_spec (aug vars : matrix) (n p co r : nat) (st : nat * matrix) :
  (co < p)%N -> solve_state n p st ->
  if inconsistent_row aug n p co r
  then solve_row aug vars n p co r st = Throw InconsistentSystem
  else exists2 st', solve_row aug vars n p co r st = Ok st' & solve_state n p st'.
Proof.
case: st => l0 sol Hco [/= Hr Hc /andP [Hl1 Hl2]].
rewrite /solve_row /inconsistent_row -first_nonzero_zero_row.
have /andP [Hf1 Hf2] := first_nonzero_bounds aug n p r.
case Hfnz: (n < first_nonzero _ _ _ _ _ _)%N => /=.
  case: (is_zero _) => //=; exists (l0, sol) => //.
  by split=> //=; rewrite Hl1.
set fnz := first_nonzero _ _ _ _ _ _ in Hf1 Hf2 Hfnz *.
have [sol1 -> [Hr1 Hc1]] /= :
  exists2 t : matrix,
    for_each (fun c sol0 => set sol0 c co (at_ (m vars) (c * p + co)))
      (iota fnz (l0 - 1 - fnz)) sol = Ok t & row t = n /\ col t = p.
  apply: (@for_each_inv _ (fun t : matrix => row t = n /\ col t = p)) => //.
  move=> c t; rewrite mem_iota => /andP [Hc1 Hc2] [Hrt Hct].
  have Hcn : (c < row t)%N by rewrite Hrt; ssr_lia.
  have Hcp : (co < col t)%N by rewrite Hct.
  by rewrite (set_Ok _ Hcn Hcp); eexists.
have Hfn : (fnz - 1 < row sol1)%N by rewrite Hr1; ssr_lia.
have Hcp : (co < col sol1)%N by rewrite Hc1.
rewrite (set_Ok _ Hfn Hcp) /=; eexists; first by [].
by split=> //=; rewrite Hf1.
Qed.

Lemma solve_rows_spec (aug vars : matrix) (nrows n p co : nat) (sol : matrix) :
  (co < p)%N -> row sol = n -> col sol = p ->
  if has (inconsistent_row aug n p co) (rev (iota 0 nrows))
  then for_each (solve_row aug vars n p co) (rev (iota 0 nrows)) ((n + 1)%N, sol)
       = Throw InconsistentSystem
  else exists2 st',
         for_each (solve_row aug vars n p co) (rev (iota 0 nrows)) ((n + 1)%N, sol)
         = Ok st' & solve_state n p st'.
Proof.
move=> Hco Hr Hc; apply: for_each_throw_iff.
  by split=> //=; rewrite addn1 leqnn.
by move=> r st _; apply: solve_row_spec.
Qed.

Lemma assemble_solution_spec (aug vars : matrix) (nrows n p : nat) :
  row vars = n -> col vars = p ->
  if has (fun co => has (inconsistent_row aug n p co) (rev (iota 0 nrows))) (iota 0 p)
  then assemble_solution aug vars nrows n p = Throw InconsistentSystem
  else exists2 sol : matrix,
         assemble_solution aug vars nrows n p = Ok sol & row sol = n /\ col sol = p.
Proof.
move=> Hvr Hvc; rewrite /assemble_solution.
apply: (@for_each_throw_iff _ (fun t : matrix => row t = n /\ col t = p)) => //.
move=> co sol; rewrite mem_iota add0n /= => Hco [Hr Hc].
have := @solve_rows_spec aug vars nrows n p co sol Hco Hr Hc.
case: ifP => _; first by move=> ->.
move=> [[l0 sol1] -> [/= Hr1 Hc1 /andP [Hl1 Hl2]]] /=.
apply: (@for_each_inv _ (fun t : matrix => row t = n /\ col t = p)) => //.
move=> ro t; rewrite mem_iota add0n /= => Hro [Hrt Hct].
have Hron : (ro < n)%N by ssr_lia.
rewrite get_Ok ?Hvr ?Hvc //= set_Ok ?Hrt ?Hct //.
by eexists.
Qed.

Lemma for_each_unit (P : pred nat) (e0 : exception)
    (body : nat -> unit -> result unit) (idx : seq nat) :
  (forall i, i \in idx -> body i tt = if P i then Throw e0 else Ok tt) ->
  for_each body idx tt = if has P idx then Throw e0 else Ok tt.
Proof.
elim: idx => [|i idx IH] //= Hbody.
rewrite Hbody ?mem_head //; case: (P i) => //=.
by apply: IH => j Hj; apply: Hbody; rewrite in_cons Hj orbT.
Qed.

Lemma check_symbols_spec (vars : matrix) (n p : nat) :
  row vars = n -> col vars = p ->
  check_symbols vars n p
  = if has (not_symbol_in_row vars p) (iota 0 n) then Throw InvalidArgument else Ok tt.
Proof.
move=> Hr Hc; rewrite /check_symbols.
apply: for_each_unit => ro; rewrite mem_iota add0n /= => Hro.
apply: for_each_unit => co; rewrite mem_iota add0n /= => Hco.
by rewrite get_Ok ?Hr ?Hc //= Hc.
Qed.

(** C3: [solve] throws the inconsistent-system exception exactly when its
    arguments pass the checks on shapes and symbols and the eliminated
    augmented matrix has a row whose first [n] entries are all zero while
    its entry in the column of some right-hand side is not. *)
Theorem solve_inconsistent_iff (M vars rhs : matrix) (algo : solve_algo.t) :
  let nrows := rows M in
  let n := cols M in
  let p := cols rhs in
  let aug := solve_eliminate (augment M rhs nrows n p) nrows algo in
  solve M vars rhs algo = Throw InconsistentSystem
  <-> [/\ rows rhs = nrows /\ rows vars = n /\ col vars = p,
          forall ro co, (ro < n)%N -> (co < p)%N ->
            info_symbol (at_ (m vars) (ro * p + co))
        & exists co r,
            [/\ (co < p)%N, (r < nrows)%N,
                forall c, (c < n)%N -> at_ (m aug) (r * (n + p) + c) = 0
              & at_ (m aug) (r * (n + p) + n + co) <> 0]].
Proof.
move=> nrows n p aug; rewrite /solve -/nrows -/n -/p -/aug.
have Hsym : has (not_symbol_in_row vars p) (iota 0 n) = false
            <-> forall ro co, (ro < n)%N -> (co < p)%N ->
                  info_symbol (at_ (m vars) (ro * p + co)).
  split=> [/negbT /hasPn H ro co Hro Hco|H].
    have Hro' : ro \in iota 0 n by rewrite mem_iota add0n.
    have /hasPn H1 := H ro Hro'.
    have Hco' : co \in iota 0 p by rewrite mem_iota add0n.
    by have := H1 co Hco'; rewrite negbK.
  apply/negbTE/hasPn => ro; rewrite mem_iota add0n /= => Hro.
  apply/hasPn => co; rewrite mem_iota add0n /= negbK => Hco.
  exact: H.
have Hbad : has (fun co => has (inconsistent_row aug n p co) (rev (iota 0 nrows)))
              (iota 0 p)
            <-> exists co r,
                  [/\ (co < p)%N, (r < nrows)%N,
                      forall c, (c < n)%N -> at_ (m aug) (r * (n + p) + c) = 0
                    & at_ (m aug) (r * (n + p) + n + co) <> 0].
  split=> [/hasP [co Hco /hasP [r Hr /andP [Hz Hnz]]]|[co [r [Hco Hr Hz Hnz]]]].
    exists co, r; move: Hco Hr; rewrite mem_rev !mem_iota !add0n /= => Hco Hr.
    split=> // [c Hc|]; last by apply/eqP.
    by apply/eqP; move/allP: Hz; apply; rewrite mem_iota add0n.
  apply/hasP; exists co; first by rewrite mem_iota add0n.
  apply/hasP; exists r; first by rewrite mem_rev mem_iota add0n.
  apply/andP; split; last by apply/eqP.
  by apply/allP => c; rewrite mem_iota add0n /= => Hc; apply/eqP; apply: Hz.
case: ifP => [Hdim|/negbT Hdim].
  split=> [[]|[[Hr1 [Hr2 Hc]]]]; first by [].
  by move: Hdim; rewrite Hr1 Hr2 Hc !eqxx.
move: Hdim; rewrite !negb_or !negbK => /andP [/andP [/eqP Hr1 /eqP Hr2] /eqP Hc].
rewrite (check_symbols_spec Hr2 Hc).
case Hs: (has _ _) => /=.
  split=> [[]|[_ /Hsym]]; first by [].
  by rewrite Hs.
have := @assemble_solution_spec aug vars nrows n p Hr2 Hc.
case Hb: (has _ _).
  by move=> ->; split=> // _; split=> //; [apply/Hsym | apply/Hbad].
by move=> [sol -> _]; split=> // -[_ _ /Hbad]; rewrite Hb.
Qed.

(** ** Reading and writing the backing vector *)

Lemma at_put (s : seq ex) (i j : nat) (v : ex) :
  at_ (put s i v) j = if j == i then v else at_ s j.
Proof. by rewrite /at_ /put nth_set_nth. Qed.

Lemma size_put (s : seq ex) (i : nat) (v : ex) :
  (i < size s)%N -> size (put s i v) = size s.
Proof. by move=> Hi; rewrite /put size_set_nth; apply/maxn_idPr. Qed.

(** Row-major indices of cells in range are equal only for equal cells. *)
Lemma rm_eq (n i j i' j' : nat) :
  (j < n)%N -> (j' < n)%N -> (i * n + j == i' * n + j') = (i == i') && (j == j').
Proof.
move=> Hj Hj'; apply/eqP/andP => [H|[/eqP -> /eqP ->] //].
have Hn : (0 < n)%N by case: n Hj {Hj' H}.
have Hi : i = i'.
  by have := congr1 (divn^~ n) H; rewrite !divnMDl // !divn_small // !addn0.
by split; apply/eqP => //; move: H; rewrite Hi => /addnI.
Qed.

Lemma rm_lt (r n i j : nat) : (i < r)%N -> (j < n)%N -> (i * n + j < r * n)%N.
Proof.
move=> Hi Hj; apply: (@leq_trans (i.+1 * n)); first by rewrite mulSn [(n + _)%N]addnC ltn_add2l.
by rewrite leq_mul2r Hi orbT.
Qed.

Lemma for_range_nil (S : Type) (a b : nat) (f : nat -> S -> S) (s : S) :
  (b <= a)%N -> for_range a b f s = s.
Proof. by rewrite /for_range -subn_eq0 => /eqP ->. Qed.

Lemma for_range_recr (S : Type) (a b : nat) (f : nat -> S -> S) (s : S) :
  (a <= b)%N -> for_range a b.+1 f s = f b (for_range a b f s).
Proof.
move=> Hab; rewrite /for_range subSn // -addn1 iotaD foldl_cat /=.
by rewrite subnKC.
Qed.

(** The loop-invariant rule for [for_range]. *)
Lemma for_range_ind (S : Type) (I : nat -> S -> Prop) (a b : nat)
    (f : nat -> S -> S) (s : S) :
  (a <= b)%N -> I a s ->
  (forall c t, (a <= c < b)%N -> I c t -> I c.+1 (f c t)) ->
  I b (for_range a b f s).
Proof.
move=> Hab Is; elim: b Hab => [|b IH] Hab Hstep.
  by move: Hab Is; rewrite leqn0 => /eqP ->; rewrite for_range_nil.
move: Hab; rewrite leq_eqVlt => /orP [/eqP <-|Hab].
  by rewrite for_range_nil.
rewrite for_range_recr //; apply: (Hstep); first by apply/andP.
by apply: IH => // c t /andP [H1 H2]; apply: Hstep; rewrite H1 /=; apply: ltnW.
Qed.

(** ** [mul] is the matrix product *)

Lemma mul_cells (M other : matrix) :
  cols M = rows other ->
  exists2 prod : seq ex,
    mul M other = Ok (Matrix (row M) (col other) prod)
    & size prod = (row M * col other)%N
      /\ forall i j, (i < row M)%N -> (j < col other)%N ->
           at_ prod (i * col other + j)
           = \sum_(0 <= k < col M)
               at_ (m M) (i * col M + k) * at_ (m other) (k * col other + j).
Proof.
move=> Hdim; rewrite /mul -Hdim eqxx /= /rows /cols.
set oc := col other; set prod0 := nseq _ _.
eexists; first by []; set prod := for_range _ _ _ _.
pose term i k j := at_ (m M) (i * col M + k) * at_ (m other) (k * oc + j).
pose inner r1 c := fun r2 prod2 =>
  put prod2 (r1 * oc + r2)
    (at_ prod2 (r1 * oc + r2)
     + expand (at_ (m M) (r1 * col M + c) * at_ (m other) (c * oc + r2))).
pose middle r1 := fun c prod1 =>
  if is_zero (at_ (m M) (r1 * col M + c)) then prod1
  else for_range 0 oc (inner r1 c) prod1.
have Hinner r1 c u : (r1 < row M)%N -> size u = size prod0 ->
    size (for_range 0 oc (inner r1 c) u) = size u
    /\ forall i j, (i < row M)%N -> (j < oc)%N ->
         at_ (for_range 0 oc (inner r1 c) u) (i * oc + j)
         = at_ u (i * oc + j) + (if i == r1 then term r1 c j else 0).
  move=> Hr1 Hsu.
  have [Hs H] : size (for_range 0 oc (inner r1 c) u) = size u
      /\ forall i j, (i < row M)%N -> (j < oc)%N ->
           at_ (for_range 0 oc (inner r1 c) u) (i * oc + j)
           = at_ u (i * oc + j)
             + (if (i == r1) && (j < oc)%N then term r1 c j else 0).
    apply: (@for_range_ind _
      (fun r2 v => size v = size u
         /\ forall i j, (i < row M)%N -> (j < oc)%N ->
              at_ v (i * oc + j)
              = at_ u (i * oc + j)
                + (if (i == r1) && (j < r2)%N then term r1 c j else 0))) => //.
      by split=> // i j _ _; rewrite andbF addr0.
    move=> r2 v /andP [_ Hr2] [Hsv Hv]; split.
      by rewrite size_put // Hsv Hsu size_nseq; apply: rm_lt.
    move=> i j Hi Hj; rewrite /inner at_put rm_eq // ltnS leq_eqVlt.
    case Hir: (i == r1) => /=; last by rewrite Hv // Hir.
    case Hjr: (j == r2) => /=; last by rewrite Hv // Hir.
    by rewrite (eqP Hir) (eqP Hjr) Hv // eqxx ltnn /= addr0.
  by split=> // i j Hi Hj; rewrite H // Hj andbT.
have Hmiddle r1 t : (r1 < row M)%N -> size t = size prod0 ->
    size (for_range 0 (col M) (middle r1) t) = size t
    /\ forall i j, (i < row M)%N -> (j < oc)%N ->
         at_ (for_range 0 (col M) (middle r1) t) (i * oc + j)
         = at_ t (i * oc + j)
           + (if i == r1 then \sum_(0 <= k < col M) term i k j else 0).
  move=> Hr1 Hst.
  apply: (@for_range_ind _
    (fun c u => size u = size t
       /\ forall i j, (i < row M)%N -> (j < oc)%N ->
            at_ u (i * oc + j)
            = at_ t (i * oc + j)
              + (if i == r1 then \sum_(0 <= k < c) term i k j else 0))) => //.
    by split=> // i j _ _; rewrite big_geq // if_same addr0.
  move=> c u /andP [_ Hc] [Hsu Hu].
  have Hterm i j : (if i == r1 then \sum_(0 <= k < c.+1) term i k j else 0)
                   = (if i == r1 then \sum_(0 <= k < c) term i k j else 0)
                     + (if i == r1 then term r1 c j else 0).
    by case: eqP => [->|_]; rewrite ?addr0 // big_nat_recr.
  rewrite /middle; case Hz: (is_zero _).
    split=> // i j Hi Hj; rewrite Hu // Hterm; congr (_ + _).
    by rewrite /term (eqP Hz) mul0r if_same addr0.
  have [Hs H] := @Hinner r1 c u Hr1 (etrans Hsu Hst).
  split=> [|i j Hi Hj]; first by rewrite Hs.
  by rewrite H // Hu // Hterm addrA.
suff [Hs H] : size prod = size prod0
    /\ forall i j, (i < row M)%N -> (j < oc)%N ->
         at_ prod (i * oc + j)
         = at_ prod0 (i * oc + j)
           + (if (i < row M)%N then \sum_(0 <= k < col M) term i k j else 0).
  split=> [|i j Hi Hj]; first by rewrite Hs size_nseq.
  by rewrite H // Hi /at_ nth_nseq if_same add0r.
rewrite /prod; apply: (@for_range_ind _
  (fun r1 t => size t = size prod0
     /\ forall i j, (i < row M)%N -> (j < oc)%N ->
          at_ t (i * oc + j)
          = at_ prod0 (i * oc + j)
            + (if (i < r1)%N then \sum_(0 <= k < col M) term i k j else 0))) => //.
  by split=> // i j _ _; rewrite addr0.
move=> r1 t /andP [_ Hr1] [Hst Ht].
have [Hs H] := @Hmiddle r1 t Hr1 Hst.
split=> [|i j Hi Hj]; first by rewrite Hs.
rewrite H // Ht // -addrA; congr (_ + _).
rewrite [(i < r1.+1)%N]ltnS [(i <= r1)%N]leq_eqVlt.
case: (i =P r1) => [->|_] /=; first by rewrite ltnn add0r.
by case: ifP => _; rewrite addr0.
Qed.

Lemma mul_mx (M other : matrix) :
  cols M = rows other ->
  exists2 P : matrix,
    mul M other = Ok P
    & [/\ row P = row M, col P = col other, wf P
        & mx_of (row M) (col other) (m P)
          = mx_of (row M) (col M) (m M) *m mx_of (col M) (col other) (m other)].
Proof.
move=> Hdim; have [prod -> [Hs Hc]] := mul_cells Hdim.
eexists; first by []; split=> //=; first by rewrite /wf /= Hs.
apply/matrixP => i j; rewrite !mxE Hc // big_mkord.
by apply: eq_bigr => k _; rewrite !mxE.
Qed.

(** The invariant rule for a loop over a range whose body may throw. *)
Lemma for_each_iota_ind (S : Type) (I : nat -> S -> Prop) (a k : nat)
    (body : nat -> S -> result S) (s : S) :
  I a s ->
  (forall c t, (a <= c < a + k)%N -> I c t -> exists2 t', body c t = Ok t' & I c.+1 t') ->
  exists2 t, for_each body (iota a k) s = Ok t & I (a + k)%N t.
Proof.
elim: k a s => [|k IH] a s Is Hbody /=; first by exists s; rewrite ?addn0.
have [|t -> It] /= := Hbody a s _ Is; first by rewrite leqnn -ltn_subLR ?subnn.
rewrite addnS -addSn; apply: IH => // c u /andP [H1 H2].
by apply: Hbody; rewrite (ltnW H1) -addSnnS.
Qed.

Lemma identity_matrix_mx (n : nat) :
  exists2 I : matrix,
    identity_matrix n n = Ok I
    & [/\ row I = n, col I = n, wf I & mx_of n n (m I) = 1%:M].
Proof.
have [I HI [Hr [Hc [Hs Hcell]]]] :
  exists2 I : matrix, identity_matrix n n = Ok I
    & row I = n /\ col I = n /\ size (m I) = (n * n)%N
      /\ forall i j, (i < n)%N -> (j < n)%N ->
           at_ (m I) (i * n + j) = ((i == j) && (i < 0 + n)%N)%:R.
  rewrite /identity_matrix.
  apply: (@for_each_iota_ind _
    (fun k (M : matrix) =>
       row M = n /\ col M = n /\ size (m M) = (n * n)%N
       /\ forall i j, (i < n)%N -> (j < n)%N ->
            at_ (m M) (i * n + j) = ((i == j) && (i < k)%N)%:R)).
    rewrite /matrix_zero /= size_nseq; do 3!split=> //.
    by move=> i j _ _; rewrite /at_ nth_nseq if_same andbF.
  move=> c t; rewrite add0n => /andP [_ Hc] [Hr [Hcol [Hs Hcell]]].
  rewrite set_Ok ?Hr ?Hcol //; eexists; first by [].
  rewrite /= ?Hcol size_put ?Hs; first exact: rm_lt.
  do 3!split=> //; move=> i j Hi Hj; rewrite at_put rm_eq // Hcell //.
  rewrite ltnS [(i <= c)%N]leq_eqVlt.
  case Hic: (i == c) => /=; last by [].
  by rewrite (eqP Hic) ltnn andbF andbT eq_sym; case: (c == j); rewrite ?mulr1n.
exists I => //; split=> //; first by rewrite /wf Hr Hc Hs.
apply/matrixP => i j; rewrite !mxE Hcell // add0n ltn_ord andbT.
by congr (_%:R); congr nat_of_bool.
Qed.

(** ** [pow] *)

Lemma mul_mx_square (n : nat) (A B : matrix) :
  row A = n -> col A = n -> row B = n -> col B = n ->
  exists2 P : matrix,
    mul A B = Ok P
    & [/\ row P = n, col P = n, wf P
        & mx_of n n (m P) = mx_of n n (m A) *m mx_of n n (m B)].
Proof.
case: A => ra ca sa; case: B => rb cb sb /= -> -> -> ->.
by have [P -> [H1 H2 H3 H4]] := @mul_mx (Matrix n n sa) (Matrix n n sb) (erefl _); exists P.
Qed.

Lemma pow_loopE (n fuel b q : nat) (res prod : matrix) :
  (0 < b)%N -> (q < fuel)%N ->
  row res = n -> col res = n -> wf res -> row prod = n -> col prod = n ->
  exists2 R : matrix,
    pow_loop fuel b (b * q) res prod = Ok R
    & [/\ row R = n, col R = n, wf R
        & mx_of n n (m R) = mx_of n n (m res) *m mx_of n n (m prod) ^+ q].
Proof.
elim: fuel b q res prod => [|fuel IH] b q res prod Hb Hq Hrr Hrc Hrw Hpr Hpc //=.
have Hle k : (b * 2 <= b * 2 * k)%N = (0 < k)%N.
  by rewrite -{1}[(b * 2)%N]muln1 leq_pmul2l // muln_gt0 Hb.
have -> : (b <= b * q)%N = (0 < q)%N by rewrite -{1}[b]muln1 leq_pmul2l.
case: (posnP q) => [->|Hqpos] /=.
  by exists res => //; split=> //; rewrite expr0 mulmx1.
have Hr : ((b * q) %% (b * 2))%N = (b * odd q)%N by rewrite -muln_modr modn2.
have Hk : (b * q - b * odd q)%N = (b * 2 * (q %/ 2))%N.
  rewrite -mulnBr -mulnA; congr (_ * _)%N.
  by rewrite {1}(divn_eq q 2) modn2 addnK mulnC.
have Hq2 : (q %/ 2 < fuel)%N.
  by apply: (@leq_trans q); [apply: ltn_Pdiv | rewrite -ltnS].
have Hexp (X : 'M[F]_n) : X ^+ (odd q) * (X * X) ^+ (q %/ 2) = X ^+ q.
  rewrite -expr2 -exprM -exprD; congr (_ ^+ _).
  by rewrite [RHS](divn_eq q 2) modn2 addnC mulnC.
rewrite Hr muln_eq0 (gtn_eqF Hb) /= eqb0 negbK.
set X := mx_of n n (m prod).
have [PP HPP [HPr HPc HPw HPm]] := @mul_mx_square n prod prod Hpr Hpc Hpr Hpc.
move: Hk Hexp; case Hodd: (odd q) => Hk Hexp.
- have [R1 HR1 [HRr HRc HRw HRm]] := @mul_mx_square n res prod Hrr Hrc Hpr Hpc.
  rewrite HR1 /= Hk Hle.
  case: ltnP => Hq0 /=.
  + rewrite HPP /=.
    have [] := IH (b * 2)%N (q %/ 2)%N R1 PP; rewrite ?muln_gt0 ?Hb //.
    move=> R -> [H1 H2 H3 H4]; exists R => //; split=> //.
    rewrite H4 HRm HPm -/X.
    by rewrite -mulmxA !mulmxE -(Hexp X) expr1.
  + have [] := IH (b * 2)%N (q %/ 2)%N R1 prod; rewrite ?muln_gt0 ?Hb //.
    move=> R -> [H1 H2 H3 H4]; exists R => //; split=> //.
    rewrite H4 HRm -/X.
    move: Hq0 (Hexp X); rewrite leqn0 => /eqP -> <-.
    by rewrite !expr0 expr1 mulr1 mulmx1.
- have Hk' : (b * q)%N = (b * 2 * (q %/ 2))%N by rewrite -Hk muln0 subn0.
  rewrite /= Hk' Hle.
  case: ltnP => Hq0 /=.
  + rewrite HPP /=.
    have [] := IH (b * 2)%N (q %/ 2)%N res PP; rewrite ?muln_gt0 ?Hb //.
    move=> R -> [H1 H2 H3 H4]; exists R => //; split=> //.
    rewrite H4 HPm -/X.
    by congr (_ *m _); rewrite -(Hexp X) expr0 mul1r mulmxE.
  + have [] := IH (b * 2)%N (q %/ 2)%N res prod; rewrite ?muln_gt0 ?Hb //.
    move=> R -> [H1 H2 H3 H4]; exists R => //; split=> //.
    rewrite H4; congr (_ *m _).
    move: Hq0 (Hexp X); rewrite leqn0 -/X => /eqP -> <-.
    by rewrite !expr0 mulr1.
Qed.

Lemma inverse_shape (serial : nat) (M P : matrix) :
  inverse serial M = Ok P -> row P = row M /\ col P = row M.
Proof.
rewrite /inverse; case: eqP => [Hsq|//] /=; rewrite -Hsq.
have [identity -> [Hir Hic]] /= := identity_matrix_Ok (row M).
have [vars -> [Hvr Hvc]] /= := fresh_symbols_Ok serial (row M) (row M).
case Hs: (solve _ _ _ _) => [sol|e|] //; last by case: ifP => // _; case: ifP.
case=> <-; move: Hs; rewrite /solve.
case: ifP => // _; case: (check_symbols _ _ _) => //= _.
rewrite /rows /cols -Hsq Hic; set aug := solve_eliminate _ _ _.
have := @assemble_solution_spec aug vars (row M) (row M) (row M) Hvr Hvc.
case: ifP => _; first by move=> ->.
by move=> [sol' -> [H1 H2]] [<-].
Qed.

(** C6: on a square matrix [pow] with exponent 0 returns the identity
    matrix of the same dimension, without a call of [inverse].  With an
    exponent [z] that is not negative it returns the [z]-th power of the
    matrix; with a negative one it first calls [inverse], whose exception it
    lets through, and returns the [|z|]-th power of the inverse.  The loop
    over the bits of [|z|] never runs out of fuel. *)
Theorem pow_binary_exponentiation (serial : nat) (M : matrix) (z : int) :
  row M = col M ->
  let n := row M in
  [/\ exists2 I : matrix,
        pow serial M (integer_exponent 0) = Ok I
        & [/\ row I = n, col I = n, wf I & mx_of n n (m I) = 1%:M],
      0 <= z ->
        exists2 R : matrix,
          pow serial M (integer_exponent z) = Ok R
          & [/\ row R = n, col R = n, wf R
              & mx_of n n (m R) = mx_of n n (m M) ^+ `|z|%N],
      z < 0 -> forall P : matrix, inverse serial M = Ok P ->
        exists2 R : matrix,
          pow serial M (integer_exponent z) = Ok R
          & [/\ row R = n, col R = n, wf R
              & mx_of n n (m R) = mx_of n n (m P) ^+ `|z|%N]
    & z < 0 -> forall e, inverse serial M = Throw e ->
        pow serial M (integer_exponent z) = Throw e].
Proof.
move=> Hsq n.
have Hloop k (P : matrix) : row P = n -> col P = n ->
    exists2 R : matrix,
      (res <- identity_matrix n n ;; pow_loop k.+1 1 k res P) = Ok R
      & [/\ row R = n, col R = n, wf R & mx_of n n (m R) = mx_of n n (m P) ^+ k].
  move=> HPr HPc.
  have [I -> [HIr HIc HIw HIm]] := identity_matrix_mx n; rewrite /bind.
  have [] := @pow_loopE n k.+1 1 k I P; rewrite ?mul1n //.
  by move=> R -> [H1 H2 H3 H4]; exists R => //; split=> //; rewrite H4 HIm mul1mx.
have Hpos k : (0 <= k)%R ->
    exists2 R : matrix,
      pow serial M (integer_exponent k) = Ok R
      & [/\ row R = n, col R = n, wf R & mx_of n n (m R) = mx_of n n (m M) ^+ `|k|%N].
  move=> Hk; rewrite /pow -Hsq eqxx ltNge Hk; cbn [bind negb].
  exact: Hloop.
split.
- have [R HR [H1 H2 H3 H4]] := Hpos 0 (lexx _).
  by exists R => //; split=> //; rewrite H4 expr0.
- exact: Hpos.
- move=> Hz P HP; rewrite /pow -Hsq eqxx Hz HP; cbn [bind negb]; rewrite abszN.
  by have [Hr Hc] := inverse_shape HP; apply: Hloop.
- by move=> Hz e He; rewrite /pow -Hsq eqxx Hz He.
Qed.

(** ** Loops over the cells of a row and over the rows *)

(** A loop that writes the cells [a..b-1] of row [r], each with a value that
    depends on the cells not yet written. *)
Lemma row_loop (n r a b : nat) (g : nat -> seq ex -> ex) (s : seq ex) :
  (a <= b)%N -> (b <= n)%N -> (r * n + n <= size s)%N ->
  (forall c t, (a <= c < b)%N ->
     (forall i j, (j < n)%N -> (i != r) || (c <= j)%N || (j < a)%N ->
        at_ t (i * n + j) = at_ s (i * n + j)) ->
     g c t = g c s) ->
  let t := for_range a b (fun c t => put t (r * n + c) (g c t)) s in
  size t = size s
  /\ forall i j, (j < n)%N ->
       at_ t (i * n + j) = if (i == r) && (a <= j < b)%N then g j s else at_ s (i * n + j).
Proof.
move=> Hab Hbn Hsz Hg.
apply: (@for_range_ind _
  (fun c t => size t = size s
     /\ forall i j, (j < n)%N ->
          at_ t (i * n + j)
          = if (i == r) && (a <= j < c)%N then g j s else at_ s (i * n + j))) => //.
  split=> // i j Hj; case: ifP => // /andP [_ /andP [H1 H2]].
  by move: (leq_ltn_trans H1 H2); rewrite ltnn.
move=> c t /andP [Hac Hcb] [Hst Ht]; split.
  rewrite size_put // Hst; apply: leq_trans Hsz.
  by rewrite ltn_add2l; apply: leq_trans Hcb Hbn.
move=> i j Hj; have Hcn : (c < n)%N by apply: leq_trans Hcb Hbn.
have Hgc : g c t = g c s.
  apply: Hg; first by rewrite Hac Hcb.
  move=> i' j' Hj' Hcond; rewrite Ht //; case: ifP => // /andP [/eqP Hi' /andP [H1 H2]].
  move: Hcond; rewrite Hi' eqxx /= leqNgt H2 /= => H3.
  by move: (leq_ltn_trans H1 H3); rewrite ltnn.
rewrite at_put rm_eq // Ht // ltnS [(j <= c)%N]leq_eqVlt.
case Hir: (i == r) => //=; case Hjc: (j == c) => /=.
  by rewrite (eqP Hjc) Hac Hgc.
by [].
Qed.

(** A loop over the rows [a..b-1] whose round [r] rewrites row [r] from
    that row and from rows outside the range. *)
Lemma rows_loop (n a b : nat) (f : nat -> seq ex -> seq ex) (s : seq ex) :
  (a <= b)%N ->
  (forall r t, (a <= r < b)%N -> size t = size s ->
     size (f r t) = size t
     /\ forall i j, (j < n)%N -> i != r -> at_ (f r t) (i * n + j) = at_ t (i * n + j)) ->
  (forall r t, (a <= r < b)%N -> size t = size s ->
     (forall i j, (j < n)%N -> (i == r) || ~~ (a <= i < b)%N ->
        at_ t (i * n + j) = at_ s (i * n + j)) ->
     forall j, (j < n)%N -> at_ (f r t) (r * n + j) = at_ (f r s) (r * n + j)) ->
  let t := for_range a b f s in
  size t = size s
  /\ forall i j, (j < n)%N ->
       at_ t (i * n + j)
       = if (a <= i < b)%N then at_ (f i s) (i * n + j) else at_ s (i * n + j).
Proof.
move=> Hab H1 H2.
apply: (@for_range_ind _
  (fun r t => size t = size s
     /\ forall i j, (j < n)%N ->
          at_ t (i * n + j)
          = if (a <= i < r)%N then at_ (f i s) (i * n + j) else at_ s (i * n + j))) => //.
  split=> // i j Hj; case: ifP => // /andP [Ha Hb].
  by move: (leq_ltn_trans Ha Hb); rewrite ltnn.
move=> r t Hr [Hst Ht]; have [Hs1 Hc1] := H1 r t Hr Hst.
split=> [|i j Hj]; first by rewrite Hs1.
case Hir: (i == r).
  rewrite (eqP Hir) ltnSn andbT; case/andP: (Hr) => -> _.
  apply: H2 => // i' j' Hj' Hcond; rewrite Ht //; case: ifP => // /andP [Ha' Hb'].
  case/orP: Hcond => [/eqP Hi'|]; first by move: Hb'; rewrite Hi' ltnn.
  by case/andP: Hr => _ Hrb; rewrite Ha' (ltn_trans Hb' Hrb).
rewrite Hc1 ?Hir // Ht // ltnS [(i <= r)%N]leq_eqVlt Hir.
by [].
Qed.

(** ** Determinants under elimination steps *)

Section Elimination.

Variable n : nat.
Implicit Types A : 'M[F]_n.

Lemma det_zero_col A (j : 'I_n) : (forall i, A i j = 0) -> \det A = 0.
Proof.
move=> H; rewrite (expand_det_col A j) big1 // => i _.
by rewrite H mul0r.
Qed.

Lemma det_xrow A (p k : 'I_n) :
  \det (xrow p k A) = (if p == k then 1 else -1) * \det A.
Proof.
rewrite xrowE det_mulmx det_perm odd_tperm.
by case: (p == k); rewrite ?expr0 ?expr1.
Qed.

Lemma mul_single_col A (k : 'I_n) (q : 'I_n -> F) (i j : 'I_n) :
  ((\matrix_(i', l) if l == k then q i' else 0) *m A) i j = q i * A k j.
Proof.
rewrite mxE (bigD1 k) //= mxE eqxx big1 ?addr0 // => l Hl.
by rewrite mxE (negbTE Hl) mul0r.
Qed.

Lemma mul_single_row A (k : 'I_n) (q : 'I_n -> F) (i j : 'I_n) :
  (A *m (\matrix_(l, j') if l == k then q j' else 0)) i j = A i k * q j.
Proof.
rewrite mxE (bigD1 k) //= mxE eqxx big1 ?addr0 // => l Hl.
by rewrite mxE (negbTE Hl) mulr0.
Qed.

Lemma det_unit_lower (q : 'I_n -> F) (k : 'I_n) :
  \det (1%:M - \matrix_(i, l) (if l == k then (if (k < i)%N then q i else 0) else 0)) = 1.
Proof.
rewrite det_trig; last first.
  rewrite big1 // => i _; rewrite !mxE eqxx.
  by case: eqP => [->|_]; rewrite ?ltnn subr0.
apply/is_trig_mxP => i j Hij; rewrite !mxE.
have -> : (i == j) = false by apply/negbTE; rewrite neq_ltn Hij.
case: eqP => [Hjk|_]; last by rewrite subr0.
by rewrite -Hjk ltnNge (ltnW Hij) /= subr0.
Qed.

Lemma det_eliminated A (k : 'I_n) :
  cleared k A -> A k k != 0 ->
  \det (eliminated k A) = \det A /\ cleared k.+1 (eliminated k A).
Proof.
move=> Hcl Hp; split; last first.
  move=> i j; rewrite !ltnS /eliminated mxE => Hij Hne.
  rewrite (negbTE Hne).
  case Hik: (i == k) => //=; case Hjk: (j == k) => //=.
  have Hij' : (i < k)%N || (j < k)%N.
    have Hik' : (i != k :> nat) by rewrite val_eqE Hik.
    have Hjk' : (j != k :> nat) by rewrite val_eqE Hjk.
    by rewrite 2!ltn_neqAle Hik' Hjk'.
  have Hz := Hcl i j Hij' Hne.
  case: ifP => // Hki; rewrite Hz.
  case/orP: Hij' => [Hi|Hj]; first by move: (ltn_trans Hi Hki); rewrite ltnn.
  have -> : A k j = 0 by apply: Hcl; rewrite ?Hj ?orbT // eq_sym Hjk.
  by rewrite mulr0 mul0r subr0.
pose L : 'M[F]_n :=
  1%:M - \matrix_(i, l) (if l == k then (if (k < i)%N then A i k / A k k else 0) else 0).
pose U : 'M[F]_n :=
  1%:M - (\matrix_(l, j) (if j == k then (if (k < l)%N then A k l / A k k else 0) else 0))^T.
have HL : \det L = 1 by apply: det_unit_lower.
have HU : \det U = 1.
  by rewrite -det_tr /U linearB /= trmx1 trmxK; apply: det_unit_lower.
suff -> : eliminated k A = L *m A *m U by rewrite !det_mulmx HL HU mul1r mulr1.
have HB i j : (L *m A) i j = A i j - (if (k < i)%N then A i k / A k k else 0) * A k j.
  by rewrite /L mulmxBl mul1mx [LHS]mxE [X in _ + X]mxE mul_single_col.
have HBk i : i != k -> (L *m A) i k = 0.
  move=> Hik; rewrite HB; case: ifP => Hki.
    by rewrite divfK // subrr.
  rewrite mul0r subr0; apply: Hcl => //.
  by rewrite ltn_neqAle Hik /= leqNgt Hki.
have HU' : U = 1%:M - \matrix_(l, j) (if l == k then (if (k < j)%N then A k j / A k k else 0) else 0).
  by rewrite /U; congr (_ - _); apply/matrixP => i j; rewrite !mxE.
apply/matrixP => i j; rewrite HU' mulmxBr mulmx1.
rewrite [RHS]mxE [X in _ + X]mxE mul_single_row [LHS]mxE.
case Hik: (i == k) => /=.
  rewrite (eqP Hik) !HB ltnn mul0r subr0.
  case: ifP => [/eqP <-|Hkj]; first by rewrite ltnn mulr0 subr0.
  case: ifP => Hlt; first by field.
  rewrite mul0r !subr0 mulr0 subr0; apply/esym; apply: Hcl; last by rewrite Hkj.
  have Hjk' : (j != k :> nat) by rewrite val_eqE eq_sym Hkj.
  by rewrite [(j < k)%N]ltn_neqAle Hjk' [(j <= k)%N]leqNgt Hlt orbT.
rewrite (HBk i) ?Hik // mul0r subr0.
case Hjk: (j == k) => /=.
  by rewrite (eqP Hjk) (HBk i) ?Hik //; case: eqP => // Hij; move: Hik; rewrite Hij eqxx.
rewrite HB; case: ifP => _; last by rewrite mul0r subr0.
by rewrite mulrAC.
Qed.

Lemma det_cleared A : cleared n.-1 A -> \det A = \prod_(i < n) A i i.
Proof.
move=> Hcl; apply: det_trig; apply/is_trig_mxP => i j Hij.
apply: Hcl; last by rewrite neq_ltn Hij.
apply/orP; left; apply: leq_trans Hij _.
by rewrite -ltnS prednK ?ltn_ord //; apply: leq_ltn_trans (ltn_ord j).
Qed.

End Elimination.

(** ** [pivot] in symbolic mode *)

Lemma pivot_first_nonzero_spec (M : matrix) (co fuel k : nat) :
  (k + fuel = row M)%N ->
  let p := pivot_first_nonzero M co fuel k in
  [/\ (k <= p <= row M)%N,
      forall i, (k <= i < p)%N -> at_ (m M) (i * col M + co) = 0
    & (p < row M)%N -> at_ (m M) (p * col M + co) != 0].
Proof.
elim: fuel k => [|fuel IH] k /=.
  rewrite addn0 => <-; rewrite leqnn ltnn; split=> // i /andP [H1 H2].
  by move: (leq_ltn_trans H1 H2); rewrite ltnn.
rewrite addnS -addSn => Hk.
have -> : (k < row M)%N by rewrite -Hk leq_addr.
rewrite /expand /=; case Hz: (is_zero _); last first.
  split=> [|i /andP [H1 H2]|_]; first by rewrite leqnn /=; ssr_lia.
    by move: (leq_ltn_trans H1 H2); rewrite ltnn.
  exact: negbT Hz.
have [/andP [H1 H2] H3 H4] := IH k.+1 Hk.
split=> //; first by rewrite (ltnW H1) H2.
move=> i /andP [Hki Hip]; move: Hki; rewrite leq_eqVlt => /orP [/eqP <-|Hki].
  exact/eqP.
by apply: H3; rewrite Hki Hip.
Qed.

Lemma swap_rows_cells (M : matrix) (p k : nat) :
  p != k -> (p < row M)%N -> (k < row M)%N -> size (m M) = (row M * col M)%N ->
  size (m (swap_rows M p k)) = size (m M)
  /\ forall i j, (j < col M)%N ->
       at_ (m (swap_rows M p k)) (i * col M + j)
       = at_ (m M) ((if i == p then k else if i == k then p else i) * col M + j).
Proof.
move=> Hpk Hp Hk Hs; rewrite /swap_rows /=; set n := col M.
have [H1 H2] :
  size (for_range 0 n
          (fun c s =>
             let a := at_ s (p * n + c) in
             let b := at_ s (k * n + c) in
             put (put s (p * n + c) b) (k * n + c) a) (m M)) = size (m M)
  /\ forall i j, (j < n)%N ->
       at_ (for_range 0 n
              (fun c s =>
                 let a := at_ s (p * n + c) in
                 let b := at_ s (k * n + c) in
                 put (put s (p * n + c) b) (k * n + c) a) (m M)) (i * n + j)
       = if (j < n)%N
         then at_ (m M) ((if i == p then k else if i == k then p else i) * n + j)
         else at_ (m M) (i * n + j).
  apply: (@for_range_ind _
    (fun c t => size t = size (m M)
       /\ forall i j, (j < n)%N ->
            at_ t (i * n + j)
            = if (j < c)%N
              then at_ (m M) ((if i == p then k else if i == k then p else i) * n + j)
              else at_ (m M) (i * n + j))) => //.
  move=> c t /andP [_ Hc] [Hst Ht]; split.
    by rewrite !size_put ?Hst ?Hs //; apply: rm_lt.
  move=> i j Hj; rewrite /= !at_put !rm_eq // !Ht // ltnn ltnS [(j <= c)%N]leq_eqVlt.
  case Hjc: (j == c) => /=; last first.
    by rewrite !andbF.
  rewrite (eqP Hjc) !andbT.
  case Hik: (i == k) => /=.
    by rewrite (eqP Hik) eq_sym (negbTE Hpk).
  by rewrite ltnn; case Hip: (i == p).
by split=> // i j Hj; rewrite H2 // Hj.
Qed.

(** ** The rounds of [gauss_elimination] *)

Lemma row_bound (n r : nat) (s : seq ex) :
  size s = (n * n)%N -> (r < n)%N -> (r * n + n <= size s)%N.
Proof. by move=> -> Hr; rewrite addnC -mulSn leq_mul2r Hr orbT. Qed.

Lemma zero_left_cells (n r1 r2 : nat) (s : seq ex) :
  size s = (n * n)%N -> (r2 < n)%N -> (r1 < n)%N ->
  size (zero_left n r1 r2 s) = size s
  /\ forall i j, (j < n)%N ->
       at_ (zero_left n r1 r2 s) (i * n + j)
       = if (i == r2) && (j <= r1)%N then 0 else at_ s (i * n + j).
Proof.
move=> Hs Hr2 Hr1; rewrite /zero_left.
have [] := @row_loop n r2 0 (r1 + 1) (fun _ _ => 0) s _ _ (row_bound Hs Hr2).
- by [].
- by rewrite addn1.
- by [].
- by move=> H1 H2; split=> // i j Hj; rewrite H2 // addn1 ltnS.
Qed.

Lemma zero_right_cells (n r0 : nat) (s : seq ex) :
  size s = (n * n)%N -> (r0 < n)%N ->
  size (zero_right n r0 s) = size s
  /\ forall i j, (j < n)%N ->
       at_ (zero_right n r0 s) (i * n + j)
       = if (i == r0) && (r0 < j)%N then 0 else at_ s (i * n + j).
Proof.
move=> Hs Hr0; rewrite /zero_right.
have [] := @row_loop n r0 (r0 + 1) n (fun _ _ => 0) s _ _ (row_bound Hs Hr0).
- by rewrite addn1.
- by [].
- by [].
- by move=> H1 H2; split=> // i j Hj; rewrite H2 // addn1 Hj andbT.
Qed.

Lemma gauss_row_cells (n k r : nat) (s : seq ex) :
  size s = (n * n)%N -> (k < n)%N -> (r < n)%N -> r != k ->
  size (gauss_row n k k r s) = size s
  /\ forall i j, (j < n)%N ->
       at_ (gauss_row n k k r s) (i * n + j)
       = if i == r then
           (if (j <= k)%N then 0
            else at_ s (r * n + j)
                 - at_ s (r * n + k) / at_ s (k * n + k) * at_ s (k * n + j))
         else at_ s (i * n + j).
Proof.
move=> Hs Hk Hr Hrk; rewrite gauss_rowE.
set piv := at_ s (r * n + k) / at_ s (k * n + k).
set s1 := (if ~~ is_zero _ then _ else s).
have [Hs1 Hc1] : size s1 = size s
    /\ forall i j, (j < n)%N ->
         at_ s1 (i * n + j)
         = if (i == r) && (k < j)%N then at_ s (r * n + j) - piv * at_ s (k * n + j)
           else at_ s (i * n + j).
  rewrite /s1; case Hz: (is_zero _) => /=.
    split=> // i j Hj; case: ifP => // /andP [/eqP -> _].
    by rewrite /piv (eqP Hz) !mul0r subr0.
  have [] := @row_loop n r (k + 1) n
               (fun c t => at_ t (r * n + c) - piv * at_ t (k * n + c)) s
               _ _ (row_bound Hs Hr).
  - by rewrite addn1.
  - by [].
  - move=> c t /andP [Hkc Hcn] Ht; have Hkr : k != r by rewrite eq_sym.
    by rewrite (Ht r c Hcn) ?leqnn ?orbT // (Ht k c Hcn) ?Hkr.
  - by move=> H1 H2; split=> // i j Hj; rewrite H2 // addn1 Hj andbT.
have [Hs2 Hc2] := @zero_left_cells n k r s1 (etrans Hs1 Hs) Hr Hk.
split=> [|i j Hj]; first by rewrite Hs2.
rewrite Hc2 // Hc1 //; case: (i == r) => //=.
by rewrite ltnNge; case: (j <= k)%N.
Qed.

Lemma gauss_round_cells (n k : nat) (s : seq ex) :
  size s = (n * n)%N -> (k < n)%N ->
  let t := zero_right n k (for_range (k + 1) n (gauss_row n k k) s) in
  size t = size s
  /\ forall i j, (i < n)%N -> (j < n)%N ->
       at_ t (i * n + j)
       = if i == k then (if (k < j)%N then 0 else at_ s (k * n + j))
         else if (k < i)%N then
           (if (j <= k)%N then 0
            else at_ s (i * n + j)
                 - at_ s (i * n + k) / at_ s (k * n + k) * at_ s (k * n + j))
         else at_ s (i * n + j).
Proof.
move=> Hs Hk t.
have [Hs2 Hc2] :
  size (for_range (k + 1) n (gauss_row n k k) s) = size s
  /\ forall i j, (j < n)%N ->
       at_ (for_range (k + 1) n (gauss_row n k k) s) (i * n + j)
       = if (k + 1 <= i < n)%N then at_ (gauss_row n k k i s) (i * n + j)
         else at_ s (i * n + j).
  apply: rows_loop; first by rewrite addn1.
  - move=> r u /andP [Hkr Hrn] Hsu.
    have Hrk : r != k by rewrite neq_ltn orbC -addn1 Hkr.
    have [H1 H2] := @gauss_row_cells n k r u (etrans Hsu Hs) Hk Hrn Hrk.
    by split=> // i j Hj Hir; rewrite H2 // (negbTE Hir).
  - move=> r u /andP [Hkr Hrn] Hsu Hu j Hj.
    have Hrk : r != k by rewrite neq_ltn orbC -addn1 Hkr.
    have [_ H2] := @gauss_row_cells n k r u (etrans Hsu Hs) Hk Hrn Hrk.
    have [_ H3] := @gauss_row_cells n k r s Hs Hk Hrn Hrk.
    rewrite H2 // H3 // eqxx !(Hu r) ?eqxx // !(Hu k) //.
      by rewrite addn1 ltnn /= orbT.
    by rewrite addn1 ltnn /= orbT.
have [Hs3 Hc3] := @zero_right_cells n k _ (etrans Hs2 Hs) Hk.
split=> [|i j Hi Hj]; first by rewrite /t Hs3.
rewrite /t Hc3 // Hc2 // addn1 Hi andbT.
case Hik: (i == k) => /=.
  by rewrite (eqP Hik) ltnn; case: (k < j)%N.
case Hki: (k < i)%N => //.
have Hin : i != k by rewrite Hik.
have [_ ->] := @gauss_row_cells n k i s Hs Hk Hi Hin; rewrite ?eqxx //.
Qed.

(** ** The rounds, on the matrix the vector denotes *)

Lemma mx_of_cell (r c : nat) (s : seq ex) (i : 'I_r) (j : 'I_c) :
  mx_of r c s i j = at_ s (i * c + j).
Proof. by rewrite mxE. Qed.

Lemma mx_of_swap_rows (n : nat) (s : seq ex) (P K : 'I_n) :
  P != K -> size s = (n * n)%N ->
  mx_of n n (m (swap_rows (Matrix n n s) P K)) = xrow P K (mx_of n n s).
Proof.
move=> HPK Hs.
have [_ Hc] := @swap_rows_cells (Matrix n n s) P K HPK (ltn_ord P) (ltn_ord K) Hs.
have HPK' : (P == K :> nat) = false := negbTE HPK.
apply/matrixP => i j; rewrite !mxE Hc //=.
case: tpermP => [->|->|/eqP Hi1 /eqP Hi2].
- by rewrite eqxx.
- by rewrite eqxx eq_sym HPK'.
- have Hi1' : (i == P :> nat) = false := negbTE Hi1.
  have Hi2' : (i == K :> nat) = false := negbTE Hi2.
  by rewrite Hi1' Hi2'.
Qed.

Lemma cleared_xrow (n k : nat) (A : 'M[F]_n) (P K : 'I_n) :
  (k <= P)%N -> (k <= K)%N -> cleared k A -> cleared k (xrow P K A).
Proof.
move=> HP HK Hcl i j Hij Hne; rewrite mxE.
case: tpermP => [Hi|Hi|/eqP Hi1 /eqP Hi2]; last exact: Hcl.
- rewrite Hi in Hij Hne *; apply: Hcl; last first.
    by apply/eqP => HKj; move: Hij; rewrite -HKj !ltnNge HP HK.
  by move: Hij; rewrite [(P < k)%N]ltnNge HP /= => ->; rewrite orbT.
- rewrite Hi in Hij Hne *; apply: Hcl; last first.
    by apply/eqP => HPj; move: Hij; rewrite -HPj !ltnNge HP HK.
  by move: Hij; rewrite [(K < k)%N]ltnNge HK /= => ->; rewrite orbT.
Qed.

(** The entries of [eliminated], by natural numbers. *)
Lemma eliminated_cell (n : nat) (s : seq ex) (K i j : 'I_n) :
  eliminated K (mx_of n n s) i j
  = if (i == K :> nat) || (j == K :> nat)
    then (if i == j :> nat then at_ s (K * n + K) else 0)
    else if (K < i)%N
         then at_ s (i * n + j) - at_ s (i * n + K) * at_ s (K * n + j) / at_ s (K * n + K)
         else at_ s (i * n + j).
Proof. by rewrite /eliminated mxE !mx_of_cell. Qed.

Lemma cleared_cell (n k : nat) (s : seq ex) :
  cleared k (mx_of n n s) ->
  forall a b, (a < n)%N -> (b < n)%N -> (a < k)%N || (b < k)%N -> a != b ->
    at_ s (a * n + b) = 0.
Proof.
move=> Hcl a b Ha Hb Hab Hne.
by have := Hcl (Ordinal Ha) (Ordinal Hb) Hab Hne; rewrite mx_of_cell.
Qed.

Lemma mx_of_gauss_round (n : nat) (s : seq ex) (K : 'I_n) :
  size s = (n * n)%N -> cleared K (mx_of n n s) ->
  mx_of n n (zero_right n K (for_range (K + 1) n (gauss_row n K K) s))
  = eliminated K (mx_of n n s).
Proof.
move=> Hs Hcl; have [_ Hc] := @gauss_round_cells n K s Hs (ltn_ord K).
have Hz := cleared_cell Hcl.
apply/matrixP => i j; rewrite mxE Hc // eliminated_cell.
move: (ltn_ord i) (ltn_ord j) (ltn_ord K) Hz.
move: (i : nat) (j : nat) (K : nat) => a b k Ha Hb Hk Hz.
case: (ltngtP a k) => [Hak|Hka|Hak] /=.
- case: (ltngtP b k) => [Hbk|Hkb|Hbk] //=.
  rewrite Hbk (ltn_eqF Hak); apply: Hz => //; first by rewrite Hak.
  by rewrite neq_ltn Hak.
- case: (ltngtP b k) => [Hbk|Hkb|Hbk] /=.
  + have -> : at_ s (a * n + b) = 0.
      by apply: Hz => //; rewrite ?Hbk ?orbT // neq_ltn (ltn_trans Hbk Hka) orbT.
    have -> : at_ s (k * n + b) = 0.
      by apply: Hz => //; rewrite ?Hbk ?orbT // neq_ltn Hbk orbT.
    by rewrite mulr0 mul0r subr0.
  + by rewrite mulrAC.
  + by case: eqP => // Hab; move: Hka; rewrite Hab Hbk ltnn.
- rewrite Hak; case: (ltngtP k b) => [Hkb|Hbk|Hkb] //=; last by rewrite Hkb.
  apply: Hz => //; first by rewrite Hbk orbT.
  by rewrite neq_ltn Hbk orbT.
Qed.

(** ** Gauss elimination computes the determinant *)

Lemma pivot_outcome (M : matrix) (k co : nat) :
  pivot M k co true
  = let p := pivot_first_nonzero M co (row M - k) k in
    if p == row M then (-1, M)
    else if p == k then (0, M) else (Posz p, swap_rows M p k).
Proof. by []. Qed.

Lemma for_range_prod (n : nat) (f : nat -> ex) :
  for_range 0 n (fun d det => det * f d) 1 = \prod_(0 <= d < n) f d.
Proof.
elim: n => [|n IH]; first by rewrite for_range_nil // big_nil.
by rewrite for_range_recr // IH big_nat_recr.
Qed.

Lemma gauss_loop_det (n fuel k : nat) (sign : int) (s : seq ex) :
  (k + fuel = n - 1)%N -> size s = (n * n)%N ->
  cleared k (mx_of n n s) ->
  let r := gauss_loop true n n fuel k k sign (Matrix n n s) in
  [/\ r.1%:~R * \prod_(i < n) at_ (m r.2) (i * n + i)
      = sign%:~R * \det (mx_of n n s),
      row r.2 = n & col r.2 = n].
Proof.
elim: fuel k sign s => [|fuel IH] k sign s Hk Hs Hcl.
  rewrite /=; split=> //; congr (_ * _).
  rewrite det_cleared; last by apply: eq_bigr => i _; rewrite mxE.
  by rewrite -subn1 -Hk addn0.
have Hkn1 : (k < n - 1)%N by rewrite -Hk addnS ltnS leq_addr.
have Hkn : (k < n)%N by apply: leq_trans Hkn1 _; rewrite leq_subr.
pose K := Ordinal Hkn.
have Hn : (0 < n)%N by exact: leq_ltn_trans (leq0n k) Hkn.
rewrite [gauss_loop _ _ _ _ _ _ _ _]/= (unsigned_predE Hn) Hkn1 /= pivot_outcome.
have [] := @pivot_first_nonzero_spec (Matrix n n s) k (n - k) k.
  by rewrite /= subnKC // ltnW.
rewrite [row _]/= [col _]/= [m _]/=.
set p := pivot_first_nonzero _ _ _ _ => /andP [Hkp Hpn] Hzero Hnz.
cbv zeta.
case: (eqVneq p n) => Hp.
  rewrite /=; split=> //; rewrite mul0r (@det_zero_col _ _ K) ?mulr0 // => i.
  rewrite mxE /=; case: (ltnP i k) => Hik.
    by apply: (cleared_cell Hcl) => //; rewrite ?Hik // neq_ltn Hik.
  by apply: Hzero; rewrite Hik Hp ltn_ord.
have Hpn' : (p < n)%N by rewrite ltn_neqAle Hp Hpn.
have Hk1 : (k.+1 + fuel = n - 1)%N by rewrite addSn -addnS.
case: (eqVneq p k) => Hpk.
  rewrite /= ; have HKK : mx_of n n s K K != 0.
    by rewrite mxE /=; move: (Hnz Hpn'); rewrite Hpk.
  have HclK : cleared K (mx_of n n s) := Hcl.
  have [Hdet Hcl1] := det_eliminated HclK HKK.
  have [Hsz _] := @gauss_round_cells n k s Hs Hkn.
  have := IH k.+1 sign _ Hk1 (etrans Hsz Hs).
  rewrite (@mx_of_gauss_round n s K Hs HclK) Hdet; apply.
  exact: Hcl1.
pose P := Ordinal Hpn'.
have HPK : P != K by [].
have Hkp' : (k < p)%N by rewrite ltn_neqAle eq_sym Hpk Hkp.
have -> : (Posz p == -1) = false by [].
have -> : (0 <= Posz p) by [].
have -> : (0 < Posz p) by rewrite ltz_nat; apply: leq_ltn_trans Hkp'.
rewrite [andb _ _]/= [row _]/= [col _]/=.
have [Hsz1 _] := @swap_rows_cells (Matrix n n s) p k Hpk Hpn' Hkn Hs.
have Hsw := @mx_of_swap_rows n s P K HPK Hs.
set s1 := m (swap_rows _ _ _) in Hsz1 Hsw *.
have Hs1 : size s1 = (n * n)%N by rewrite Hsz1.
have Hcl1 : cleared K (mx_of n n s1).
  by rewrite Hsw; apply: cleared_xrow => //=.
have HKK : mx_of n n s1 K K != 0.
  by rewrite Hsw mxE tpermR mxE /=; apply: Hnz.
have [Hdet Hcl2] := det_eliminated Hcl1 HKK.
have [Hsz _] := @gauss_round_cells n k s1 Hs1 Hkn.
have := IH k.+1 (- sign) _ Hk1 (etrans Hsz Hs1).
rewrite (@mx_of_gauss_round n s1 K Hs1 Hcl1) Hdet => /(_ Hcl2).
by rewrite Hsw det_xrow (negbTE HPK) mulN1r mulrN rmorphN /= mulNr opprK.
Qed.

Lemma cleared0 (n : nat) (A : 'M[F]_n) : cleared 0 A.
Proof. by move=> i j; rewrite !ltn0. Qed.

(** The Gauss branch of [determinant] returns the determinant of the matrix
    the receiver denotes; on the matrix with no rows the test [r1<n-1]
    holds, the pivot search answers [-1] and the value returned is 0. *)
Lemma determinant_gauss (h : heap) (this : nat) :
  let M := load h this in
  forall Hsq : row M = col M, wf M ->
  (determinant h this determinant_algo.gauss).1
  = if row M == 0%N then Ok 0
    else Ok (\det (mx_of (row M) (row M) (m M))).
Proof.
rewrite /determinant /wf; move: (load h this) => [n c s].
rewrite ![row _]/= ![col _]/= ![m _]/= => Hsq; subst c.
rewrite eqxx [negb _]/= => /eqP Hs.
rewrite /determinant_choice.
case: (determinant_stats _) => [[numeric_flag normal_flag] sparse_count].
rewrite /normal /expand; case: (posnP n) => [Hn0|Hn].
  subst n; have := invoke_alloc (gauss_elimination true) h (Matrix 0 0 s).
  rewrite /alloc [X in X -> _]/= => ->.
  by rewrite /gauss_elimination /rows /cols /= mul0r if_same.
case: eqP => [Hn1|_].
  subst n; rewrite /= (det_mx11 (mx_of 1 1 s)) mxE /=.
  by case: normal_flag.
set M := Matrix n n s.
have := invoke_alloc (gauss_elimination true) h M; rewrite /alloc /= => ->.
rewrite /gauss_elimination /rows /cols [col M]/= [row M]/=.
rewrite (unsigned_predE Hn).
have [] := @gauss_loop_det n (n - 1) 0 1 s (add0n _) Hs (cleared0 _).
rewrite -/M.
case: (gauss_loop _ _ _ _ _ _ _ _) => sg T /= Hdet _ _.
have := load_store_alloc h M T; rewrite /alloc /= => ->.
rewrite for_range_prod big_mkord Hdet mul1r.
by case: normal_flag.
Qed.

(** ** Loops that fill a vector *)

Lemma fill_loop (R C : nat) (f : nat -> nat -> ex) (s : seq ex) :
  size s = (R * C)%N ->
  let t :=
    for_range 0 R
      (fun r t => for_range 0 C (fun c t => put t (r * C + c) (f r c)) t) s in
  size t = size s
  /\ forall i j, (i < R)%N -> (j < C)%N -> at_ t (i * C + j) = f i j.
Proof.
move=> Hs.
apply: (@for_range_ind _
  (fun r t => size t = size s
     /\ forall i j, (i < r)%N -> (j < C)%N -> at_ t (i * C + j) = f i j)) => //.
move=> r t /andP [_ Hr] [Hst Ht].
have Hsz : (r * C + C <= size t)%N.
  by rewrite Hst Hs addnC -mulSn leq_mul2r Hr orbT.
have [H1 H2] := @row_loop C r 0 C (fun c _ => f r c) t (leq0n _) (leqnn _) Hsz
                  (fun _ _ _ _ => erefl).
split=> [|i j Hi Hj]; first by rewrite H1.
rewrite H2 //= Hj andbT; case Hir: (i == r); first by rewrite (eqP Hir).
by apply: Ht => //; move: Hi; rewrite ltnS leq_eqVlt Hir.
Qed.

Lemma flat_loop (g : nat -> ex -> ex) (s : seq ex) :
  let t := for_range 0 (size s) (fun i t => put t i (g i (at_ t i))) s in
  size t = size s
  /\ forall j, (j < size s)%N -> at_ t j = g j (at_ s j).
Proof.
have [H1 H2] : 
  size (for_range 0 (size s) (fun i t => put t i (g i (at_ t i))) s) = size s
  /\ forall j, at_ (for_range 0 (size s) (fun i t => put t i (g i (at_ t i))) s) j
               = if (j < size s)%N then g j (at_ s j) else at_ s j.
  apply: (@for_range_ind _
    (fun c t => size t = size s
       /\ forall j, at_ t j = if (j < c)%N then g j (at_ s j) else at_ s j)) => //.
  move=> c t /andP [_ Hc] [Hst Ht]; split; first by rewrite size_put ?Hst.
  move=> j; rewrite at_put !Ht ltnn ltnS [(j <= c)%N]leq_eqVlt.
  by case: eqP => [->|].
by split=> // j Hj; rewrite H2 Hj.
Qed.

Lemma mx_of_inj (r c : nat) (s t : seq ex) :
  size s = (r * c)%N -> size t = (r * c)%N ->
  mx_of r c s = mx_of r c t -> s = t.
Proof.
move=> Hs Ht H; apply: (@eq_from_nth _ 0); first by rewrite Hs Ht.
move=> k; rewrite Hs => Hk.
have Hc : (0 < c)%N by case: c Hk {Hs Ht H} => //; rewrite muln0.
have Hi : (k %/ c < r)%N by rewrite ltn_divLR.
have Hj : (k %% c < c)%N by rewrite ltn_mod.
have := congr1 (fun A : 'M_(r, c) => A (Ordinal Hi) (Ordinal Hj)) H.
by rewrite !mxE /= -divn_eq.
Qed.

(** ** [transpose], [add], [sub] and the scalar products *)

Lemma transpose_cells (M : matrix) :
  size (m (transpose M)) = (col M * row M)%N
  /\ forall i j, (i < col M)%N -> (j < row M)%N ->
       at_ (m (transpose M)) (i * row M + j) = at_ (m M) (j * col M + i).
Proof.
rewrite /transpose /rows /cols /=.
have [H1 H2] := @fill_loop (col M) (row M) (fun r c => at_ (m M) (c * col M + r))
                  (nseq (col M * row M) 0) (size_nseq _ _).
by rewrite H1 size_nseq.
Qed.

Lemma transpose_mx (M : matrix) :
  [/\ row (transpose M) = col M, col (transpose M) = row M, wf (transpose M)
    & mx_of (col M) (row M) (m (transpose M)) = (mx_of (row M) (col M) (m M))^T].
Proof.
have [H1 H2] := transpose_cells M; split=> //; first by rewrite /wf H1.
by apply/matrixP => i j; rewrite !mxE H2.
Qed.

(** X1: [transpose] of a well-formed r x c matrix is a well-formed c x r
    matrix that denotes the transposed matrix. *)
Theorem transpose_is_transposed (M : matrix) :
  wf M ->
  [/\ row (transpose M) = col M, col (transpose M) = row M, wf (transpose M)
    & mx_of (col M) (row M) (m (transpose M)) = (mx_of (row M) (col M) (m M))^T].
Proof. by move=> _; apply: transpose_mx. Qed.

(** X2: transposing twice gives back a well-formed matrix: the same
    dimensions and the same vector of entries. *)
Theorem transpose_involutive (M : matrix) : wf M -> transpose (transpose M) = M.
Proof.
move=> /eqP Hs.
have [R1 C1 W1 E1] := transpose_mx M.
have [R2 C2 /eqP W2 E2] := transpose_mx (transpose M).
move: R2 C2 W2 E2; rewrite R1 C1.
case: (transpose (transpose M)) => r2 c2 s2 /= Hr Hc; subst r2 c2.
case: M Hs E1 {R1 C1 W1} => r c s /= Hs E1 Hs2 E2.
congr Matrix; apply: (mx_of_inj Hs2 Hs).
by rewrite E2 E1 trmxK.
Qed.

(** X3: [add] on matrices of equal dimensions is the entrywise sum. *)
Theorem add_is_matrix_sum (M other : matrix) :
  wf M -> row M = row other -> col M = col other ->
  exists2 P : matrix,
    add M other = Ok P
    & [/\ row P = row M, col P = col M, wf P
        & mx_of (row M) (col M) (m P)
          = mx_of (row M) (col M) (m M) + mx_of (row M) (col M) (m other)].
Proof.
move=> /eqP Hs Hr Hc; rewrite /add Hr Hc !eqxx /=.
have [H1 H2] := @flat_loop (fun i x => x + at_ (m other) i) (m M).
eexists; first by [].
split=> //=; first by rewrite /wf /= H1 Hs Hr Hc.
apply/matrixP => i j; rewrite !mxE H2 // Hs.
by rewrite Hr Hc; apply: rm_lt.
Qed.

(** X4: [sub] on matrices of equal dimensions is the entrywise difference. *)
Theorem sub_is_matrix_difference (M other : matrix) :
  wf M -> row M = row other -> col M = col other ->
  exists2 P : matrix,
    sub M other = Ok P
    & [/\ row P = row M, col P = col M, wf P
        & mx_of (row M) (col M) (m P)
          = mx_of (row M) (col M) (m M) - mx_of (row M) (col M) (m other)].
Proof.
move=> /eqP Hs Hr Hc; rewrite /sub Hr Hc !eqxx /=.
have [H1 H2] := @flat_loop (fun i x => x - at_ (m other) i) (m M).
eexists; first by [].
split=> //=; first by rewrite /wf /= H1 Hs Hr Hc.
apply/matrixP => i j; rewrite !mxE H2 // Hs.
by rewrite Hr Hc; apply: rm_lt.
Qed.

(** X5: [add] and [sub] refuse operands whose dimensions differ, with the
    logic error that names the function, and fail in no other case. *)
Theorem add_sub_incompatible (M other : matrix) :
  ((row M != row other) || (col M != col other)
   -> add M other = Throw (DimensionMismatch "add"%string)
      /\ sub M other = Throw (DimensionMismatch "sub"%string))
  /\ (forall e, add M other = Throw e ->
        e = DimensionMismatch "add"%string
        /\ ((row M != row other) || (col M != col other)))
  /\ (forall e, sub M other = Throw e ->
        e = DimensionMismatch "sub"%string
        /\ ((row M != row other) || (col M != col other))).
Proof.
rewrite /add /sub [(col M != _) || _]orbC.
by case: (_ || _); split=> //; split=> // e [<-].
Qed.

Lemma scaling_cells (M : matrix) (other : ex) :
  let prod :=
    for_range 0 (row M)
      (fun r prod =>
         for_range 0 (col M)
           (fun c prod => put prod (r * col M + c) (at_ (m M) (r * col M + c) * other))
           prod)
      (nseq (row M * col M) 0) in
  size prod = (row M * col M)%N
  /\ mx_of (row M) (col M) prod = other *: mx_of (row M) (col M) (m M).
Proof.
have [H1 H2] := @fill_loop (row M) (col M)
                  (fun r c => at_ (m M) (r * col M + c) * other)
                  (nseq (row M * col M) 0) (size_nseq _ _).
split; first by rewrite H1 size_nseq.
by apply/matrixP => i j; rewrite !mxE H2 // mulrC.
Qed.

(** X6: the product with a number multiplies every entry by it, and the
    result is well formed whatever the length of the receiver's vector. *)
Theorem mul_numeric_is_scaling (M : matrix) (other : ex) :
  [/\ row (mul_numeric M other) = row M, col (mul_numeric M other) = col M,
      wf (mul_numeric M other)
    & mx_of (row M) (col M) (m (mul_numeric M other))
      = other *: mx_of (row M) (col M) (m M)].
Proof.
have [H1 H2] := scaling_cells M other.
by split=> //; rewrite /wf /mul_numeric /= H1.
Qed.

(** X7: [mul_scalar] fails exactly for a scalar that is not commutative,
    with a runtime error, and otherwise multiplies every entry by the
    scalar. *)
Theorem mul_scalar_is_scaling (M : matrix) (other : ex) (commutative : bool) :
  if commutative then
    exists2 P : matrix,
      mul_scalar M other commutative = Ok P
      & [/\ row P = row M, col P = col M, wf P
          & mx_of (row M) (col M) (m P) = other *: mx_of (row M) (col M) (m M)]
  else mul_scalar M other commutative = Throw NonCommutativeScalar
       /\ is_runtime_error (exn_class NonCommutativeScalar).
Proof.
case: commutative; rewrite /mul_scalar //=.
have [H1 H2] := scaling_cells M other.
by eexists; first by []; split=> //; rewrite /wf /= H1.
Qed.

(** ** The checked access *)

(** X8: writing through the checked [operator()] and reading back gives the
    value written and leaves every other cell as it was; out of range both
    the read and the write throw the range error. *)
Theorem get_set (M : matrix) (ro co : nat) (v : ex) :
  if (ro < row M)%N && (co < col M)%N then
    exists2 M' : matrix,
      set M ro co v = Ok M'
      & [/\ row M' = row M, col M' = col M, get M' ro co = Ok v
          & forall r c, (r, c) != (ro, co) -> get M' r c = get M r c]
  else set M ro co v = Throw IndexOutOfRange
       /\ get M ro co = Throw IndexOutOfRange.
Proof.
case Hr: (ro < row M)%N; case Hc: (co < col M)%N => /=;
  try by rewrite /set /get leqNgt Hr [(col M <= co)%N]leqNgt Hc ?orbT.
rewrite set_Ok //; eexists; first by [].
split=> //; first by rewrite get_Ok //= at_put eqxx.
move=> r c Hne; rewrite /get /=; case: ifP => // /negbT.
rewrite negb_or -!ltnNge => /andP [Hr' Hc'].
rewrite at_put rm_eq //; move: Hne; rewrite xpair_eqE => /negbTE ->.
by [].
Qed.

(** ** Construction from lists *)

(** X9: the constructor from a flat list fills the matrix row by row; a
    list that is too short is padded with zeros and the excess of one that
    is too long is dropped. *)
Theorem matrix_from_lst_entries (r c : nat) (l : seq ex) :
  (0 < c)%N ->
  [/\ row (matrix_from_lst r c l) = r, col (matrix_from_lst r c l) = c
    & m (matrix_from_lst r c l) = take (r * c) l ++ nseq (r * c - size l) 0].
Proof.
move=> Hc; split=> //; rewrite /matrix_from_lst /=.
set body := (X in for_range _ _ X).
have [Hsz Hcell] :
  size (for_range 0 (size l) body (false, nseq (r * c) 0)).2 = (r * c)%N
  /\ forall k, at_ (for_range 0 (size l) body (false, nseq (r * c) 0)).2 k
       = if (k < size l)%N && (k < r * c)%N then nth 0 l k else 0.
  suff [H1 H2 _] :
    [/\ size (for_range 0 (size l) body (false, nseq (r * c) 0)).2 = (r * c)%N,
        forall k, at_ (for_range 0 (size l) body (false, nseq (r * c) 0)).2 k
          = if (k < size l)%N && (k < r * c)%N then nth 0 l k else 0
      & (for_range 0 (size l) body (false, nseq (r * c) 0)).1 ->
        (r * c <= size l)%N] by [].
  apply: (@for_range_ind _
    (fun i (st : bool * seq ex) =>
       [/\ size st.2 = (r * c)%N,
           forall k, at_ st.2 k = if (k < i)%N && (k < r * c)%N then nth 0 l k else 0
         & st.1 -> (r * c <= i)%N])) => //.
    by split=> //=; rewrite ?size_nseq // => k; rewrite /at_ nth_nseq if_same.
  move=> i [stop s] /andP [_ Hi] /= [Hs Hk Hstop]; rewrite /body.
  case: stop Hstop => [/(_ isT) Hle|_].
    split=> //=; last by move=> _; apply: leqW.
    move=> k; rewrite /= Hk; case Hkrc: (k < r * c)%N; rewrite ?andbF //.
    by rewrite !andbT (leq_trans Hkrc Hle) (leq_trans Hkrc (leqW Hle)).
  case: ifP => [Hry|/negbT]; rewrite /=.
    have Hle : (r * c <= i)%N by rewrite -leq_divRL.
    split=> //=; last by move=> _; apply: leqW.
    move=> k; rewrite Hk; case Hkrc: (k < r * c)%N; rewrite ?andbF //.
    by rewrite !andbT (leq_trans Hkrc Hle) (leq_trans Hkrc (leqW Hle)).
  rewrite -ltnNge ltn_divLR // -divn_eq => Hirc.
  split=> //; first by rewrite size_put ?Hs.
  move=> k; rewrite /= at_put Hk ltnS [(k <= i)%N]leq_eqVlt.
  by case: eqP => [->|] //=; rewrite Hirc.
apply: (@eq_from_nth _ 0) => [|k].
  rewrite Hsz size_cat size_take size_nseq; case: ltnP => H; ssr_lia.
rewrite Hsz => Hk; have := Hcell k; rewrite /at_ Hk andbT => ->.
rewrite nth_cat size_take; case: (ltnP (r * c) (size l)) => H.
  by rewrite Hk (ltn_trans Hk H) nth_take.
case: ltnP => Hkl; first by rewrite nth_take.
by rewrite nth_nseq if_same.
Qed.

(** X10: [diag_matrix] of a list builds the square matrix with the list on
    its diagonal and zeros elsewhere; the checked writes it makes never
    fail. *)
Theorem diag_matrix_is_diagonal (l : seq ex) :
  exists2 D : matrix,
    diag_matrix l = Ok D
    & [/\ row D = size l, col D = size l, wf D
        & mx_of (size l) (size l) (m D) = diag_mx (\row_(j < size l) nth 0 l j)].
Proof.
set n := size l.
have [D HD [Hr [Hc [Hs Hcell]]]] :
  exists2 D : matrix, diag_matrix l = Ok D
    & row D = n /\ col D = n /\ size (m D) = (n * n)%N
      /\ forall i j, (i < n)%N -> (j < n)%N ->
           at_ (m D) (i * n + j) = if (i == j) && (i < 0 + n)%N then nth 0 l i else 0.
  rewrite /diag_matrix -/n.
  apply: (@for_each_iota_ind _
    (fun k (M : matrix) =>
       row M = n /\ col M = n /\ size (m M) = (n * n)%N
       /\ forall i j, (i < n)%N -> (j < n)%N ->
            at_ (m M) (i * n + j) = if (i == j) && (i < k)%N then nth 0 l i else 0)).
    rewrite /matrix_zero /= size_nseq; do 3!split=> //.
    by move=> i j _ _; rewrite /at_ nth_nseq if_same andbF.
  move=> c t; rewrite add0n => /andP [_ Hc] [Hr [Hcol [Hs Hcell]]].
  rewrite set_Ok ?Hr ?Hcol //; eexists; first by [].
  rewrite /= ?Hcol size_put ?Hs; first exact: rm_lt.
  do 3!split=> //; move=> i j Hi Hj; rewrite at_put rm_eq // Hcell //.
  rewrite ltnS [(i <= c)%N]leq_eqVlt.
  case Hic: (i == c) => /=; last by [].
  by rewrite (eqP Hic) ltnn andbF andbT eq_sym; case: (c == j).
exists D => //; split=> //; first by rewrite /wf Hr Hc Hs.
apply/matrixP => i j; rewrite !mxE Hcell // add0n ltn_ord andbT.
by rewrite -val_eqE /=; case: (i == j :> nat); rewrite ?mulr1n ?mulr0n.
Qed.

Lemma for_range_sum (n : nat) (f : nat -> ex) :
  for_range 0 n (fun r tr => tr + f r) 0 = \sum_(0 <= r < n) f r.
Proof.
elim: n => [|n IH]; first by rewrite for_range_nil // big_nil.
by rewrite for_range_recr // IH big_nat_recr.
Qed.

(** X11: on a square matrix [trace] returns the sum of the diagonal, the
    trace of the matrix the receiver denotes. *)
Theorem trace_is_trace (M : matrix) :
  row M = col M ->
  trace M = Ok (\tr (mx_of (col M) (col M) (m M))).
Proof.
move=> Hsq; rewrite /trace Hsq eqxx /= /normal /expand if_same.
rewrite for_range_sum big_mkord /mxtrace; congr Ok.
by apply: eq_bigr => i _; rewrite mxE.
Qed.

Lemma lst_to_matrix_cols (l : seq (seq ex)) (n : nat) :
  for_range 0 n
    (fun i ncols => if (ncols < size (nth [::] l i))%N then size (nth [::] l i) else ncols)
    0%N
  = \max_(0 <= i < n) size (nth [::] l i).
Proof.
elim: n => [|n IH]; first by rewrite for_range_nil // big_nil.
by rewrite for_range_recr // IH big_nat_recr //= /maxn.
Qed.

(** X12: [lst_to_matrix] of a list of rows builds the matrix with as many
    columns as the longest row has entries, the shorter rows padded with
    zeros; the checked writes it makes never fail. *)
Theorem lst_to_matrix_entries (l : seq (seq ex)) :
  exists2 P : matrix,
    lst_to_matrix l = Ok P
    & [/\ row P = size l, col P = \max_(s <- l) size s, wf P
        & forall i j, (i < row P)%N -> (j < col P)%N ->
            get P i j = Ok (nth 0 (nth [::] l i) j)].
Proof.
rewrite /lst_to_matrix lst_to_matrix_cols (big_nth [::] xpredT (fun s => size s)).
set n := size l; set C := \max_(0 <= i < n) _.
pose Inv (k c : nat) (M : matrix) :=
  [/\ row M = n, col M = C, size (m M) = (n * C)%N
    & forall i j, (i < n)%N -> (j < C)%N -> (i < k)%N || ((i == k) && (j < c)%N) ->
        at_ (m M) (i * C + j) = nth 0 (nth [::] l i) j].
have [P HP [Hr Hc Hs Hcell]] :
  exists2 P : matrix,
    for_each
      (fun i M =>
         for_each
           (fun j M =>
              if (j < size (nth [::] l i))%N then set M i j (nth 0 (nth [::] l i) j)
              else set M i j 0)
           (iota 0 C) M)
      (iota 0 n) (matrix_zero n C) = Ok P
    & Inv (0 + n)%N 0%N P.
  apply: (@for_each_iota_ind _ (fun k M => Inv k 0%N M)).
    split=> //; first by rewrite /= size_nseq.
    by move=> i j _ _; rewrite ltn0 andbF.
  move=> r t; rewrite add0n => /andP [_ Hrn] Hinv.
  have [t' Ht' [Hr' Hc' Hs' Hcell']] :
    exists2 t' : matrix,
      for_each
        (fun j M =>
           if (j < size (nth [::] l r))%N then set M r j (nth 0 (nth [::] l r) j)
           else set M r j 0)
        (iota 0 C) t = Ok t'
      & Inv r (0 + C)%N t'.
    apply: (@for_each_iota_ind _ (fun c M => Inv r c M)) => //.
    move=> c u; rewrite add0n => /andP [_ HcC] [Hr Hc Hs Hcell].
    have -> : (if (c < size (nth [::] l r))%N then set u r c (nth 0 (nth [::] l r) c)
               else set u r c 0) = set u r c (nth 0 (nth [::] l r) c).
      by case: ltnP => // H; rewrite nth_default.
    rewrite set_Ok ?Hr ?Hc //; eexists; first by [].
    split=> //=; first by rewrite size_put ?Hs //; apply: rm_lt.
    move=> i j Hi Hj Hcond; rewrite at_put rm_eq //.
    case Hir: (i == r); case Hjc: (j == c) => /=.
    - by rewrite (eqP Hir) (eqP Hjc).
    - apply: Hcell => //; move: Hcond.
      by rewrite (eqP Hir) ltnn eqxx /= ltnS leq_eqVlt Hjc.
    - by apply: Hcell => //; move: Hcond; rewrite Hir /= !orbF.
    - by apply: Hcell => //; move: Hcond; rewrite Hir /= !orbF.
  exists t' => //; split=> // i j Hi Hj.
  rewrite andbF orbF ltnS leq_eqVlt => /orP [Hir|Hir]; apply: Hcell' => //.
    by rewrite Hir add0n Hj orbT.
  by rewrite Hir.
exists P => //; split=> //; first by rewrite /wf Hr Hc Hs.
rewrite Hr Hc => i j Hi Hj; rewrite get_Ok ?Hr ?Hc // Hcell //.
by rewrite add0n Hi.
Qed.

(** ** Further properties of [mul], [pivot], [determinant], [solve], [inverse] *)

(** X13: [mul] fails exactly when the receiver's columns and the argument's
    rows differ in number, with a logic error; otherwise it returns a
    well-formed matrix that denotes the matrix product, the entries skipped
    for a zero factor included. *)
Theorem mul_is_matrix_product (M other : matrix) :
  if cols M == rows other then
    exists2 P : matrix,
      mul M other = Ok P
      & [/\ row P = row M, col P = col other, wf P
          & mx_of (row M) (col other) (m P)
            = mx_of (row M) (col M) (m M) *m mx_of (col M) (col other) (m other)]
  else mul M other = Throw (DimensionMismatch "mul"%string).
Proof.
case: eqP => [H|/eqP H]; first exact: mul_mx.
by rewrite /mul H.
Qed.

(** X14: in symbolic mode [pivot] answers [-1] and leaves the matrix alone
    when column [co] is zero from row [ro] down.  Otherwise it finds the
    first row [p] from [ro] on with a nonzero entry in the column, answers 0
    if that is row [ro] and [p] if not, and exchanges the rows [p] and
    [ro]. *)
Theorem pivot_symbolic_spec (M : matrix) (ro co : nat) :
  wf M -> (ro < row M)%N -> (co < col M)%N ->
  let r := pivot M ro co true in
  if all (fun i => is_zero (at_ (m M) (i * col M + co))) (iota ro (row M - ro))
  then r = (-1, M)
  else
    exists p : nat,
      [/\ (ro <= p < row M)%N,
          at_ (m M) (p * col M + co) != 0,
          forall i, (ro <= i < p)%N -> at_ (m M) (i * col M + co) = 0,
          r.1 = (if p == ro then 0 else Posz p)
        & [/\ row r.2 = row M, col r.2 = col M, wf r.2
            & forall i j, (j < col M)%N ->
                at_ (m r.2) (i * col M + j)
                = at_ (m M) ((if i == p then ro else if i == ro then p else i)
                             * col M + j)]].
Proof.
move=> /eqP Hs Hro Hco r; rewrite {}/r pivot_outcome.
have [] := @pivot_first_nonzero_spec M co (row M - ro) ro.
  by rewrite subnKC // ltnW.
set p := pivot_first_nonzero _ _ _ _ => /andP [Hrp Hpn] Hzero Hnz; cbv zeta.
case: (eqVneq p (row M)) => Hp.
  have -> // : all (fun i => is_zero (at_ (m M) (i * col M + co)))
                 (iota ro (row M - ro)).
  apply/allP => i; rewrite mem_iota (subnKC (ltnW Hro)) -Hp => Hi.
  by rewrite /is_zero Hzero.
have Hpn' : (p < row M)%N by rewrite ltn_neqAle Hp Hpn.
have -> : all (fun i => is_zero (at_ (m M) (i * col M + co)))
            (iota ro (row M - ro)) = false.
  apply/negbTE/allPn; exists p; last exact: Hnz.
  by rewrite mem_iota (subnKC (ltnW Hro)) Hrp.
exists p; rewrite Hrp Hpn'; split=> //; first exact: Hnz.
  by case: (p == ro).
case: (eqVneq p ro) => Hpr /=.
  split=> //; first by rewrite /wf Hs.
  by move=> i j _; rewrite Hpr; case: eqP => // ->.
have [H1 H2] := @swap_rows_cells M p ro Hpr Hpn' Hro Hs.
by split=> //; rewrite /wf H1 Hs.
Qed.

(** X15: on a well-formed square matrix with at least one row the Gauss
    branch of [determinant] returns the determinant (the Leibniz sum) of the
    matrix that the receiver denotes: the sign count of the row exchanges,
    the product of the diagonal left by the elimination and the early exit
    on a zero column are all accounted for.  On the matrix with no rows the
    loop test [r1<n-1] of the elimination wraps around, the pivot search
    finds nothing and the value returned is 0. *)
Theorem determinant_gauss_is_det (h : heap) (this : nat) :
  row (load h this) = col (load h this) -> wf (load h this) ->
  (determinant h this determinant_algo.gauss).1
  = if row (load h this) == 0%N then Ok 0
    else Ok (\det (mx_of (row (load h this)) (row (load h this)) (m (load h this)))).
Proof. by move=> Hsq Hwf; apply: determinant_gauss. Qed.

(** X16: [solve] throws nothing but its own four exceptions: incompatible
    matrices, a first argument that is no matrix of symbols, an index out of
    range and an inconsistent linear system. *)
Theorem solve_fails_only_with (M vars rhs : matrix) (algo : solve_algo.t)
    (e : exception) :
  solve M vars rhs algo = Throw e ->
  e \in [:: DimensionMismatch "solve"%string; InvalidArgument; IndexOutOfRange;
            InconsistentSystem].
Proof.
by move=> /solve_throw [] ->; rewrite !inE eqxx ?orbT.
Qed.

(** X17: a matrix that [inverse] returns has the dimensions of the
    receiver. *)
Theorem inverse_keeps_shape (serial : nat) (M P : matrix) :
  inverse serial M = Ok P -> row P = row M /\ col P = col M.
Proof.
move=> H; have [H1 H2] := inverse_shape H; split=> //.
by move: H; rewrite /inverse; case: eqP => // <-.
Qed.

(** ** Loops over a pair of vectors *)




(** ** The rounds of [fraction_free_elimination] *)




(** ** Determinants under the fraction-free round *)






(** ** Fraction-free elimination computes the determinant *)

Section FractionFree.

(** [divide(a, b, q)] stores the quotient in [q] whenever [b] is not zero. *)
Hypothesis divide_exact : forall a b : ex, b != 0 -> (divide a b).2 = a / b.

(** An expression is the quotient of its numerator by its denominator. *)
Hypothesis numer_denom : forall x : ex, denom x != 0 /\ numer x / denom x = x.








End FractionFree.

(** ** The Laplace branch: presorting the columns *)

Lemma for_range_rcons (T : Type) (f : nat -> T) (n : nat) :
  for_range 0 n (fun c l => rcons l (f c)) [::] = [seq f c | c <- iota 0 n].
Proof.
elim: n => [|n IH]; first by rewrite for_range_nil.
by rewrite for_range_recr // IH -cats1 -addn1 iotaD map_cat add0n.
Qed.

Lemma col_loop (n R c : nat) (g : nat -> ex) (s : seq ex) :
  (R * n <= size s)%N -> (c < n)%N ->
  let t := for_range 0 R (fun r t => put t (r * n + c) (g r)) s in
  size t = size s
  /\ forall i j, (j < n)%N ->
       at_ t (i * n + j) = if (j == c) && (i < R)%N then g i else at_ s (i * n + j).
Proof.
move=> Hsz Hc.
apply: (@for_range_ind _
  (fun r t => size t = size s
     /\ forall i j, (j < n)%N ->
          at_ t (i * n + j) = if (j == c) && (i < r)%N then g i else at_ s (i * n + j))) => //.
  by split=> // i j Hj; rewrite ltn0 andbF.
move=> r t /andP [_ Hr] [Hst Ht]; split.
  by rewrite size_put // Hst; apply: leq_trans Hsz; apply: rm_lt.
move=> i j Hj; rewrite at_put rm_eq // Ht // ltnS [(i <= r)%N]leq_eqVlt.
case Hir: (i == r) => /=; last by [].
by rewrite (eqP Hir) ltnn andbF andbT; case: (j == c).
Qed.

Lemma det_xcol (n : nat) (A : 'M[F]_n) (p k : 'I_n) :
  \det (xcol p k A) = (if p == k then 1 else -1) * \det A.
Proof.
rewrite xcolE det_mulmx det_perm odd_tperm mulrC.
by case: (p == k); rewrite ?expr0 ?expr1.
Qed.

Lemma select_cols_swap (n : nat) (s : seq ex) (pre u : seq nat) (x y : nat) :
  (size pre + 1 < n)%N ->
  \det (select_cols n s (pre ++ y :: x :: u))
  = - \det (select_cols n s (pre ++ x :: y :: u)).
Proof.
move=> Hq; have Hq0 : (size pre < n)%N by apply: leq_trans Hq; rewrite addn1.
pose Q := Ordinal Hq0; pose Q' := Ordinal Hq.
have -> : select_cols n s (pre ++ y :: x :: u)
          = xcol Q Q' (select_cols n s (pre ++ x :: y :: u)).
  apply/matrixP => i j; rewrite !mxE; congr (at_ s (_ + _)).
  rewrite !nth_cat; case: tpermP => [->|->|/eqP Hj1 /eqP Hj2] /=.
  - by rewrite ltnn subnn addn1 ltnNge leqnSn /= subSn // subnn.
  - by rewrite ltnn subnn addn1 ltnNge leqnSn /= subSn // subnn.
  - case: (ltnP j (size pre)) => // Hj.
    have Hj1' : (j - size pre != 0)%N.
      by rewrite subn_eq0 -ltnNge ltn_neqAle Hj andbT eq_sym -val_eqE in Hj1 *.
    case Ej: (j - size pre)%N Hj1' => [|[|d]] //= _.
    by move: Hj2; rewrite -val_eqE /= addn1 -(subnKC Hj) Ej addn1 eqxx.
rewrite det_xcol -val_eqE /= addn1 ltn_eqF // mulN1r.
by [].
Qed.

Lemma select_cols_insert (n : nat) (s : seq ex) (u pre : seq nat) (x : nat) :
  sorted leq u -> (size pre + size u + 1 = n)%N ->
  exists u' : seq nat,
    [/\ perm_eq u' (x :: u), sorted leq u'
      & \det (select_cols n s (pre ++ x :: u))
        = (-1) ^+ count (fun y => (y < x)%N) u * \det (select_cols n s (pre ++ u'))].
Proof.
elim: u pre => [|y u IH] pre Hu Hn.
  by exists [:: x]; split=> //; rewrite /= expr0 mul1r.
have Hu' : sorted leq u by apply: path_sorted Hu.
case: (ltnP y x) => Hyx; last first.
  exists (x :: y :: u); split=> //; first by rewrite /= Hyx.
  have -> : count (fun z => (z < x)%N) (y :: u) = 0%N; last by rewrite expr0 mul1r.
  rewrite -(count_pred0 (y :: u)); apply: eq_in_count => z Hz.
  move: Hu; rewrite /= (path_sortedE leq_trans) => /andP [/allP Hall _].
  have Hyz : (y <= z)%N.
    by move: Hz; rewrite inE => /orP [/eqP ->|/Hall].
  by rewrite /= ltnNge (leq_trans Hyx Hyz).
have Hn' : (size (rcons pre y) + size u + 1 = n)%N.
  by move: Hn; rewrite size_rcons /=; ssr_lia.
have [u'' [Hp Hs Hd]] := IH (rcons pre y) Hu' Hn'.
exists (y :: u''); split.
- rewrite -(perm_cons y) in Hp; apply: perm_trans Hp _.
  by rewrite -[y :: x :: u]/([:: y] ++ [:: x] ++ u) perm_catCA.
- rewrite /= (path_sortedE leq_trans) Hs andbT.
  rewrite (perm_all _ Hp) /= (ltnW Hyx) /=.
  by move: Hu; rewrite /= (path_sortedE leq_trans) => /andP [].
- have Hq : (size pre + 1 < n)%N.
    move: Hn => /= Hn; apply/ssrnat.leP; move: Hn.
    by rewrite -?plusE -?minusE -?multE /=; intros; lia.
  rewrite select_cols_swap //.
  rewrite -cat_rcons Hd /= Hyx add1n exprS mulN1r mulNr.
  by rewrite cat_rcons.
Qed.

Lemma select_cols_sort (n : nat) (s : seq ex) (t pre : seq nat) :
  (size pre + size t = n)%N ->
  exists u : seq nat,
    [/\ perm_eq u t, sorted leq u
      & \det (select_cols n s (pre ++ t))
        = (-1) ^+ inversions t * \det (select_cols n s (pre ++ u))].
Proof.
elim: t pre => [|x t IH] pre Hn.
  by exists [::]; split=> //; rewrite /= expr0 mul1r.
have Hn' : (size (rcons pre x) + size t = n)%N.
  by move: Hn; rewrite size_rcons /=; ssr_lia.
have [u [Hp Hs Hd]] := IH (rcons pre x) Hn'.
have Hn'' : (size pre + size u + 1 = n)%N.
  by move: Hn; rewrite (perm_size Hp) /=; ssr_lia.
have [u' [Hp' Hs' Hd']] := @select_cols_insert n s u pre x Hs Hn''.
exists u'; split=> //.
  by apply: perm_trans Hp' _; rewrite perm_cons.
have Hc : count (fun y => (y < x)%N) u = count (fun y => (y < x)%N) t.
  by have /seq.permP Hc0 := Hp; apply: Hc0.
by rewrite -cat_rcons Hd cat_rcons Hd' /= exprD Hc mulrA [_ ^+ inversions t * _]mulrC.
Qed.

Lemma presort_fill (n : nat) (s : seq ex) (p : seq nat) :
  (size p <= n)%N ->
  let st :=
    foldl
      (fun (st : nat * seq ex) i =>
         let: (c, result) := st in
         (c.+1,
          for_range 0 n (fun r result => put result (r * n + c) (at_ s (r * n + i)))
            result))
      (0%N, nseq (n * n) 0) p in
  [/\ st.1 = size p, size st.2 = (n * n)%N
    & forall i j, (i < n)%N -> (j < n)%N ->
        at_ st.2 (i * n + j) = if (j < size p)%N then at_ s (i * n + nth 0%N p j) else 0].
Proof.
elim/last_ind: p => [|p x IH] Hp.
  by split=> //=; rewrite ?size_nseq // => i j _ _; rewrite /at_ nth_nseq if_same.
rewrite size_rcons in Hp; have [] := IH (ltnW Hp).
rewrite foldl_rcons; case: (foldl _ _ _) => c t /= -> Ht Hcell.
have [H1 H2] := @col_loop n n (size p) (fun r => at_ s (r * n + x)) t
                  (eq_leq (esym Ht)) Hp.
split=> //; rewrite ?size_rcons ?H1 // => i j Hi Hj.
rewrite H2 // Hi andbT ltnS [(j <= size p)%N]leq_eqVlt nth_rcons.
case: eqP => [->|_] /=; first by rewrite ltnn.
by rewrite Hcell //; case: ifP.
Qed.

Lemma permutation_signE (p : seq nat) :
  (permutation_sign p)%:~R = (-1) ^+ inversions p :> ex.
Proof.
rewrite /permutation_sign -signr_odd; case: (odd _); last by rewrite expr0.
by rewrite expr1 rmorphN.
Qed.

(** The presorted matrix has the receiver's columns in another order, and
    the sign of that order makes up for it in the determinant. *)
Lemma laplace_presort_det (n : nat) (s : seq ex) :
  size s = (n * n)%N ->
  let r := laplace_presort (Matrix n n s) in
  [/\ row r.2 = n, col r.2 = n, size (m r.2) = (n * n)%N
    & r.1%:~R * \det (mx_of n n (m r.2)) = \det (mx_of n n s)].
Proof.
move=> Hs; rewrite /laplace_presort /=.
pose acc (c : nat) :=
  for_range 0 n (fun r a => if is_zero (at_ s (r * n + c)) then a.+1 else a) 0%N.
rewrite (for_range_rcons (fun c => (acc c, c))).
set p := [seq i.2 | i <- sort _ _].
have Hp : perm_eq p (iota 0 n).
  have -> : iota 0 n = [seq i.2 | i <- [seq (acc c, c) | c <- iota 0 n]].
    by rewrite -map_comp map_id.
  by apply: perm_map; rewrite perm_sort.
have Hsz : size p = n by rewrite (perm_size Hp) size_iota.
have [] := @presort_fill n s p; first by rewrite Hsz.
case: (foldl _ _ _) => c t /= _ Ht Hcell; split=> //.
have -> : mx_of n n t = select_cols n s p.
  by apply/matrixP => i j; rewrite !mxE Hcell // Hsz ltn_ord.
have [u [Hu Hsu ->]] := @select_cols_sort n s p [::] Hsz.
have -> : u = iota 0 n.
  apply: (sorted_eq leq_trans anti_leq) => //; first exact: iota_sorted.
  exact: perm_trans Hu Hp.
have -> : select_cols n s ([::] ++ iota 0 n) = mx_of n n s.
  by apply/matrixP => i j; rewrite !mxE /= nth_iota.
by rewrite permutation_signE mulrA -expr2 sqrr_sign mul1r.
Qed.

(** ** The Laplace branch: the counter of the keys *)

Lemma next_key_cat (n : nat) (pre t t' : seq nat) :
  next_key n t = Some t' -> next_key n (pre ++ t) = Some (pre ++ t').
Proof. by move=> Ht; elim: pre => [|x pre /= ->]. Qed.

Lemma next_key_size (n : nat) (K K' : seq nat) :
  next_key n K = Some K' -> size K' = size K.
Proof.
elim: K K' => [|x t IH] K' //=.
case: (next_key n t) IH => [t'|] IH.
  by move=> [<-] /=; rewrite (IH t').
by case: ifP => // _ [<-]; rewrite /= size_iota.
Qed.

Lemma key_ok_iota (lo n a k : nat) :
  (lo <= a)%N -> (a + k <= n)%N -> key_ok lo n (iota a k).
Proof.
elim: k lo a => [|k IH] lo a //= Hlo Hk.
have Hk' : (a.+1 + k <= n)%N by rewrite addSnnS.
have Ha : (a < n)%N by apply: leq_trans Hk'; rewrite leq_addr.
by rewrite Hlo Ha IH.
Qed.

Lemma key_ok_le (lo lo' n : nat) (K : seq nat) :
  (lo <= lo')%N -> key_ok lo' n K -> key_ok lo n K.
Proof.
case: K => [|x t] //= Hlo /and3P [H1 H2 H3].
by rewrite (leq_trans Hlo H1) H2 H3.
Qed.

Lemma key_ok_size (lo n : nat) (K : seq nat) :
  key_ok lo n K -> (lo + size K <= n)%N \/ K = [::].
Proof.
elim: K lo => [|x t IH] lo /=; first by right.
move=> /and3P [H1 H2 H3]; left.
case: (IH _ H3) => [H|->] /=; last by rewrite addn1 (leq_ltn_trans H1 H2).
by rewrite addnS -addSn (leq_trans _ H) // leq_add2r ltnS.
Qed.

Lemma next_key_ok (lo n : nat) (K K' : seq nat) :
  key_ok lo n K -> next_key n K = Some K' -> key_ok lo n K'.
Proof.
elim: K lo K' => [|x t IH] lo K' //= /and3P [H1 H2 H3].
case Et: (next_key n t) => [t'|].
  by move=> [<-] /=; rewrite H1 H2 (IH _ _ H3 Et).
case: ifP => // Hx [<-].
apply: (@key_ok_iota lo n x.+1 (size t).+1); first exact: leqW.
by rewrite addnS.
Qed.

Lemma key_step_size (n : nat) (K : seq nat) (L : seq (seq nat)) :
  path (key_step n) K L -> all (fun K' => size K' == size K) (K :: L).
Proof.
elim: L K => [|K' L IH] K /=; first by rewrite eqxx.
move=> /andP [/eqP /next_key_size HK' /IH /= /andP [_ HL]].
rewrite eqxx HK' eqxx /=; apply: sub_all HL => K''.
by rewrite HK'.
Qed.

Lemma key_step_last_size (n : nat) (K : seq nat) (L : seq (seq nat)) :
  path (key_step n) K L -> size (last K L) = size K.
Proof.
move=> /key_step_size /allP H; apply/eqP; apply: H.
exact: mem_last.
Qed.

Lemma key_step_ok (lo n : nat) (K : seq nat) (L : seq (seq nat)) :
  key_ok lo n K -> path (key_step n) K L -> all (key_ok lo n) (K :: L).
Proof.
elim: L K => [|K' L IH] K /= HK; first by rewrite HK.
move=> /andP [/eqP HK' HL]; rewrite HK /=.
by apply: IH HL; apply: next_key_ok HK'.
Qed.

Lemma key_step_cons (n x : nat) (K : seq nat) (L : seq (seq nat)) :
  path (key_step n) K L ->
  path (key_step n) (x :: K) [seq x :: t | t <- L].
Proof.
rewrite path_map; apply: sub_path => a b; rewrite /key_step /= => /eqP ->.
exact: eqxx.
Qed.

(** The counter runs through the keys of length [k] from [lo] on: starting
    from the first of them it reaches every one, in ['C(n - lo, k)] steps. *)
Lemma key_chain (n k lo : nat) :
  (lo + k <= n)%N ->
  exists L : seq (seq nat),
    [/\ path (key_step n) (iota lo k) L,
        next_key n (last (iota lo k) L) = None,
        (size L).+1 = 'C(n - lo, k)
      & forall K, key_ok lo n K -> size K = k -> K \in iota lo k :: L].
Proof.
elim: k lo => [|k IHk] lo.
  move=> _; exists [::]; split=> //=; first by rewrite bin0.
  by move=> K _ /size0nil ->; rewrite inE.
move=> Hle; move: (subnKC Hle); move: (n - (lo + k.+1))%N => d {Hle}.
elim: d lo => [|d IHd] lo Hd.
  have Hk : (lo.+1 + k <= n)%N by ssr_lia.
  have [L1 [P1 N1 S1 M1]] := IHk lo.+1 Hk.
  exists [seq lo :: t | t <- L1]; split.
  - exact: key_step_cons.
  - rewrite [iota _ _]/= last_map /= N1 (key_step_last_size P1) size_iota.
    by have -> : (lo.+1 + k < n)%N = false by ssr_lia.
  - have -> : (n - lo)%N = k.+1 by ssr_lia.
    have E1 : (n - lo.+1)%N = k by ssr_lia.
    by rewrite size_map S1 E1 !binn.
  - case=> [|x t] //= /and3P [Hx1 Hx2 Ht] [Hsz].
    have Hx : x = lo.
      case: (key_ok_size Ht) => [H|Ht0]; first by ssr_lia.
      by move: Hsz; rewrite Ht0 /= => Hk0; ssr_lia.
    by subst x; exact: (map_f (cons lo) (M1 _ Ht Hsz)).
have Hk : (lo.+1 + k <= n)%N by ssr_lia.
have Hd' : (lo.+1 + k.+1 + d)%N = n by ssr_lia.
have [L1 [P1 N1 S1 M1]] := IHk lo.+1 Hk.
have [L2 [P2 N2 S2 M2]] := IHd lo.+1 Hd'.
exists ([seq lo :: t | t <- L1] ++ iota lo.+1 k.+1 :: L2); split.
- rewrite cat_path [iota lo k.+1]/= key_step_cons //= P2 andbT.
  rewrite last_map /key_step /= N1 (key_step_last_size P1) size_iota.
  by have -> : (lo.+1 + k < n)%N by ssr_lia.
- by rewrite last_cat /=.
- rewrite size_cat size_map /= -addSn S1 S2.
  have -> : (n - lo)%N = (n - lo.+1).+1 by ssr_lia.
  by rewrite binS addnC.
- case=> [|x t] //= /and3P [Hx1 Hx2 Ht] [Hsz].
  rewrite -cat_cons mem_cat; move: Hx1; rewrite leq_eqVlt => /orP [/eqP Hx|Hx].
    subst x; apply/orP; left.
    exact: (map_f (cons lo) (M1 _ Ht Hsz)).
  by apply/orP; right; apply: M2; rewrite /= ?Hsz // Hx Hx2 Ht.
Qed.

Lemma for_range_recl (S : Type) (a b : nat) (f : nat -> S -> S) (s : S) :
  (a < b)%N -> for_range a b f s = for_range a.+1 b f (f a s).
Proof. by move=> Hab; rewrite /for_range -(subnSK Hab). Qed.

Lemma set_nth_cat_size (T : Type) (d : T) (A : seq T) (x : T) (G : seq T) (y : T) :
  set_nth d (A ++ x :: G) (size A) y = A ++ y :: G.
Proof. by elim: A => //= a A ->. Qed.

(** The [for] loop that follows the counter fills the key up again with
    consecutive numbers. *)
Lemma refill (G A : seq nat) (x : nat) :
  for_range (size A).+1 ((size A).+1 + size G)
    (fun j P => set_nth 0%N P j (nth 0%N P (j - 1) + 1)%N) (A ++ x :: G)
  = A ++ iota x (size G).+1.
Proof.
elim: G A x => [|z G IH] A x; first by rewrite addn0 for_range_nil.
have Hlt : ((size A).+1 < (size A).+1 + size (z :: G))%N by rewrite -ltn_subLR // subnn.
rewrite (for_range_recl _ _ Hlt).
rewrite subn1 /= nth_cat ltnn subnn /= addn1.
have -> : set_nth 0%N (A ++ x :: z :: G) (size A).+1 x.+1
          = rcons A x ++ x.+1 :: G.
  by rewrite -cat_rcons -(size_rcons A x) set_nth_cat_size.
have := IH (rcons A x) x.+1; rewrite size_rcons addnS addSn => ->.
by rewrite cat_rcons.
Qed.

(** The [for] loop of the counter, begun at position [size pre], against
    the successor of the key: the positions after [pre] have been
    incremented before and hold anything. *)
Lemma flipper_key (n c k : nat) (pre t g : seq nat) :
  (c + k)%N = n -> (size pre + size t)%N = k -> size g = size t ->
  next_key n t = None ->
  match next_key n (pre ++ t) with
  | None => (flipper c (size pre) (pre ++ g)).1 = 0%N
  | Some K' =>
      exists i x G,
        [/\ (i < size pre)%N,
            flipper c (size pre) (pre ++ g) = (i.+1, take i pre ++ x :: G),
            size G = (k - i.+1)%N
          & K' = take i pre ++ iota x (k - i)]
  end.
Proof.
move=> Hn; elim/last_ind: pre t g => [|p y IH] t g Hk Hg Ht.
  by rewrite /= Ht.
rewrite size_rcons /= nth_cat size_rcons ltnSn nth_rcons ltnn eqxx.
have -> : set_nth 0%N (rcons p y ++ g) (size p) y.+1 = p ++ y.+1 :: g.
  by rewrite cat_rcons set_nth_cat_size.
rewrite nth_cat ltnn subnn /= cat_rcons.
have Htest : (y.+1 < (size p).+1 + c)%N = (y.+1 + size t < n)%N.
  by move: Hk; rewrite size_rcons => Hk; rewrite -Hn -Hk -(ltn_add2r (size t)); congr (_ < _)%N; ssr_lia.
rewrite Htest; case: ifP => Hy.
  have H1 : next_key n (y :: t) = Some (iota y.+1 (size t).+1) by rewrite /= Ht Hy.
  rewrite (next_key_cat p H1).
  exists (size p), y.+1, g; split=> //.
  - by rewrite -cats1 take_size_cat.
  - by rewrite Hg; move: Hk; rewrite size_rcons; ssr_lia.
  - rewrite -cats1 take_size_cat //; congr (_ ++ iota _ _).
    by move: Hk; rewrite size_rcons; ssr_lia.
have H1 : next_key n (y :: t) = None by rewrite /= Ht Hy.
have Hk' : (size p + size (y :: t))%N = k by move: Hk; rewrite size_rcons /=; ssr_lia.
have Hg' : size (y.+1 :: g) = size (y :: t) by rewrite /= Hg.
have := IH (y :: t) (y.+1 :: g) Hk' Hg' H1.
case: (next_key n (p ++ y :: t)) => [K'|] //.
move=> [i [x [G [Hi HF HG HK]]]]; exists i, x, G; split=> //.
- exact: leqW.
- by rewrite HF -cats1 take_cat Hi.
- by rewrite HK -cats1 take_cat Hi.
Qed.

(** The counter of [determinant_minor] steps to the next key, and stops with
    [fc == 0] at the last key. *)
Lemma next_Pkey_key (n c : nat) (K : seq nat) :
  (c <= n)%N -> size K = (n - c)%N ->
  match next_key n K with
  | None => (next_Pkey n c K).1 = 0%N
  | Some K' => exists2 fc, fc != 0%N & next_Pkey n c K = (fc, K')
  end.
Proof.
move=> Hc HK.
have := @flipper_key n c (n - c) K [::] [::] (subnKC Hc) _ (erefl _) (erefl _).
rewrite addn0 !cats0 => /(_ HK); rewrite /next_Pkey -HK.
case: (next_key n K) => [K'|]; last first.
  by case: (flipper c (size K) K) => fc P /= ->; rewrite andbF.
move=> [i [x [G [Hi -> HG ->]]]]; exists i.+1 => //.
rewrite andbT; case: ifP => Hlt.
  have := refill G (take i K) x; rewrite size_take Hi HG.
  have -> : (i.+1 + (size K - i.+1))%N = size K by rewrite subnKC.
  by move=> ->; rewrite subnSK.
have Hi1 : i.+1 = size K by apply/eqP; rewrite eqn_leq Hi leqNgt Hlt.
have HG0 : G = [::] by apply: size0nil; rewrite HG Hi1 subnn.
by rewrite HG0 -Hi1 subSn // subnn.
Qed.

(** ** The Laplace branch: the store of the minors *)

Lemma Rmap_getE (A : Rmap F) (K : seq nat) :
  Rmap_get A K = (nth (K, 0) A (find (fun kv => kv.1 == K) A)).2.
Proof.
rewrite /Rmap_get /Rmap_index /Rmap_insert /Rmap_mem /=.
case: ifP => // /negbT HK; rewrite /= eqxx /=.
by rewrite hasNfind // nth_default.
Qed.

Lemma Rmap_get_cons (A : Rmap F) (K K' : seq nat) (v : ex) :
  Rmap_get ((K, v) :: A) K' = if K == K' then v else Rmap_get A K'.
Proof.
by rewrite !Rmap_getE /=; case: ifP.
Qed.

Lemma Rmap_get_absent (A : Rmap F) (K : seq nat) :
  ~~ Rmap_mem A K -> Rmap_get A K = 0.
Proof. by move=> HK; rewrite Rmap_getE hasNfind // nth_default. Qed.

Lemma Rmap_get_index (A : Rmap F) (K K' : seq nat) :
  Rmap_get (Rmap_index A K).2 K' = Rmap_get A K'.
Proof.
rewrite /Rmap_index /Rmap_insert /=; case: ifP => // /negbT HK.
by rewrite Rmap_get_cons; case: eqP => // <-; rewrite Rmap_get_absent.
Qed.

Lemma for_range_filter (T : Type) (p : pred nat) (f : nat -> T) (k : nat) :
  for_range 0 k (fun i M => if p i then rcons M (f i) else M) [::]
  = [seq f i | i <- iota 0 k & p i].
Proof.
elim: k => [|k IH]; first by rewrite for_range_nil.
rewrite for_range_recr // IH -addn1 iotaD filter_cat map_cat add0n /=.
by case: (p k); rewrite /= ?cats0 ?cats1.
Qed.

(** The key of a minor: the key of the rows without its entry [r]. *)
Lemma Mkey_loop (K : seq nat) (r : nat) :
  (r < size K)%N ->
  for_range 0 (size K)
    (fun i Mkey => if i != r then rcons Mkey (nth 0%N K i) else Mkey) [::]
  = take r K ++ drop r.+1 K.
Proof.
move=> Hr; rewrite (for_range_filter (fun i => i != r) (nth 0%N K)).
have -> : iota 0 (size K) = iota 0 r ++ r :: iota r.+1 (size K - r.+1).
  by rewrite -[in LHS](subnKC (ltnW Hr)) iotaD add0n -(subnSK Hr).
rewrite filter_cat /= eqxx /= map_cat.
have -> : filter (fun i => i != r) (iota 0 r) = iota 0 r.
  by apply/all_filterP/allP => i; rewrite mem_iota add0n => /andP [_ /ltn_eqF ->].
have -> : filter (fun i => i != r) (iota r.+1 (size K - r.+1))
          = iota r.+1 (size K - r.+1).
  apply/all_filterP/allP => i; rewrite mem_iota => /andP [Hi _].
  by rewrite gtn_eqF.
rewrite map_nth_iota0 ?(ltnW Hr) //; congr (_ ++ _).
by rewrite map_nth_iota ?subnKC // take_oversize // size_drop.
Qed.

Lemma key_ok_remove (lo n r : nat) (K : seq nat) :
  key_ok lo n K -> key_ok lo n (take r K ++ drop r.+1 K).
Proof.
elim: K lo r => [|x t IH] lo [|r] //= /and3P [H1 H2 H3].
  by rewrite drop0; apply: key_ok_le H3; apply: leqW.
by rewrite H1 H2 IH.
Qed.

(** ** Minors and their expansion along the first column *)

Lemma minor1 (n : nat) (s : seq ex) (P : seq nat) (c : nat) :
  minor n 1 s P c = at_ s (nth 0%N P 0 * n + c).
Proof. by rewrite /minor det_mx11 mxE /= addn0. Qed.

Lemma minor_expand (n k : nat) (s : seq ex) (P : seq nat) (c : nat) :
  minor n k.+1 s P c
  = \sum_(r < k.+1)
      (-1) ^+ r * at_ s (nth 0%N P r * n + c)
      * minor n k s (take r P ++ drop r.+1 P) c.+1.
Proof.
rewrite /minor (expand_det_col _ ord0); apply: eq_bigr => r _.
rewrite mxE /cofactor /= !addn0 mulrA [_ * (-1) ^+ r]mulrC; congr (_ * _).
congr (\det _).
apply/matrixP => i j; rewrite !mxE /= addSnnS; congr (at_ s (_ * n + _)).
rewrite nth_cat size_take /bump; case: (ltnP r (size P)) => Hr.
  case: (ltnP i r) => Hi; first by rewrite nth_take // add0n.
  by rewrite nth_drop add1n addSn subnKC.
rewrite take_oversize // drop_oversize ?(leqW Hr) //.
case: (ltnP i (size P)) => Hi.
  by rewrite leqNgt (leq_trans Hi Hr) add0n.
by rewrite nth_nil nth_default // (leq_trans Hi) // leq_addl.
Qed.

Lemma det_mx22 (A : 'M[F]_2) : \det A = A 0 0 * A 1 1 - A 0 1 * A 1 0.
Proof.
rewrite (expand_det_col A ord0) !big_ord_recl big_ord0 /cofactor !det_mx11 !mxE /=.
rewrite addr0 expr0 mul1r expr1 mulN1r mulrN.
have e2 (x : 'I_1) : lift (lift ord0 (ord0 : 'I_1) : 'I_2) x = (0 : 'I_2).
  by apply: val_inj; rewrite /= /bump; case: x => [[|x] Hx].
have e1 (x : 'I_1) : lift (ord0 : 'I_2) x = (1 : 'I_2).
  by apply: val_inj; rewrite /= /bump; case: x => [[|x] Hx].
rewrite !e2 !e1.
have -> : (ord0 : 'I_2) = 0 by apply: val_inj.
by rewrite [A 1 0 * _]mulrC.
Qed.

Lemma minor2 (n : nat) (s : seq ex) (P : seq nat) (c : nat) :
  minor n 2 s P c
  = at_ s (nth 0%N P 0 * n + c) * at_ s (nth 0%N P 1 * n + c.+1)
    - at_ s (nth 0%N P 0 * n + c.+1) * at_ s (nth 0%N P 1 * n + c).
Proof. by rewrite /minor det_mx22 !mxE /= !addn0 !addn1. Qed.

Lemma minor_iota (n : nat) (s : seq ex) :
  minor n n s (iota 0 n) 0 = \det (mx_of n n s).
Proof.
by congr (\det _); apply/matrixP => i j; rewrite !mxE nth_iota // !add0n.
Qed.


Local Arguments Rmap_index : simpl never.

(** The sum the [r] loop forms from the stored minors. *)
Lemma minor_sum_spec (n c : nat) (s : seq ex) (K : seq nat) (A : Rmap F) :
  size K = (n - c)%N ->
  let r := minor_sum n c s K (0, A) in
  r.1 = \sum_(0 <= i < n - c)
          (-1) ^+ i * at_ s (nth 0%N K i * n + c)
          * Rmap_get A (take i K ++ drop i.+1 K)
  /\ forall K', Rmap_get r.2 K' = Rmap_get A K'.
Proof.
move=> HK; rewrite /minor_sum -HK.
apply: (@for_range_ind _
  (fun j (st : ex * Rmap F) =>
     st.1 = \sum_(0 <= i < j)
              (-1) ^+ i * at_ s (nth 0%N K i * n + c)
              * Rmap_get A (take i K ++ drop i.+1 K)
     /\ forall K', Rmap_get st.2 K' = Rmap_get A K')) => //.
  by split=> //; rewrite big_nil.
move=> j [det A1] /andP [_ Hj] [Hdet0 HA0]; cbv beta iota.
have Hdet : det = \sum_(0 <= i < j)
                    (-1) ^+ i * at_ s (nth 0%N K i * n + c)
                    * Rmap_get A (take i K ++ drop i.+1 K) := Hdet0.
have HA1 : forall K', Rmap_get A1 K' = Rmap_get A K' := HA0.
rewrite big_nat_recr // -Hdet Mkey_loop // /is_zero.
case: eqP => [-> | _]; first by rewrite /= mulr0 mul0r addr0.
case Ei: (Rmap_index A1 _) => [a A2].
have Ha : a = Rmap_get A (take j K ++ drop j.+1 K).
  by rewrite -HA1 /Rmap_get Ei.
have HA2 : forall K', Rmap_get A2 K' = Rmap_get A K'.
  by move=> K'; rewrite -HA1 -(Rmap_get_index A1 (take j K ++ drop j.+1 K)) Ei.
rewrite -signr_odd -Ha; case: (odd j) => /=; split=> //.
  by rewrite expr1 mulN1r mulNr.
by rewrite expr0 mul1r.
Qed.

(** With the minors of the columns from [c + 1] on in the store, the sum is
    the minor of the columns from [c] on. *)
Lemma minor_sum_minor (n c : nat) (s : seq ex) (K : seq nat) (A : Rmap F) :
  (c.+1 < n)%N -> minors_ok n c.+1 s A ->
  key_ok 0 n K -> size K = (n - c)%N ->
  let r := minor_sum n c s K (0, A) in
  r.1 = minor n (n - c) s K c /\ minors_ok n c.+1 s r.2.
Proof.
move=> Hc HA HK Hsz; cbv zeta.
have [-> Hget] := minor_sum_spec s A Hsz; split; last first.
  by move=> K' H1 H2; rewrite Hget HA.
have Hk : (n - c)%N = (n - c.+1).+1 by rewrite subnSK // ltnW.
rewrite Hk minor_expand big_mkord; apply: eq_bigr => r _.
congr (_ * _); apply: HA; first exact: key_ok_remove.
rewrite size_cat size_take size_drop Hsz Hk ltn_ord subSS subnKC //.
by rewrite -ltnS.
Qed.

Lemma minor_columnS (n c : nat) (s : seq ex) (fuel : nat) (K : seq nat)
    (A B : Rmap F) :
  minor_column n c s fuel.+1 K A B
  = let r := minor_sum n c s K (0, A) in
    let B' := if ~~ is_zero r.1 then Rmap_insert B K r.1 else B in
    let q := next_Pkey n c K in
    if q.1 != 0%N then minor_column n c s fuel q.2 r.2 B'
    else Some (r.2, B', r.1).
Proof.
rewrite /= /expand; case: (minor_sum _ _ _ _ _) => det A1.
by case: (next_Pkey _ _ _) => fc P.
Qed.

(** Storing a minor under its key keeps what the store holds right. *)
Lemma store_minor (n c : nat) (s : seq ex) (B : Rmap F) (K : seq nat) (det : ex) :
  det = minor n (n - c) s K c -> stored_ok n c s B ->
  let B' := if ~~ is_zero det then Rmap_insert B K det else B in
  [/\ stored_ok n c s B',
      forall K', Rmap_get B K' = minor n (n - c) s K' c ->
                 Rmap_get B' K' = minor n (n - c) s K' c
    & Rmap_get B' K = minor n (n - c) s K c].
Proof.
move=> Hdet HB; rewrite /is_zero /Rmap_insert.
case Hd: (det == 0); case Hm: (Rmap_mem B K); rewrite /=; split=> //.
- by rewrite HB.
- by rewrite Rmap_get_absent ?Hm // -Hdet (eqP Hd).
- by rewrite HB.
- move=> K'; rewrite /Rmap_mem /= Rmap_get_cons.
  by case: eqP => [<- _|_ /HB].
- by move=> K' HK'; rewrite Rmap_get_cons; case: eqP => [<-|].
- by rewrite Rmap_get_cons eqxx.
Qed.

(** The [do] loop of column [c], run along the keys. *)
Lemma minor_column_chain (n c : nat) (s : seq ex) :
  (c.+1 < n)%N ->
  forall (L : seq (seq nat)) (K : seq nat) (A B : Rmap F) (fuel : nat),
    path (key_step n) K L -> next_key n (last K L) = None ->
    key_ok 0 n K -> size K = (n - c)%N -> (size L < fuel)%N ->
    minors_ok n c.+1 s A -> stored_ok n c s B ->
    exists A' B',
      [/\ minor_column n c s fuel K A B
          = Some (A', B', minor n (n - c) s (last K L) c),
          forall K', Rmap_get B K' = minor n (n - c) s K' c ->
                     Rmap_get B' K' = minor n (n - c) s K' c
        & forall K', K' \in K :: L -> Rmap_get B' K' = minor n (n - c) s K' c].
Proof.
move=> Hc; have Hcn : (c <= n)%N by apply: ltnW; apply: ltnW.
elim=> [|K1 L IH] K A B [|fuel] // HP HN HK Hsz Hf HA HB.
  rewrite minor_columnS; cbv zeta.
  have [Hd HA1] := minor_sum_minor Hc HA HK Hsz; rewrite Hd.
  have [HB1 Hpres Hget] := store_minor (erefl (minor n (n - c) s K c)) HB.
  have := next_Pkey_key Hcn Hsz; rewrite [last _ _]/= in HN; rewrite HN => ->.
  rewrite eqxx /=; eexists; eexists; split; first by [].
    exact: Hpres.
  by move=> K'; rewrite inE => /eqP ->.
rewrite minor_columnS; cbv zeta.
have [Hd HA1] := minor_sum_minor Hc HA HK Hsz; rewrite Hd.
have [HB1 Hpres Hget] := store_minor (erefl (minor n (n - c) s K c)) HB.
move: HP; rewrite [path _ _ _]/= => /andP [/eqP HK1 HP].
have := next_Pkey_key Hcn Hsz; rewrite HK1 => -[fc Hfc ->] /=; rewrite Hfc.
have HK1ok : key_ok 0 n K1 by apply: next_key_ok HK1.
have HK1sz : size K1 = (n - c)%N by rewrite (next_key_size HK1).
have [A' [B' [Hrun Hpres' Hall]]] := IH K1 _ _ fuel HP HN HK1ok HK1sz Hf HA1 HB1.
exists A', B'; split=> //.
  by move=> K' /Hpres /Hpres'.
move=> K'; rewrite inE => /orP [/eqP ->|]; last exact: Hall.
exact: Hpres'.
Qed.

(** The store the first loop of [determinant_minor] builds: the entries of
    the last column, each under the key of its row. *)
Lemma last_column_store (f : nat -> ex) (m : nat) (x : nat) :
  let A := for_range 0 m (fun r A => Rmap_insert A [:: r] (f r)) [::] in
  Rmap_mem A [:: x] = (x < m)%N
  /\ Rmap_get A [:: x] = if (x < m)%N then f x else 0.
Proof.
apply: (@for_range_ind _
  (fun j (A : Rmap F) => forall x,
     Rmap_mem A [:: x] = (x < j)%N
     /\ Rmap_get A [:: x] = if (x < j)%N then f x else 0)) => // [|j A _ IH] {}x.
  by split=> //; rewrite Rmap_get_absent.
have [Hm _] := IH j; have [Hx Hg] := IH x.
rewrite /Rmap_insert Hm ltnn ltnS [(x <= j)%N]leq_eqVlt; split.
  by rewrite /Rmap_mem /= -/(Rmap_mem A [:: x]) Hx eqseq_cons eqxx andbT eq_sym.
rewrite Rmap_get_cons eqseq_cons eqxx andbT eq_sym Hg.
by case: eqP => [->|].
Qed.

Lemma minors_ok_last_column (n : nat) (s : seq ex) :
  (0 < n)%N ->
  minors_ok n (n - 1) s
    (for_range 0 n (fun r A => Rmap_insert A [:: r] (at_ s (n * (r + 1) - 1))) [::]).
Proof.
move=> Hn K HK; rewrite subKn // => HS.
case: K HK HS => [|x [|y K]] //= /andP [Hx _] _.
have [_ ->] := last_column_store (fun r => at_ s (n * (r + 1) - 1)) n x.
rewrite Hx minor1 /=; congr (at_ s _).
by rewrite mulnDr muln1 mulnC -addnBA // subn1.
Qed.

(** One column: the [do] loop, begun at the first key with the fuel the
    model gives it, stores every minor of the columns from [c] on. *)
Lemma minor_column_all (n c : nat) (s : seq ex) (A : Rmap F) :
  (c.+1 < n)%N -> minors_ok n c.+1 s A ->
  exists A' B' d,
    [/\ minor_column n c s 'C(n, n - c)
          (for_range 0 (n - c) (fun i Pkey => rcons Pkey i) [::]) A [::]
        = Some (A', B', d),
        minors_ok n c s B'
      & c = 0%N -> d = minor n n s (iota 0 n) 0].
Proof.
move=> Hc HA; rewrite (for_range_rcons id) map_id.
have Hle : (0 + (n - c) <= n)%N by rewrite add0n leq_subr.
have [L [HP HN HS HM]] := key_chain Hle.
have HK : key_ok 0 n (iota 0 (n - c)) by apply: key_ok_iota.
have Hf : (size L < 'C(n, n - c))%N by rewrite -[n in 'C(n, _)]subn0 -HS.
have HB : stored_ok n c s [::] by [].
have [A' [B' [Hrun _ Hall]]] :=
  minor_column_chain Hc HP HN HK (size_iota _ _) Hf HA HB.
exists A', B', (minor n (n - c) s (last (iota 0 (n - c)) L) c); split=> //.
  by move=> K H1 H2; apply: Hall; apply: HM.
move=> Hc0; move: HS; rewrite Hc0 !subn0 binn => -[/size0nil ->] /=.
by [].
Qed.

(** The columns from the last but one down to [c0]. *)
Lemma minor_columns (n : nat) (s : seq ex) (m c0 : nat) :
  (0 < n)%N -> (c0 + m)%N = (n - 1)%N ->
  exists A det,
    [/\ foldl
          (fun (st : option (Rmap F * Rmap F * ex)) c =>
             if st is Some (A, B, det) then
               let Pkey := for_range 0 (n - c) (fun i Pkey => rcons Pkey i) [::] in
               if minor_column n c s 'C(n, n - c) Pkey A B is Some (A, B, det) then
                 Some (B, [::], det)
               else None
             else None)
          (Some (for_range 0 n
                   (fun r A => Rmap_insert A [:: r] (at_ s (n * (r + 1) - 1))) [::],
                 [::], 0))
          (rev (iota c0 m))
        = Some (A, [::], det),
        minors_ok n c0 s A
      & (0 < m)%N -> c0 = 0%N -> det = minor n n s (iota 0 n) 0].
Proof.
move=> Hn; elim: m c0 => [|m IH] c0 Hc0.
  eexists; eexists; split; first by [].
    by rewrite -[c0]addn0 Hc0; apply: minors_ok_last_column.
  by [].
have Hc1 : (c0.+1 + m)%N = (n - 1)%N by rewrite addSnnS.
have [A [det [Hrun HA _]]] := IH c0.+1 Hc1.
rewrite [iota _ _]/= rev_cons foldl_rcons Hrun.
have Hc : (c0.+1 < n)%N by ssr_lia.
have [A' [B' [d [Hcol HB Hd]]]] := minor_column_all Hc HA.
by cbv zeta; rewrite Hcol; exists B', d; split.
Qed.

Local Arguments at_ : simpl never.

(** [determinant_minor] returns the determinant of a square matrix with at
    least one row: by the closed formulas up to three rows, by the stored
    minors from four rows on. *)
Lemma determinant_minor_det (n : nat) (s : seq ex) :
  (0 < n)%N -> determinant_minor (Matrix n n s) = Some (\det (mx_of n n s)).
Proof.
move=> Hn; rewrite /determinant_minor /cols [col _]/= [m _]/= /expand -minor_iota.
case: (ltnP 3 n) => H3.
  have H2 : (2 < n)%N by apply: ltn_trans H3.
  have H1 : (1 < n)%N by apply: ltn_trans H2.
  rewrite !gtn_eqF //.
  have [A [det [-> _ Hd]]] := @minor_columns n s (n - 1) 0 Hn (add0n _).
  by rewrite /= Hd // subn_gt0.
case: n Hn H3 => [|[|[|[|n]]]] // _ _.
- by rewrite eqxx minor1.
- by rewrite minor2 /= [at_ s 2 * _]mulrC.
- rewrite minor_expand !big_ord_recl big_ord0 /= !minor2 /=.
  rewrite expr0 expr1 /bump /= expr2 !mul0n !mul1n !add0n !addn0 !mul1r addr0.
  by congr Some; ring.
Qed.




(** X19: on a well-formed square matrix with at least one row
    [determinant_minor] returns the determinant of the matrix. *)
Theorem determinant_minor_is_det (M : matrix) :
  row M = col M -> wf M -> (0 < col M)%N ->
  determinant_minor M = Some (\det (mx_of (col M) (col M) (m M))).
Proof.
by case: M => r c s /= -> _ Hc; apply: determinant_minor_det.
Qed.

(** X20: the counter at the end of the [do] body of [determinant_minor]
    steps from a key of [n - c] rows to the key that follows it in
    lexicographic order, and leaves [fc == 0] at the last key. *)
Theorem next_Pkey_is_next_key (n c : nat) (K : seq nat) :
  (c <= n)%N -> size K = (n - c)%N ->
  match next_key n K with
  | None => (next_Pkey n c K).1 = 0%N
  | Some K' => exists2 fc, fc != 0%N & next_Pkey n c K = (fc, K')
  end.
Proof. exact: next_Pkey_key. Qed.

(** X21: the column presorting of the Laplace branch keeps the dimensions
    and the length of the vector, and the sign it computes makes up for the
    order of the columns: sign times the determinant of the sorted matrix is
    the determinant of the receiver. *)
Theorem laplace_presort_is_signed (n : nat) (s : seq ex) :
  size s = (n * n)%N ->
  let r := laplace_presort (Matrix n n s) in
  [/\ row r.2 = n, col r.2 = n, size (m r.2) = (n * n)%N
    & r.1%:~R * \det (mx_of n n (m r.2)) = \det (mx_of n n s)].
Proof. exact: laplace_presort_det. Qed.



End Theory.

Lemma inverse_translates_inconsistent_witness :
  let M : matrix rat := Matrix 1 1 [:: 0] in
  row M = col M /\ inverse 0 M = Throw SingularMatrix.
Proof.
move=> M; split; first exact: erefl.
have [_ /(_ (erefl _)) [identity [vars [Hi Hv Hs _ _]]]] :=
  @inverse_translates_inconsistent rat rat_ops 0 M.
have E1 : identity_matrix (row M) (col M) = Ok (Matrix 1 1 [:: 1 : rat]).
  by apply/eqP; vm_compute.
have E2 : fresh_symbols 0 (row M) (col M) = Ok (Matrix 1 1 [:: 0 : rat]).
  by apply/eqP; vm_compute.
apply: Hs; move: Hi Hv; rewrite E1 E2 => -[<-] [<-].
by apply/eqP; vm_compute.
Defined.

Lemma trace_not_square_witness :
  let M : matrix rat := Matrix 1 2 [:: 0; 0] in
  row M <> col M /\ trace M = Throw (NonSquareMatrix "trace"%string).
Proof.
move=> M; have Hne : row M <> col M by [].
have [H _ _ _] := @trace_not_square rat rat_ops M Hne.
exact: (conj Hne H).
Defined.


(** C2: on the column [1; 3; 2] the entry of largest magnitude from row 0
    on is the 3 of row 1.  The numeric branch of [pivot] answers [-1], the
    value that stands for a column of zeros, and swaps no rows.  On the
    column [1; -3; -5; 0] it brings the zero of row 3 to row 0. *)
Theorem pivot_numeric_largest_magnitude :
  let M : matrix rat := Matrix 3 1 [:: 1; 3%:R; 2%:R] in
  let N : matrix rat := Matrix 4 1 [:: 1; - 3%:R; - 5%:R; 0] in
  pivot M 0 0 false = (-1, M)
  /\ pivot N 0 0 false = (3%:Z, Matrix 4 1 [:: 0; - 3%:R; - 5%:R; 1]).
Proof. by split; apply/eqP; vm_compute. Qed.

Lemma rat_compare_eq0 (x y : rat) : (rat_compare x y == 0) = (x == y).
Proof. by rewrite /rat_compare; case: ltgtP. Qed.

Lemma compare_same_type_total_witness :
  let M : matrix rat := Matrix 1 2 [:: 1; 2%:R] in
  let o : matrix rat := Matrix 2 1 [:: 1; 2%:R] in
  wf M /\ wf o /\ exists v : int, compare_same_type M o = Ok v /\ (v = 0 <-> M = o).
Proof.
move=> M o.
have [v [Hv _ _ _ H0]] :=
  @compare_same_type_total rat rat_ops rat_compare_eq0 M o (erefl _) (erefl _).
exact: (conj (erefl _) (conj (erefl _) (ex_intro _ v (conj Hv H0)))).
Defined.

Lemma solve_underdetermined_witness :
  solve (Matrix 2 2 [:: 1; 1; 1; 1]) (Matrix 2 1 [:: 5%:R; 7%:R])
    (Matrix 2 1 [:: 2%:R; 2%:R]) solve_algo.automatic
  = Ok (Matrix 2 1 [:: 2%:R - 7%:R; 7%:R : rat]).
Proof. exact: (@solve_underdetermined rat rat_ops 5%:R 7%:R (erefl _) (erefl _)). Defined.

Lemma solve_inconsistent_iff_witness :
  let M : matrix rat := Matrix 2 2 [:: 1; 1; 1; 1] in
  let vars : matrix rat := Matrix 2 1 [:: 5%:R; 7%:R] in
  let rhs : matrix rat := Matrix 2 1 [:: 1; 2%:R] in
  solve M vars rhs solve_algo.automatic = Throw InconsistentSystem.
Proof.
move=> M vars rhs.
have [_ H] := @solve_inconsistent_iff rat rat_ops M vars rhs solve_algo.automatic.
apply: H; split; [by [] | by [] | exists 0%N, 1%N; split; [by [] | by [] | | ]].
- by case=> [|[|c]] // _; apply/eqP; vm_compute.
- by apply/eqP; vm_compute.
Defined.

Lemma pow_binary_exponentiation_witness :
  let M : matrix rat := Matrix 2 2 [:: 0; 0; 0; 0] in
  row M = col M
  /\ exists2 I : matrix rat,
       pow 0 M (integer_exponent 0) = Ok I & mx_of 2 2 (m I) = 1%:M.
Proof.
move=> M.
have [[I HI [_ _ _ Hm]] _ _ _] :=
  @pow_binary_exponentiation rat rat_ops 0 M 0 (erefl _).
exact: (conj (erefl _) (ex_intro2 _ _ I HI Hm)).
Defined.

Lemma transpose_involutive_witness :
  let M : matrix rat := Matrix 2 3 [:: 1; 2%:R; 3%:R; 4%:R; 5%:R; 6%:R] in
  wf M /\ transpose (transpose M) = M.
Proof.
move=> M; have Hwf : wf M by [].
split; first exact: Hwf.
exact: (transpose_involutive Hwf).
Defined.

Lemma transpose_is_transposed_witness :
  let M : matrix rat := Matrix 2 3 [:: 1; 2%:R; 3%:R; 4%:R; 5%:R; 6%:R] in
  wf M
  /\ [/\ row (transpose M) = 3%N, col (transpose M) = 2%N, wf (transpose M)
       & mx_of 3 2 (m (transpose M)) = (mx_of 2 3 (m M))^T].
Proof.
move=> M; have Hwf : wf M by [].
exact: (conj Hwf (@transpose_is_transposed rat M Hwf)).
Defined.

Lemma add_is_matrix_sum_witness :
  let M : matrix rat := Matrix 1 2 [:: 1; 2%:R] in
  let other : matrix rat := Matrix 1 2 [:: 3%:R; 4%:R] in
  wf M /\ exists2 P : matrix rat, add M other = Ok P & wf P.
Proof.
move=> M other; have Hwf : wf M by [].
have [P HP [_ _ HwP _]] :=
  @add_is_matrix_sum rat M other Hwf (erefl _) (erefl _).
exact: (conj Hwf (ex_intro2 _ _ P HP HwP)).
Defined.

Lemma sub_is_matrix_difference_witness :
  let M : matrix rat := Matrix 1 2 [:: 1; 2%:R] in
  let other : matrix rat := Matrix 1 2 [:: 3%:R; 4%:R] in
  wf M /\ exists2 P : matrix rat, sub M other = Ok P & wf P.
Proof.
move=> M other; have Hwf : wf M by [].
have [P HP [_ _ HwP _]] :=
  @sub_is_matrix_difference rat M other Hwf (erefl _) (erefl _).
exact: (conj Hwf (ex_intro2 _ _ P HP HwP)).
Defined.

Lemma pivot_symbolic_spec_witness :
  let M : matrix rat := Matrix 2 1 [:: 0; 1] in
  [/\ wf M, (0 < row M)%N, (0 < col M)%N
    & let r := pivot M 0 0 true in
      if all (fun i => is_zero (at_ (m M) (i * col M + 0))) (iota 0 (row M - 0))
      then r = (-1, M)
      else
        exists p : nat,
          [/\ (0 <= p < row M)%N,
              at_ (m M) (p * col M + 0) != 0,
              forall i, (0 <= i < p)%N -> at_ (m M) (i * col M + 0) = 0,
              r.1 = (if p == 0%N then 0 else Posz p)
            & [/\ row r.2 = row M, col r.2 = col M, wf r.2
                & forall i j, (j < col M)%N ->
                    at_ (m r.2) (i * col M + j)
                    = at_ (m M) ((if i == p then 0%N else if i == 0%N then p else i)
                                 * col M + j)]]].
Proof.
move=> M; have H1 : wf M by [].
have H2 : (0 < row M)%N by [].
have H3 : (0 < col M)%N by [].
exact: (And4 H1 H2 H3 (@pivot_symbolic_spec rat rat_ops M 0 0 H1 H2 H3)).
Defined.

Lemma determinant_gauss_is_det_witness :
  let h : heap rat := [:: Matrix 2 2 [:: 1; 2%:R; 3%:R; 4%:R]] in
  (determinant h 0 determinant_algo.gauss).1
  = Ok (\det (mx_of 2 2 [:: 1; 2%:R; 3%:R; 4%:R])).
Proof.
move=> h.
exact: (@determinant_gauss_is_det rat rat_ops h 0 (erefl _) (erefl _)).
Defined.

Lemma solve_fails_only_with_witness :
  DimensionMismatch "solve"%string
    \in [:: DimensionMismatch "solve"%string; InvalidArgument; IndexOutOfRange;
            InconsistentSystem].
Proof.
have H : solve (Matrix 1 1 [:: 1 : rat]) (Matrix 2 1 [:: 0; 0]) (Matrix 1 1 [:: 1])
           solve_algo.automatic = Throw (DimensionMismatch "solve"%string).
  by [].
exact: (solve_fails_only_with H).
Defined.

Lemma inverse_keeps_shape_witness :
  let M : matrix rat := Matrix 1 1 [:: 2%:R] in
  exists2 P : matrix rat, inverse 0 M = Ok P & row P = row M /\ col P = col M.
Proof.
move=> M.
have H : inverse 0 M = Ok (Matrix 1 1 [:: 2%:R^-1]) by apply/eqP; vm_compute.
exact: (ex_intro2 _ _ _ H (inverse_keeps_shape H)).
Defined.

Lemma matrix_from_lst_entries_witness :
  let l : seq rat := [:: 1; 2%:R; 3%:R] in
  (0 < 2)%N
  /\ m (matrix_from_lst 2 2 l) = take (2 * 2) l ++ nseq (2 * 2 - size l) 0.
Proof.
move=> l; have Hc : (0 < 2)%N by [].
have [_ _ H] := @matrix_from_lst_entries rat 2 2 l Hc.
exact: (conj Hc H).
Defined.

Lemma trace_is_trace_witness :
  let M : matrix rat := Matrix 2 2 [:: 1; 2%:R; 3%:R; 4%:R] in
  row M = col M /\ trace M = Ok (\tr (mx_of 2 2 (m M))).
Proof.
move=> M; have Hsq : row M = col M by [].
exact: (conj Hsq (@trace_is_trace rat rat_ops M Hsq)).
Defined.


Lemma determinant_minor_is_det_witness :
  let M : matrix rat := Matrix 2 2 [:: 1; 2%:R; 3%:R; 4%:R] in
  [/\ row M = col M, wf M, (0 < col M)%N
    & determinant_minor M = Some (\det (mx_of 2 2 (m M)))].
Proof.
move=> M; have H1 : row M = col M by [].
have H2 : wf M by [].
have H3 : (0 < col M)%N by [].
exact: (And4 H1 H2 H3 (@determinant_minor_is_det rat M H1 H2 H3)).
Defined.

Lemma next_Pkey_is_next_key_witness :
  [/\ (2 <= 4)%N, size [:: 0%N; 3%N] = (4 - 2)%N
    & exists2 fc, fc != 0%N & next_Pkey 4 2 [:: 0%N; 3%N] = (fc, [:: 1%N; 2%N])].
Proof.
have H1 : (2 <= 4)%N by [].
have H2 : size [:: 0%N; 3%N] = (4 - 2)%N by [].
exact: (And3 H1 H2 (@next_Pkey_is_next_key 4 2 [:: 0%N; 3%N] H1 H2)).
Defined.

Lemma laplace_presort_is_signed_witness :
  let s : seq rat := [:: 0; 2%:R; 3%:R; 4%:R] in
  size s = (2 * 2)%N
  /\ (laplace_presort (Matrix 2 2 s)).1%:~R
     * \det (mx_of 2 2 (m (laplace_presort (Matrix 2 2 s)).2))
     = \det (mx_of 2 2 s).
Proof.
move=> s; have Hs : size s = (2 * 2)%N by [].
have [_ _ _ H] := @laplace_presort_is_signed rat 2 s Hs.
exact: (conj Hs H).
Defined.

